(** * DhanLaxmi: open-order adjustment window and throttled tick loops

    A shallow embedding of

    - [OpenOrderBottomWindow] (the order-adjustment handlers [handleAction]
      and [handlePriceSave], with the values the component derives from its
      props and state on each render),
    - the [updateLoop] of [OpenOrder] (order list, 200 ms throttle),
    - the [updateLoop] of [useOptionChain] (option chain, 50 ms throttle),
    - the rest of [OpenOrder]: fetching the orders, Exit All, the
      subscription effect and its cleanup, the merge of baseline and live
      ticks, and the price a row shows,
    - the rest of [useOptionChain]: the fetch of the chain, subscribing and
      unsubscribing the strikes, the effects around them and the spot-price
      loop,
    - the backend's quote service ([kiteQuote.js]) and option-chain
      controller ([optionChainController.js]),

    followed by the properties of these programs.

    Numbers.  A JavaScript number is modelled as [NaN] or an exact rational:
    arithmetic is exact, the infinities and the negative zero are left out,
    and a division by zero yields [NaN].  Comparisons with [NaN] are false,
    and [NaN] is falsy, as in the source language.

    Values.  A property of a JSON object ([field]) and the content of a
    numeric text box ([input]) are given by the number that [Number(...)]
    reads from them; the add-lot box is kept as the string it is, since
    [parseInt] reads it.  User-facing messages keep the values interpolated
    into them, not their wording.

    Effects.  A handler is a computation in the monad [M]: it emits the
    state setters and the outbound calls in program order, reads the replies
    of the awaited calls from an environment, and completes normally, by
    [return] or by [throw], with [try]/[catch]/[finally] as in the source. *)

From Stdlib Require Import QArith Qround Qabs ZArith String Ascii List Lia Bool.
From stdpp Require Import gmap strings.
Import ListNotations.

Local Open Scope Q_scope.

(** ** JavaScript numbers *)

Module JS.

Inductive number : Type :=
| NaN
| Num (q : Q).

(** Strict equality [a === b] on numbers: [NaN] equals nothing. *)
Definition num_eq (a b : number) : Prop :=
  match a, b with
  | Num x, Num y => x == y
  | _, _ => False
  end.

Definition isNaN (a : number) : bool :=
  match a with NaN => true | Num _ => false end.

Definition truthy (a : number) : bool :=
  match a with NaN => false | Num q => negb (Qeq_bool q 0) end.

(** [a || b] on two numbers. *)
Definition or_else (a b : number) : number :=
  if truthy a then a else b.

(** [a || c] where [c] is a finite constant: the result is finite. *)
Definition or_const (a : number) (c : Q) : Q :=
  match a with
  | Num q => if Qeq_bool q 0 then c else q
  | NaN => c
  end.

Definition Qltb (x y : Q) : bool := negb (Qle_bool y x).
Definition Qgtb (x y : Q) : bool := Qltb y x.
Definition Qgeb (x y : Q) : bool := Qle_bool y x.

Definition lift2 (f : Q -> Q -> Q) (a b : number) : number :=
  match a, b with
  | Num x, Num y => Num (f x y)
  | _, _ => NaN
  end.

Definition add : number -> number -> number := lift2 Qplus.
Definition sub : number -> number -> number := lift2 Qminus.
Definition mul : number -> number -> number := lift2 Qmult.

Definition div (a b : number) : number :=
  match a, b with
  | Num x, Num y => if Qeq_bool y 0 then NaN else Num (x / y)
  | _, _ => NaN
  end.

Definition cmp (f : Q -> Q -> bool) (a b : number) : bool :=
  match a, b with
  | Num x, Num y => f x y
  | _, _ => false
  end.

Definition gtb : number -> number -> bool := cmp Qgtb.
Definition ltb : number -> number -> bool := cmp Qltb.

(** [Math.max(c, a)] for a finite [c]. *)
Definition max_const (c : Q) (a : number) : number :=
  match a with
  | NaN => NaN
  | Num q => Num (if Qle_bool c q then q else c)
  end.

(** [Number(x.toFixed(d))] on a finite [x]: the nearest multiple of
    [10^-d], a tie going away from zero ([toFixed] rounds the magnitude and
    picks the larger candidate). *)
Definition scale (d : nat) : Q := inject_Z (10 ^ Z.of_nat d).

Definition round_magnitude (d : nat) (x : Q) : Q :=
  inject_Z (Qfloor (x * scale d + (1 # 2))) / scale d.

Definition toFixedQ (d : nat) (x : Q) : Q :=
  if Qltb x 0 then - round_magnitude d (- x) else round_magnitude d x.

Definition toFixed (d : nat) (a : number) : number :=
  match a with
  | NaN => NaN
  | Num q => Num (toFixedQ d q)
  end.

(** *** Strings: [toUpperCase], [trim], [parseInt(s, 10)] *)

Definition upper (c : ascii) : ascii :=
  let n := nat_of_ascii c in
  if (97 <=? n)%nat && (n <=? 122)%nat then ascii_of_nat (n - 32) else c.

Fixpoint toUpperCase (s : string) : string :=
  match s with
  | EmptyString => EmptyString
  | String c r => String (upper c) (toUpperCase r)
  end.

Definition is_space (c : ascii) : bool :=
  let n := nat_of_ascii c in
  (n =? 32)%nat || ((9 <=? n)%nat && (n <=? 13)%nat).

Fixpoint trimStart (s : string) : string :=
  match s with
  | EmptyString => EmptyString
  | String c r => if is_space c then trimStart r else s
  end.

Fixpoint trimEnd (s : string) : string :=
  match s with
  | EmptyString => EmptyString
  | String c r =>
      match trimEnd r with
      | EmptyString => if is_space c then EmptyString else String c EmptyString
      | r' => String c r'
      end
  end.

Definition trim (s : string) : string := trimEnd (trimStart s).

Definition digit (c : ascii) : option Z :=
  let n := nat_of_ascii c in
  if (48 <=? n)%nat && (n <=? 57)%nat then Some (Z.of_nat (n - 48)) else None.

(** The longest prefix of decimal digits, read as an integer; [acc] is
    [None] until a first digit is seen. *)
Fixpoint digits (s : string) (acc : option Z) : option Z :=
  match s with
  | EmptyString => acc
  | String c r =>
      match digit c with
      | Some v => digits r (Some (10 * default 0%Z acc + v)%Z)
      | None => acc
      end
  end.

Definition parseInt (s : string) : number :=
  let t := trimStart s in
  let '(neg, body) :=
    match t with
    | String "-"%char r => (true, r)
    | String "+"%char r => (false, r)
    | _ => (false, t)
    end in
  match digits body None with
  | None => NaN
  | Some z => Num (inject_Z (if neg then - z else z))
  end.

(** [s || d] on strings: the empty string is falsy. *)
Definition str_or (s d : string) : string :=
  match s with EmptyString => d | _ => s end.

End JS.

Import JS.

(** ** Data model *)

(** A property read from a JSON object: absent, [null], or a value, given
    by the number that [Number(...)] makes of it. *)
Inductive field : Type :=
| Undefined
| Null
| Val (n : number).

Definition Number (f : field) : number :=
  match f with
  | Undefined => NaN
  | Null => Num 0
  | Val n => n
  end.

(** [Number(f ?? c)] *)
Definition Number_or (f : field) (c : Q) : number :=
  match f with
  | Val n => n
  | _ => Num c
  end.

(** The content of a numeric text box held in component state: the empty
    string, or a non-empty value that [Number(...)] reads as [n]. *)
Inductive input : Type :=
| Blank
| Entered (n : number).

Definition Number_input (i : input) : number :=
  match i with
  | Blank => Num 0
  | Entered n => n
  end.

Definition filled (i : input) : bool :=
  match i with Blank => false | Entered _ => true end.

(** [selectedOrder.stop_loss || ''] *)
Definition initial_input (f : field) : input :=
  if truthy (Number f) then Entered (Number f) else Blank.

Module Order.
Record t : Type := mk {
  _id : option string;
  symbol : option string;
  side : option string;
  product : option string;
  quantity : field;
  price : field;
  jobbin_price : field;
  instrument_token : option string;
  lots : field;
  lot_size : field;
  stop_loss : field;
  target : field;
  margin_blocked : field;
  order_status : option string;
  meta_lot_size : field;              (* meta?.selectedStock?.lot_size *)
  meta_tradingSymbol : option string  (* meta?.selectedStock?.tradingSymbol *)
}.
End Order.

(** The body of a request to [/api/orders/updateOrder]; [None] is a key the
    object does not have. *)
Module Payload.
Record t : Type := mk {
  broker_id_str : option string;
  customer_id_str : option string;
  order_id : option string;
  instrument_token : option string;
  symbol : option string;
  side : option string;
  product : option string;
  lots : option number;               (* sent as [String(lots)] *)
  quantity : option number;
  price : option number;
  came_From : option string;
  order_status : option string;
  margin_blocked : option number;
  stop_loss : option number;
  target : option number;
  closed_ltp : option number;
  closed_at : option string;
  meta_from : string
}.
End Payload.

Record limits : Type := {
  available_limit : field;
  used_limit : field
}.

Record fundsData : Type := {
  intraday : option limits;
  overnight : option limits
}.

Inductive productType : Type := Intraday | Overnight.

(** *** Feedback shown to the user

    The interpolated values of each message are kept; the wording is not. *)
Inductive error_message : Type :=
| Text (s : string)
| ServerError (status : nat).           (* `Server error: ${res.status}` *)

Inductive message : Type :=
| InvalidSL_BUY (cmp : Q)
| InvalidTarget_BUY (cmp : Q)
| InvalidSL_SELL (cmp : Q)
| InvalidTarget_SELL (cmp : Q)
| InsufficientFunds (required available : number)
| FundCheckFailed
| InvalidPrice
| Failed (e : error_message)            (* `Failed: ${err.message}` *)
| ActionSuccessful (clickedAction : string)
| OrderUpdated
| PriceUpdated.

Inductive kind : Type := error | success.

Record notice : Type := { type : kind; message_ : message }.

(** *** Replies of the external services *)

Record body : Type := {
  body_success : option bool;
  body_message : option string;
  body_order : option Order.t
}.

Record response : Type := {
  ok : bool;
  status : nat;
  json : option body                    (* [None]: [res.json()] threw, or null *)
}.

Inductive funds_reply : Type :=
| funds_throws (e : error_message)
| funds_null
| funds_ok (d : fundsData).

Inductive fetch_reply : Type :=
| fetch_throws (e : error_message)
| fetch_ok (r : response).

Record env : Type := {
  funds : funds_reply;
  server : fetch_reply;
  now : string                          (* new Date().toISOString() *)
}.

(** *** Observable effects of a handler, in program order *)
Inductive event : Type :=
| setSubmitting (b : bool)
| setFeedback (f : option notice)
| setIsEditingPrice (b : bool)
| call_getFundsData
| call_fetch (url : string) (authorization : option string) (p : Payload.t)
| console_error
| dispatch_orders_changed (order : option Order.t)
| schedule_onClose.

(** ** A monad for handler bodies

    A block of statements emits events and completes normally, by a
    [return] statement, or by a [throw]; the replies of the awaited external
    calls are read from the environment. *)
Inductive completion (A : Type) : Type :=
| Normal (a : A)
| Returned
| Thrown (e : error_message).

Arguments Normal {A} a.
Arguments Returned {A}.
Arguments Thrown {A} e.

Definition M (A : Type) : Type := env -> list event * completion A.

Definition ret {A} (a : A) : M A := fun _ => ([], Normal a).

Definition bind {A B} (m : M A) (f : A -> M B) : M B :=
  fun E =>
    match m E with
    | (t1, Normal a) => let '(t2, c) := f a E in (t1 ++ t2, c)
    | (t1, Returned) => (t1, Returned)
    | (t1, Thrown e) => (t1, Thrown e)
    end.

Definition emit (e : event) : M unit := fun _ => ([e], Normal tt).
Definition return_ {A} : M A := fun _ => ([], Returned).
Definition throw {A} (e : error_message) : M A := fun _ => ([], Thrown e).
Definition ask : M env := fun E => ([], Normal E).

(** [try { m } catch (err) { h err }] *)
Definition try_catch {A} (m : M A) (h : error_message -> M A) : M A :=
  fun E =>
    match m E with
    | (t1, Thrown e) => let '(t2, c) := h e E in (t1 ++ t2, c)
    | r => r
    end.

(** [try { m } finally { f }]: [f] runs however [m] completes. *)
Definition try_finally {A} (m : M A) (f : M unit) : M A :=
  fun E =>
    let '(t1, c) := m E in
    let '(t2, c') := f E in
    (t1 ++ t2,
     match c' with
     | Normal _ => c
     | Returned => Returned
     | Thrown e => Thrown e
     end).

Declare Scope handler_scope.
Delimit Scope handler_scope with handler.
Notation "x <- m ;; k" := (bind m (fun x => k))
  (at level 100, m at next level, right associativity) : handler_scope.
Notation "m ;; k" := (bind m (fun _ => k))
  (at level 100, right associativity) : handler_scope.

(** [await getFundsData()] *)
Definition getFundsData : M (option fundsData) :=
  fun E =>
    ([call_getFundsData],
     match funds E with
     | funds_throws e => Thrown e
     | funds_null => Normal None
     | funds_ok d => Normal (Some d)
     end).

(** [await fetch(url, { method: 'POST', headers, body })] *)
Definition fetch (url : string) (authorization : option string)
    (p : Payload.t) : M response :=
  fun E =>
    ([call_fetch url authorization p],
     match server E with
     | fetch_throws e => Thrown e
     | fetch_ok r => Normal r
     end).

(** The events of a trace that leave the browser. *)
Definition is_outbound (e : event) : bool :=
  match e with
  | call_getFundsData | call_fetch _ _ _ => true
  | _ => false
  end.

Definition is_order_mutation (e : event) : bool :=
  match e with
  | call_fetch _ _ _ => true
  | _ => false
  end.

Definition outbound (t : list event) : list event := filter is_outbound t.
Definition order_mutations (t : list event) : list event :=
  filter is_order_mutation t.

Definition payloads (t : list event) : list Payload.t :=
  flat_map (fun e => match e with call_fetch _ _ p => [p] | _ => [] end) t.

(** ** OpenOrderBottomWindow *)

Module OpenOrderBottomWindow.

Local Open Scope handler_scope.

Record props : Type := {
  selectedOrder : Order.t;
  sheetData_ltp : field;                (* sheetData?.ltp *)
  apiBase : string;
  token : option string;
  brokerId : option string;             (* activeContext.brokerId *)
  customerId : option string;           (* activeContext.customerId *)
  userRole : option string;
  isOpen : bool                         (* logMarketStatus() *)
}.

Record state : Type := {
  addLotInput : string;
  slPrice : input;
  targetPrice : input;
  submitting : bool;
  feedback : option notice;
  isEditingPrice : bool;
  editPriceInput : input
}.

(** [s.replace(/\/$/, '')]: one trailing slash is dropped. *)
Fixpoint stripSlash (s : string) : string :=
  match s with
  | EmptyString => EmptyString
  | String c EmptyString => if Ascii.eqb c "/" then EmptyString else s
  | String c r => String c (stripSlash r)
  end.

Definition opt_eqb (o : option string) (s : string) : bool :=
  match o with Some x => String.eqb x s | None => false end.

(** [a === c] for a number and a finite constant. *)
Definition is_const (a : number) (c : Q) : bool :=
  match a with Num q => Qeq_bool q c | NaN => false end.

Section Render.

Variable P : props.
Variable S : state.

Let order := selectedOrder P.

Definition orderId : option string := Order._id order.

Definition lotSize : Q :=
  or_const (or_else (Number (Order.lot_size order))
                    (Number (Order.meta_lot_size order))) 1.

Definition ltpRaw : option number :=
  match sheetData_ltp P with
  | Val n => Some n
  | _ => None
  end.

Definition currentPrice : Q :=
  or_const (or_else (default NaN ltpRaw) (Number (Order.price order))) 0.

Definition tradingsymbol : string :=
  match Order.meta_tradingSymbol order, Order.symbol order with
  | Some s, _ => s
  | None, Some s => s
  | None, None => "N/A"
  end.

Definition orderSide : string :=
  toUpperCase (default EmptyString (Order.side order)).

Definition productType_ : productType :=
  if opt_eqb (Order.product order) "MIS" then Intraday else Overnight.

Definition avg : number := Number_or (Order.price order) 0.
Definition qty : number := Number_or (Order.quantity order) 0.

(** --- ADD LOT CALCULATION --- *)
Definition currentLots : number := Number_or (Order.lots order) 0.

Definition parsedAddLots : number :=
  max_const 0 (parseInt (str_or (trim (addLotInput S)) "0")).

Definition targetTotalLots : number := add currentLots parsedAddLots.
Definition targetTotalQuantity : number := mul targetTotalLots (Num lotSize).

(** Weighted Avg Price Logic *)
Definition computedAvg : number :=
  if gtb parsedAddLots (Num 0) then
    let existingVal := mul qty avg in
    let newVal := mul (mul parsedAddLots (Num lotSize)) (Num currentPrice) in
    div (add existingVal newVal) targetTotalQuantity
  else avg.

Definition endpoint : string :=
  (stripSlash (apiBase P) ++ "/api/orders/updateOrder")%string.

(** --- PRICE EDIT HANDLER --- *)
Definition price_input_invalid : bool :=
  negb (filled (editPriceInput S))
  || isNaN (Number_input (editPriceInput S))
  || ltb (Number_input (editPriceInput S)) (Num 0).

Definition pricePayload : Payload.t :=
  {| Payload.broker_id_str := brokerId P;
     Payload.customer_id_str := customerId P;
     Payload.order_id := orderId;
     Payload.instrument_token := None;
     Payload.symbol := None;
     Payload.side := None;
     Payload.product := None;
     Payload.lots := None;
     Payload.quantity := None;
     Payload.price := Some (Number_input (editPriceInput S));
     Payload.came_From := None;
     Payload.order_status := None;
     Payload.margin_blocked := None;
     Payload.stop_loss := None;
     Payload.target := None;
     Payload.closed_ltp := None;
     Payload.closed_at := None;
     Payload.meta_from := "ui_open_order_window_edit_price" |}.

(** [!res.ok || (body && body.success === false)] *)
Definition rejected (res : response) : bool :=
  negb (ok res)
  || match json res with
     | Some b => match body_success b with Some false => true | _ => false end
     | None => false
     end.

(** [body?.message || `Server error: ${res.status}`] *)
Definition failure (res : response) : error_message :=
  match json res with
  | Some {| body_message := Some (String c r) |} => Text (String c r)
  | _ => ServerError (status res)
  end.

(** [body?.order] *)
Definition updated (res : response) : option Order.t :=
  match json res with
  | Some b => body_order b
  | None => None
  end.

Definition handlePriceSave : M unit :=
  (if price_input_invalid then
     emit (setFeedback (Some {| type := error; message_ := InvalidPrice |}));;
     return_
   else ret tt);;
  emit (setSubmitting true);;
  try_finally
    (try_catch
       (res <- fetch endpoint (token P) pricePayload;;
        (if rejected res then throw (failure res) else ret tt);;
        emit (setFeedback (Some {| type := success; message_ := PriceUpdated |}));;
        emit (setIsEditingPrice false);;
        emit (dispatch_orders_changed (updated res)))
       (fun err =>
          emit console_error;;
          emit (setFeedback (Some {| type := error; message_ := Failed err |}))))
    (emit (setSubmitting false)).

(** --- MAIN ACTION HANDLER --- *)
Definition sl : Q := or_const (Number_input (slPrice S)) 0.
Definition tgt : Q := or_const (Number_input (targetPrice S)) 0.

Definition reject (m : message) : M unit :=
  emit (setFeedback (Some {| type := error; message_ := m |}));;
  emit (setSubmitting false);;
  return_.

(** A. Stop Loss & Target Validation *)
Definition validateLevels : M unit :=
  if Qgtb currentPrice 0 then
    if String.eqb orderSide "BUY" then
      (if Qgtb sl 0 && Qgeb sl currentPrice
       then reject (InvalidSL_BUY currentPrice) else ret tt);;
      (if Qgtb tgt 0 && Qle_bool tgt currentPrice
       then reject (InvalidTarget_BUY currentPrice) else ret tt)
    else
      (if Qgtb sl 0 && Qle_bool sl currentPrice
       then reject (InvalidSL_SELL currentPrice) else ret tt);;
      (if Qgtb tgt 0 && Qgeb tgt currentPrice
       then reject (InvalidTarget_SELL currentPrice) else ret tt)
  else ret tt.

(** B. Fund Check *)
Definition requiredAmount : number :=
  mul (mul parsedAddLots (Num lotSize)) (Num currentPrice).

Definition limit_or_0 (l : option limits) (f : limits -> field) : Q :=
  match l with
  | Some x => or_const (Number (f x)) 0
  | None => 0
  end.

Definition availableLimit (fundsData : fundsData) : Q :=
  match productType_ with
  | Intraday =>
      let max := limit_or_0 (intraday fundsData) available_limit in
      let used := limit_or_0 (intraday fundsData) used_limit in
      max - used
  | Overnight => limit_or_0 (overnight fundsData) available_limit
  end.

Definition fundCheck : M unit :=
  if gtb parsedAddLots (Num 0) then
    try_catch
      (fundsData <- getFundsData;;
       match fundsData with
       | None => throw (Text "Unable to fetch wallet balance.")
       | Some d =>
           if gtb requiredAmount (Num (availableLimit d)) then
             reject (InsufficientFunds (toFixed 2 requiredAmount)
                                       (toFixed 2 (Num (availableLimit d))))
           else ret tt
       end)
      (fun fundErr => reject FundCheckFailed)
  else ret tt.

Definition openPayload : Payload.t :=
  {| Payload.broker_id_str := brokerId P;
     Payload.customer_id_str := customerId P;
     Payload.order_id := orderId;
     Payload.instrument_token := Order.instrument_token order;
     Payload.symbol := Some tradingsymbol;
     Payload.side := Some orderSide;
     Payload.product := Some "MIS"%string;
     Payload.lots := Some targetTotalLots;
     Payload.quantity := Some targetTotalQuantity;
     Payload.price := Some (toFixed 2 computedAvg);
     Payload.came_From := Some "Open"%string;
     Payload.order_status := Some "OPEN"%string;
     Payload.margin_blocked := Some (Number (Order.margin_blocked order));
     Payload.stop_loss :=
       Some (if filled (slPrice S) then Number_input (slPrice S) else Num 0);
     Payload.target :=
       Some (if filled (targetPrice S)
             then Number_input (targetPrice S) else Num 0);
     Payload.closed_ltp := None;
     Payload.closed_at := None;
     Payload.meta_from := "ui_open_order_window_add" |}.

(** *** EXIT LOGIC *)
Definition liveLtp : number := Number_or (sheetData_ltp P) 0.
Definition jobbing : number := Number_or (Order.jobbin_price order) 0.

Definition closedLtp : number :=
  if gtb liveLtp (Num 0) && negb (isNaN jobbing) then
    if String.eqb orderSide "BUY"
    then sub liveLtp (mul liveLtp (div jobbing (Num 100)))
    else add liveLtp (mul liveLtp (div jobbing (Num 100)))
  else liveLtp.

Definition exitPayload (targetStatus : string) (closed_at : string)
  : Payload.t :=
  {| Payload.broker_id_str := brokerId P;
     Payload.customer_id_str := customerId P;
     Payload.order_id := orderId;
     Payload.instrument_token := Order.instrument_token order;
     Payload.symbol := Some tradingsymbol;
     Payload.side := None;
     Payload.product := None;
     Payload.lots := None;
     Payload.quantity := None;
     Payload.price := None;
     Payload.came_From :=
       Some (if String.eqb targetStatus "HOLD" then "Hold" else "Open")%string;
     Payload.order_status := Some targetStatus;
     Payload.margin_blocked := None;
     Payload.stop_loss := None;
     Payload.target := None;
     Payload.closed_ltp := Some (Num (toFixedQ 4 (or_const closedLtp 0)));
     Payload.closed_at := Some closed_at;
     Payload.meta_from := "ui_open_order_window_exit" |}.

Definition successMsg (clickedAction : string) : message :=
  if String.eqb clickedAction "Adjust" && is_const parsedAddLots 0
  then OrderUpdated
  else ActionSuccessful clickedAction.

Definition handleAction (clickedAction targetStatus : string) : M unit :=
  emit (setSubmitting true);;
  emit (setFeedback None);;
  try_finally
    (try_catch
       ((if String.eqb targetStatus "OPEN" && String.eqb clickedAction "Adjust"
         then validateLevels;; fundCheck
         else ret tt);;
        E <- ask;;
        let payload :=
          if String.eqb targetStatus "OPEN" then openPayload
          else exitPayload targetStatus (now E) in
        res <- fetch endpoint (token P) payload;;
        (if rejected res then throw (failure res) else ret tt);;
        emit (setFeedback
                (Some {| type := success;
                         message_ := successMsg clickedAction |}));;
        emit (dispatch_orders_changed (updated res));;
        emit schedule_onClose)
       (fun err =>
          emit console_error;;
          emit (setFeedback (Some {| type := error; message_ := Failed err |}))))
    (emit (setSubmitting false)).

End Render.

(** *** The buttons of the window

    [BUY MORE], [EXIT] and [CONVERT TO HOLD] call [handleAction]; the check
    mark of the price editor calls [handlePriceSave].  Every one of them
    carries [disabled={submitting}]. *)
Inductive button : Type := BuyMore | Exit | ConvertToHold | SavePrice.

Definition rendered (P : props) (S : state) (b : button) : bool :=
  match b with
  | BuyMore | Exit => opt_eqb (userRole P) "broker" || isOpen P
  | ConvertToHold =>
      (opt_eqb (userRole P) "broker" || isOpen P)
      && opt_eqb (userRole P) "broker"
  | SavePrice => opt_eqb (userRole P) "broker" && isEditingPrice S
  end.

Definition disabled (S : state) (b : button) : bool := submitting S.

Definition onClick (P : props) (S : state) (b : button) : M unit :=
  match b with
  | BuyMore => handleAction P S "Adjust" "OPEN"
  | Exit => handleAction P S "Adjust" "CLOSED"
  | ConvertToHold => handleAction P S "Adjust" "HOLD"
  | SavePrice => handlePriceSave P S
  end.

(** A click reaches [onClick] only on a button that is shown and enabled. *)
Definition click (P : props) (S : state) (b : button) : M unit :=
  if rendered P S b && negb (disabled S b) then onClick P S b else ret tt.

(** The state setters, applied to the component state. *)
Definition apply (S : state) (e : event) : state :=
  match e with
  | setSubmitting b =>
      {| addLotInput := addLotInput S; slPrice := slPrice S;
         targetPrice := targetPrice S; submitting := b;
         feedback := feedback S; isEditingPrice := isEditingPrice S;
         editPriceInput := editPriceInput S |}
  | setFeedback f =>
      {| addLotInput := addLotInput S; slPrice := slPrice S;
         targetPrice := targetPrice S; submitting := submitting S;
         feedback := f; isEditingPrice := isEditingPrice S;
         editPriceInput := editPriceInput S |}
  | setIsEditingPrice b =>
      {| addLotInput := addLotInput S; slPrice := slPrice S;
         targetPrice := targetPrice S; submitting := submitting S;
         feedback := feedback S; isEditingPrice := b;
         editPriceInput := editPriceInput S |}
  | _ => S
  end.

Definition after (S : state) (t : list event) : state := fold_left apply t S.

End OpenOrderBottomWindow.


(** ** Throttled reconciliation loops *)

(** A tick, as the transport leaves it in [ticksRef.current]: a JSON object
    whose properties are read by name. *)
Definition tick : Type := gmap string field.

(** [o.k], [undefined] when the object lacks the property. *)
Definition prop (o : tick) (k : string) : field := default Undefined (o !! k).

(** [a === b] on two JSON numbers, [null] or [undefined]. *)
Definition strict_eqb (a b : field) : bool :=
  match a, b with
  | Undefined, Undefined => true
  | Null, Null => true
  | Val (Num x), Val (Num y) => Qeq_bool x y
  | _, _ => false
  end.

(** *** OpenOrder: RAF loop for live ticks *)

Module OpenOrder.

Definition THROTTLE_MS : Q := 200.

Inductive effect : Type :=
| setLiveTicks (newTicks : gmap string tick)
| requestAnimationFrame.

(** What one animation frame finds in the refs. *)
Record frame : Type := {
  timestamp : Q;
  ticksRef : option (gmap string tick);
  instrumentDataRef : option (list Order.t)
}.

(** [String(inst.instrument_token)] *)
Definition tickKey (inst : Order.t) : string :=
  default "undefined"%string (Order.instrument_token inst).

(** The body of [currentData.forEach], on the pair [(newTicks, hasUpdates)]. *)
Definition visit (ticksMap : gmap string tick)
    (acc : gmap string tick * bool) (inst : Order.t)
  : gmap string tick * bool :=
  match ticksMap !! tickKey inst with
  | Some tick => (<[tickKey inst := tick]> (fst acc), true)
  | None => acc
  end.

(** One call of [updateLoop]: the new [lastUpdate] and the effects. *)
Definition updateLoop (f : frame) (lastUpdate : Q) : Q * list effect :=
  if Qltb (timestamp f - lastUpdate) THROTTLE_MS then
    (lastUpdate, [requestAnimationFrame])
  else
    match ticksRef f, instrumentDataRef f with
    | Some ticksMap, Some (inst :: rest) =>
        let '(newTicks, hasUpdates) :=
          fold_left (visit ticksMap) (inst :: rest) (∅, false) in
        if hasUpdates
        then (timestamp f, [setLiveTicks newTicks; requestAnimationFrame])
        else (lastUpdate, [requestAnimationFrame])
    | _, _ => (lastUpdate, [requestAnimationFrame])
    end.

(** The loop over successive frames, [lastUpdate] starting at 0. *)
Fixpoint frames (fs : list frame) (lastUpdate : Q) : list effect :=
  match fs with
  | [] => []
  | f :: fs' =>
      let '(lastUpdate', effects) := updateLoop f lastUpdate in
      effects ++ frames fs' lastUpdate'
  end.

Definition published (es : list effect) : list (gmap string tick) :=
  flat_map (fun e => match e with setLiveTicks t => [t] | _ => [] end) es.

End OpenOrder.

(** *** useOptionChain: live ticks into the chain *)

Module useOptionChain.

Definition THROTTLE_MS : Q := 50.

Record leg : Type := {
  instrument_token : option string;
  ltp : field
}.

Record row : Type := {
  strike : Q;
  call : option leg;
  put : option leg
}.

Inductive leg_type : Type := call_ | put_.

Record position : Type := {
  index : nat;
  type_ : leg_type;
  position_strike : Q
}.

(** An entry of [pendingUpdates]. *)
Record updates : Type := {
  callLtp : field;
  putLtp : field
}.

Inductive effect : Type :=
| setChainData (updatedChain : list row)
| requestAnimationFrame.

(** [subscribeToOptionStrikes]: the token map of a chain, a [Map] kept as
    the list of its entries in insertion order; setting a key again
    replaces its value in place. *)
Fixpoint map_set (m : list (string * position)) (k : string) (v : position)
  : list (string * position) :=
  match m with
  | [] => [(k, v)]
  | (k', v') :: m' =>
      if String.eqb k' k then (k, v) :: m' else (k', v') :: map_set m' k v
  end.

Definition add_leg (i : nat) (r : row) (t : leg_type)
    (m : list (string * position)) : list (string * position) :=
  match (match t with call_ => call r | put_ => put r end) with
  | Some {| instrument_token := Some (String c s) |} =>
      map_set m (String c s)
        {| index := i; type_ := t; position_strike := strike r |}
  | _ => m
  end.

Fixpoint newTokenMap (chainArray : list row) (i : nat)
    (m : list (string * position)) : list (string * position) :=
  match chainArray with
  | [] => m
  | r :: rest => newTokenMap rest (Datatypes.S i) (add_leg i r put_ (add_leg i r call_ m))
  end.

(** [row.call?.ltp] / [row.put?.ltp] *)
Definition leg_ltp (r : row) (t : leg_type) : field :=
  match (match t with call_ => call r | put_ => put r end) with
  | Some l => ltp l
  | None => Undefined
  end.

(** The body of [tokenMapRef.current.forEach]. *)
Definition visit (ticks : gmap string tick) (currentChain : list row)
    (pendingUpdates : gmap nat updates) (entry : string * position)
  : gmap nat updates :=
  let '(token, position) := entry in
  let tick_ltp :=
    match ticks !! token with Some tick => prop tick "ltp" | None => Undefined end in
  if negb (strict_eqb tick_ltp Undefined) && gtb (Number tick_ltp) (Num 0) then
    match currentChain !! index position with
    | None => pendingUpdates
    | Some row =>
        let currentLtp := leg_ltp row (type_ position) in
        if negb (strict_eqb currentLtp tick_ltp) then
          let entry :=
            default {| callLtp := Undefined; putLtp := Undefined |}
                    (pendingUpdates !! index position) in
          <[index position :=
              match type_ position with
              | call_ => {| callLtp := tick_ltp; putLtp := putLtp entry |}
              | put_ => {| callLtp := callLtp entry; putLtp := tick_ltp |}
              end]> pendingUpdates
        else pendingUpdates
    end
  else pendingUpdates.

(** The new row written for an index of [pendingUpdates]. *)
Definition newRow (r : row) (u : updates) : row :=
  let call' :=
    match callLtp u, call r with
    | Undefined, c => c
    | v, Some l => Some {| instrument_token := instrument_token l; ltp := v |}
    | _, None => None
    end in
  let put' :=
    match putLtp u, put r with
    | Undefined, p => p
    | v, Some l => Some {| instrument_token := instrument_token l; ltp := v |}
    | _, None => None
    end in
  {| strike := strike r; call := call'; put := put' |}.

(** The clone of the chain with each pending index replaced; the indexes of
    [pendingUpdates] are distinct and within the chain. *)
Definition updatedChain (currentChain : list row)
    (pendingUpdates : gmap nat updates) : list row :=
  imap (fun i r =>
          match pendingUpdates !! i with
          | Some u => newRow r u
          | None => r
          end) currentChain.

Record frame : Type := {
  timestamp : Q;
  ticksRef : gmap string tick;
  tokenMapRef : list (string * position)
}.

Record refs : Type := {
  chainDataRef : option (list row);
  lastUpdate : Q
}.

(** One call of [updateLoop]. *)
Definition updateLoop (f : frame) (st : refs) : refs * list effect :=
  if Qltb (timestamp f - lastUpdate st) THROTTLE_MS then
    (st, [requestAnimationFrame])
  else
    match chainDataRef st with
    | Some (r :: rest) =>
        let currentChain := r :: rest in
        if (size (ticksRef f) =? 0)%nat then (st, [requestAnimationFrame])
        else if (length (tokenMapRef f) =? 0)%nat
        then (st, [requestAnimationFrame])
        else
          let pendingUpdates :=
            fold_left (visit (ticksRef f) currentChain) (tokenMapRef f) ∅ in
          if (0 <? size pendingUpdates)%nat then
            let updated := updatedChain currentChain pendingUpdates in
            ({| chainDataRef := Some updated; lastUpdate := timestamp f |},
             [setChainData updated; requestAnimationFrame])
          else (st, [requestAnimationFrame])
    | _ => (st, [requestAnimationFrame])
    end.

Fixpoint frames (fs : list frame) (st : refs) : list effect :=
  match fs with
  | [] => []
  | f :: fs' =>
      let '(st', effects) := updateLoop f st in
      effects ++ frames fs' st'
  end.

Definition published (es : list effect) : list (list row) :=
  flat_map (fun e => match e with setChainData c => [c] | _ => [] end) es.

End useOptionChain.

(** ** Outcomes of the handlers, as functions of their inputs *)

Module Run.
Import OpenOrderBottomWindow.
Local Open Scope handler_scope.

(** The validation error that [validateLevels] stops on, if any. *)
Definition levelError (P : props) (S : state) : option message :=
  let cp := currentPrice P in
  if Qgtb cp 0 then
    if String.eqb (orderSide P) "BUY" then
      if Qgtb (sl S) 0 && Qgeb (sl S) cp then Some (InvalidSL_BUY cp)
      else if Qgtb (tgt S) 0 && Qle_bool (tgt S) cp
           then Some (InvalidTarget_BUY cp) else None
    else
      if Qgtb (sl S) 0 && Qle_bool (sl S) cp then Some (InvalidSL_SELL cp)
      else if Qgtb (tgt S) 0 && Qgeb (tgt S) cp
           then Some (InvalidTarget_SELL cp) else None
  else None.

(** The error that [fundCheck] stops on, if any. *)
Definition fundError (P : props) (S : state) (E : env) : option message :=
  if gtb (parsedAddLots S) (Num 0) then
    match funds E with
    | funds_ok d =>
        if gtb (requiredAmount P S) (Num (availableLimit P d))
        then Some (InsufficientFunds (toFixed 2 (requiredAmount P S))
                                     (toFixed 2 (Num (availableLimit P d))))
        else None
    | _ => Some FundCheckFailed
    end
  else None.

Definition fundsCall (S : state) : list event :=
  if gtb (parsedAddLots S) (Num 0) then [call_getFundsData] else [].

Definition alert (m : message) : list event :=
  [setFeedback (Some {| type := error; message_ := m |}); setSubmitting false].

(** What follows the order-mutation request, up to the [catch] block. *)
Definition aftermath (P : props) (S : state) (clickedAction : string)
    (E : env) : list event :=
  match server E with
  | fetch_throws e =>
      [console_error; setFeedback (Some {| type := error; message_ := Failed e |})]
  | fetch_ok res =>
      if rejected res then
        [console_error;
         setFeedback (Some {| type := error; message_ := Failed (failure res) |})]
      else
        [setFeedback (Some {| type := success;
                              message_ := successMsg S clickedAction |});
         dispatch_orders_changed (updated res);
         schedule_onClose]
  end.


(** The run of [handleAction] that stops on the local error [m] before any
    outbound call. *)
Definition rejection (m : message) : list event * completion unit :=
  ([setSubmitting true; setFeedback None] ++ alert m ++ [setSubmitting false],
   Returned).

(** The run of [handleAction] that stops on the error [m] of the fund
    check, after the call to the funds service. *)
Definition fund_rejection (m : message) : list event * completion unit :=
  ([setSubmitting true; setFeedback None; call_getFundsData]
     ++ alert m ++ [setSubmitting false],
   Returned).

(** The messages of the stop-loss / target validation. *)
Definition level_error (m : message) : bool :=
  match m with
  | InvalidSL_BUY _ | InvalidTarget_BUY _
  | InvalidSL_SELL _ | InvalidTarget_SELL _ => true
  | _ => false
  end.

(** The Adjust->OPEN flow stops on a stop-loss / target validation error. *)
Definition levels_rejected (P : props) (S : state) (E : env) : Prop :=
  exists m, level_error m = true
            /\ handleAction P S "Adjust" "OPEN" E = rejection m.

(** The errors raised before submission: validation and funds. *)
Definition local_error (m : message) : bool :=
  match m with
  | InvalidSL_BUY _ | InvalidTarget_BUY _
  | InvalidSL_SELL _ | InvalidTarget_SELL _
  | InsufficientFunds _ _ | FundCheckFailed | InvalidPrice => true
  | _ => false
  end.

Definition shows (m : message) : event :=
  setFeedback (Some {| type := error; message_ := m |}).

(** The payload [pl] goes out in the Adjust->[targetStatus] flow. *)
Definition submits (P : props) (S : state) (E : env) (targetStatus : string)
    (pl : Payload.t) : Prop :=
  In pl (payloads (fst (handleAction P S "Adjust" targetStatus E))).

End Run.

(** ** What the order-list loop publishes on a due frame *)

Module Due.
Import OpenOrder.

(** On a due frame the order-list loop publishes a function of the refs
    alone: neither [lastUpdate] nor anything published before enters. *)
Definition publication (f : frame) : list (gmap string tick) :=
  match ticksRef f, instrumentDataRef f with
  | Some ticksMap, Some (inst :: rest) =>
      let r := fold_left (visit ticksMap) (inst :: rest) (∅, false) in
      if snd r then [fst r] else []
  | _, _ => []
  end.

End Due.

(** ** When a token of the option chain has a change to publish *)

Module Change.
Import useOptionChain.

Definition tick_ltp (ticks : gmap string tick) (token : string) : field :=
  match ticks !! token with
  | Some tick => prop tick "ltp"
  | None => Undefined
  end.

(** The tick of the token carries a positive [ltp] that differs from the
    [ltp] of the leg the token stands for. *)
Definition changed (ticks : gmap string tick) (currentChain : list row)
    (entry : string * position) : Prop :=
  strict_eqb (tick_ltp ticks (fst entry)) Undefined = false
  /\ gtb (Number (tick_ltp ticks (fst entry))) (Num 0) = true
  /\ exists r,
      currentChain !! index (snd entry) = Some r
      /\ strict_eqb (leg_ltp r (type_ (snd entry)))
                    (tick_ltp ticks (fst entry)) = false.

(** The pending [ltp] of one leg in an entry of [pendingUpdates]. *)
Definition pending_ltp (t : leg_type) (u : updates) : field :=
  match t with call_ => callLtp u | put_ => putLtp u end.

(** Every token stands for a leg that its row has. *)
Definition legs_present (tokenMap : list (string * position))
    (currentChain : list row) : Prop :=
  forall entry r,
    In entry tokenMap ->
    currentChain !! index (snd entry) = Some r ->
    match type_ (snd entry) with call_ => call r | put_ => put r end <> None.

(** The token of the entry is the [instrument_token] of the leg that the
    entry points at. *)
Definition stands_for (currentChain : list row) (entry : string * position)
  : Prop :=
  exists r l,
    currentChain !! index (snd entry) = Some r
    /\ match type_ (snd entry) with call_ => call r | put_ => put r end
       = Some l
    /\ instrument_token l = Some (fst entry).

Definition set_ltp (t : leg_type) (v : field) (u : updates) : updates :=
  match t with
  | call_ => {| callLtp := v; putLtp := putLtp u |}
  | put_ => {| callLtp := callLtp u; putLtp := v |}
  end.

(** No two tokens stand for the same leg of the same row. *)
Definition one_token_per_leg (tokenMap : list (string * position)) : Prop :=
  forall e1 e2,
    In e1 tokenMap -> In e2 tokenMap ->
    index (snd e1) = index (snd e2) -> type_ (snd e1) = type_ (snd e2) ->
    fst e1 = fst e2.

End Change.

(** ** Sample inputs *)

Module Sample.
Import OpenOrderBottomWindow.

(** A position of 3 lots of 25 bought at 100. *)
Definition order (side product : string) (price : Q) : Order.t :=
  {| Order._id := Some "6650f1a2"%string;
     Order.symbol := Some "NIFTY"%string;
     Order.side := Some side;
     Order.product := Some product;
     Order.quantity := Val (Num 75);
     Order.price := Val (Num price);
     Order.jobbin_price := Val (Num 0.5);
     Order.instrument_token := Some "256265"%string;
     Order.lots := Val (Num 3);
     Order.lot_size := Val (Num 25);
     Order.stop_loss := Val (Num 0);
     Order.target := Val (Num 0);
     Order.margin_blocked := Val (Num 1500);
     Order.order_status := Some "OPEN"%string;
     Order.meta_lot_size := Undefined;
     Order.meta_tradingSymbol := Some "NIFTY24JUNFUT"%string |}.

Definition window (o : Order.t) (ltp : field) : props :=
  {| selectedOrder := o;
     sheetData_ltp := ltp;
     apiBase := "https://api.example/";
     token := Some "jwt"%string;
     brokerId := Some "B1"%string;
     customerId := Some "C1"%string;
     userRole := Some "broker"%string;
     isOpen := true |}.

Definition form (addLots : string) (stopLoss target : input) : state :=
  {| addLotInput := addLots;
     slPrice := stopLoss;
     targetPrice := target;
     submitting := false;
     feedback := None;
     isEditingPrice := false;
     editPriceInput := Blank |}.

(** The same position, with no [lots] recorded on the order. *)
Definition order_without_lots : Order.t :=
  {| Order._id := Some "6650f1a2"%string;
     Order.symbol := Some "NIFTY"%string;
     Order.side := Some "BUY"%string;
     Order.product := Some "MIS"%string;
     Order.quantity := Val (Num 75);
     Order.price := Val (Num 100);
     Order.jobbin_price := Val (Num 0.5);
     Order.instrument_token := Some "256265"%string;
     Order.lots := Undefined;
     Order.lot_size := Val (Num 25);
     Order.stop_loss := Val (Num 0);
     Order.target := Val (Num 0);
     Order.margin_blocked := Val (Num 1500);
     Order.order_status := Some "OPEN"%string;
     Order.meta_lot_size := Undefined;
     Order.meta_tradingSymbol := Some "NIFTY24JUNFUT"%string |}.

Definition negative_target : state := form "" Blank (Entered (Num (-5))).

Definition pending (S : state) : state := apply S (setSubmitting true).

Definition wallet (available used overnight_available : Q) : fundsData :=
  {| intraday := Some {| available_limit := Val (Num available);
                         used_limit := Val (Num used) |};
     overnight := Some {| available_limit := Val (Num overnight_available);
                          used_limit := Val (Num 0) |} |}.

Definition accepted : response :=
  {| ok := true; status := 200;
     json := Some {| body_success := Some true; body_message := None;
                     body_order := None |} |}.

Definition world (d : fundsData) : env :=
  {| funds := funds_ok d;
     server := fetch_ok accepted;
     now := "2024-06-03T09:30:00.000Z" |}.

Definition buy_at_100 : props := window (order "BUY" "MIS" 100) (Val (Num 100)).
Definition sell_at_100 : props := window (order "SELL" "MIS" 100) (Val (Num 100)).
Definition buy_at_1200 : props :=
  window (order "BUY" "MIS" 1200) (Val (Num 1200)).
Definition buy_above_1200 : props :=
  window (order "BUY" "MIS" 1200) (Val (Num 1200.0002)).
Definition buy_at_120 : props := window (order "BUY" "MIS" 100) (Val (Num 120)).
Definition no_lots_at_120 : props := window order_without_lots (Val (Num 120)).
Definition edited_price : props :=
  window (order "BUY" "MIS" 100.126) (Val (Num 120)).
Definition overnight_at_120 : props :=
  window (order "BUY" "NRML" 100) (Val (Num 120)).
Definition rich : env := world (wallet 100000 40000 50000).

(** One tick for the instrument of [order], and the store holding it. *)
Definition nifty_tick : tick :=
  <["ltp"%string := Val (Num 101.5)]> {["volume"%string := Val (Num 1200)]}.

Definition store : gmap string tick := {["256265"%string := nifty_tick]}.

(** An order-list frame at time [t] that finds [store] and one open order. *)
Definition list_frame (t : Q) : OpenOrder.frame :=
  {| OpenOrder.timestamp := t;
     OpenOrder.ticksRef := Some store;
     OpenOrder.instrumentDataRef := Some [order "BUY" "MIS" 100] |}.

(** A one-row chain whose call leg is the instrument of [store]. *)
Definition chain : list useOptionChain.row :=
  [{| useOptionChain.strike := 22000;
      useOptionChain.call :=
        Some {| useOptionChain.instrument_token := Some "256265"%string;
                useOptionChain.ltp := Val (Num 100) |};
      useOptionChain.put :=
        Some {| useOptionChain.instrument_token := Some "256266"%string;
                useOptionChain.ltp := Val (Num 80) |} |}].

(** [chain] once the tick of [store] is written into its call leg. *)
Definition chain_after : list useOptionChain.row :=
  [{| useOptionChain.strike := 22000;
      useOptionChain.call :=
        Some {| useOptionChain.instrument_token := Some "256265"%string;
                useOptionChain.ltp := Val (Num 101.5) |};
      useOptionChain.put :=
        Some {| useOptionChain.instrument_token := Some "256266"%string;
                useOptionChain.ltp := Val (Num 80) |} |}].

Definition chain_frame (t : Q) : useOptionChain.frame :=
  {| useOptionChain.timestamp := t;
     useOptionChain.ticksRef := store;
     useOptionChain.tokenMapRef := useOptionChain.newTokenMap chain 0 [] |}.

Definition chain_refs : useOptionChain.refs :=
  {| useOptionChain.chainDataRef := Some chain;
     useOptionChain.lastUpdate := 0 |}.

End Sample.


(** ** Publication times of the throttled loops *)

Module Throttle.

(** Each time is at least [interval] after the one before it, the first
    one after [last]. *)
Fixpoint spaced (interval last : Q) (times : list Q) : Prop :=
  match times with
  | [] => True
  | t :: rest => ~ t - last < interval /\ spaced interval t rest
  end.

(** The timestamps of the frames on which the order-list loop calls
    [setLiveTicks]. *)
Fixpoint order_list_times (fs : list OpenOrder.frame) (lastUpdate : Q)
  : list Q :=
  match fs with
  | [] => []
  | f :: fs' =>
      let '(lastUpdate', effects) := OpenOrder.updateLoop f lastUpdate in
      match OpenOrder.published effects with
      | [] => order_list_times fs' lastUpdate'
      | _ => OpenOrder.timestamp f :: order_list_times fs' lastUpdate'
      end
  end.

(** The timestamps of the frames on which the option-chain loop calls
    [setChainData]. *)
Fixpoint option_chain_times (fs : list useOptionChain.frame)
    (st : useOptionChain.refs) : list Q :=
  match fs with
  | [] => []
  | f :: fs' =>
      let '(st', effects) := useOptionChain.updateLoop f st in
      match useOptionChain.published effects with
      | [] => option_chain_times fs' st'
      | _ => useOptionChain.timestamp f :: option_chain_times fs' st'
      end
  end.

End Throttle.

(** ** Legs of an option-chain row *)

Module Legs.
Import useOptionChain.

Definition leg_of (t : leg_type) (r : row) : option leg :=
  match t with call_ => call r | put_ => put r end.

(** The token of a leg, when the row has the leg. *)
Definition leg_token (t : leg_type) (r : row) : option (option string) :=
  option_map instrument_token (leg_of t r).

End Legs.

(** ** useOptionChain: subscriptions and fetch *)

Module OptionChainHook.
Import useOptionChain.

(** The refs of the hook besides [chainDataRef]. *)
Record hook_refs : Type := {
  subscribedTokensRef : list string;
  tokenMapRef_ : list (string * position);
  lastFetchParamsRef : option string
}.

Inductive transport_call : Type :=
| subscribe (items : list string) (mode : string)
| unsubscribe (items : list string) (mode : string).

(** The token of a leg when [row.call?.instrument_token] is truthy. *)
Definition token_of (l : option leg) : list string :=
  match l with
  | Some {| instrument_token := Some (String c s) |} => [String c s]
  | _ => []
  end.

(** The [subscriptionList] built by [chainArray.forEach]. *)
Definition subscriptionList (chainArray : list row) : list string :=
  flat_map (fun r => token_of (call r) ++ token_of (put r)) chainArray.

Definition subscribeToOptionStrikes (isConnected : bool)
    (chainArray : option (list row)) (R : hook_refs)
    : hook_refs * list transport_call :=
  match chainArray with
  | Some (r :: rest) =>
      if isConnected then
        match subscriptionList (r :: rest) with
        | [] => (R, [])
        | items =>
            ({| subscribedTokensRef := items;
                tokenMapRef_ := newTokenMap (r :: rest) 0 [];
                lastFetchParamsRef := lastFetchParamsRef R |},
             [subscribe items "ticker"])
        end
      else (R, [])
  | _ => (R, [])
  end.

Definition unsubscribeFromOptionStrikes (R : hook_refs)
    : hook_refs * list transport_call :=
  match subscribedTokensRef R with
  | [] => (R, [])
  | items =>
      ({| subscribedTokensRef := [];
          tokenMapRef_ := [];
          lastFetchParamsRef := None |},
       [unsubscribe items "ticker"])
  end.

(** *** fetchOptionChain *)

Record params : Type := {
  name : string;
  segment : string;                     (* '' when not given *)
  expiry : string                       (* '' when not given *)
}.

(** [`${name}|${segment || 'auto'}|${expiry || 'nearest'}`] *)
Definition paramsKey (q : params) : string :=
  (name q ++ "|" ++ str_or (segment q) "auto"
          ++ "|" ++ str_or (expiry q) "nearest")%string.

Record chain_data : Type := {
  data_chain : option (list row);
  spotInstrumentInfo : option string    (* the spot token, when there is one *)
}.

Inductive chain_reply : Type :=
| network_error (message : string)
| not_ok (details err : option string)   (* [errData], [{}] if unreadable *)
| ok_without_data (message : string)        (* the body is unreadable or has
                                               no [data]: reading it throws *)
| ok_body (data : chain_data).              (* [result.data] *)

Inductive hook_event : Type :=
| setLoading (b : bool)
| setError (e : option string)
| fetch_chain (q : params) (authorization : option string)
| setChainData_ (chain : option (list row))
| setSpotInstrumentInfo (info : option string)
| setSpotPrice_null.

(** [errData.details || errData.error || 'Failed to fetch option chain'] *)
Definition error_of (details err : option string) : string :=
  match details, err with
  | Some (String c s), _ => String c s
  | _, Some (String c s) => String c s
  | _, _ => "Failed to fetch option chain"
  end.

(** One call of [fetchOptionChain]: the value of [lastFetchParamsRef]
    after it and the effects, given the reply of the server. *)
Definition fetchOptionChain (q : params) (token : option string)
    (reply : chain_reply) (lastFetchParams : option string)
  : option string * list hook_event :=
  match name q with
  | EmptyString => (lastFetchParams, [])
  | _ =>
      if match lastFetchParams with
         | Some k => String.eqb k (paramsKey q)
         | None => false
         end
      then (lastFetchParams, [])
      else
        let start := [setLoading true; setError None; fetch_chain q token] in
        let failed (message : string) :=
          (lastFetchParams,
           start ++ [setError (Some message); setChainData_ None;
                     setLoading false]) in
        match reply with
        | network_error message => failed message
        | not_ok details err => failed (error_of details err)
        | ok_without_data message => failed message
        | ok_body d =>
            (Some (paramsKey q),
             start ++ [setChainData_ (data_chain d);
                       setSpotInstrumentInfo (spotInstrumentInfo d);
                       setSpotPrice_null;
                       setLoading false])
        end
  end.

End OptionChainHook.

(** ** OpenOrder: the list of open orders *)

Module OrderList.

(** [a ?? b] *)
Definition coalesce (a b : field) : field :=
  match a with Val _ => a | _ => b end.

(** An element of [instrumentData]: the order, and the two further
    properties that the list reads from it. *)
Record instrument : Type := {
  order : Order.t;
  ltp : field;
  meta_from : option string             (* meta?.from *)
}.

(** An element of [allData]: [{ ...inst, snapshot: combined }]. *)
Record row : Type := {
  inst : instrument;
  snapshot : tick
}.

Definition tickKey (i : instrument) : string := OpenOrder.tickKey (order i).

(** 4.2) MERGE SNAPSHOT + LIVE TICKS: [{ ...snapshot, ...tick }] per
    instrument, the snapshot from [orders] and the tick from [liveTicks]. *)
Definition merge (instrumentData : list instrument)
    (orders liveTicks : gmap string tick) : list row :=
  map (fun i =>
         {| inst := i;
            snapshot := default ∅ (liveTicks !! tickKey i)
                        ∪ default ∅ (orders !! tickKey i) |})
      instrumentData.

(** 5) selectedOrderMarketData *)
Definition opt_eq (a b : option string) : bool :=
  match a, b with
  | Some x, Some y => String.eqb x y
  | None, None => true
  | _, _ => false
  end.

Definition non_empty (a : option string) : bool :=
  match a with Some (String _ _) => true | _ => false end.

Definition same_order (selected : Order.t) (item : row) : bool :=
  opt_eq (Order._id (order (inst item))) (Order._id selected)
  || (non_empty (Order.instrument_token (order (inst item)))
      && opt_eq (Order.instrument_token (order (inst item)))
                (Order.instrument_token selected)).

Definition selectedOrderMarketData (selectedOrderData : option Order.t)
    (allData : list row) : tick :=
  match selectedOrderData with
  | None => ∅
  | Some selected =>
      match find (same_order selected) allData with
      | Some foundItem => snapshot foundItem
      | None => ∅
      end
  end.

(** The LTP shown on a row of the list. *)
Definition shown_ltp (data : row) : number :=
  let isOptionChainOrder :=
    OpenOrderBottomWindow.opt_eqb (meta_from (inst data)) "ui_option_chain" in
  let snapshotLtp :=
    Number (coalesce (prop (snapshot data) "ltp") (Val (Num 0))) in
  if isOptionChainOrder
     && (OpenOrderBottomWindow.is_const snapshotLtp 0
         || negb (truthy (Number (prop (snapshot data) "ltp"))))
  then Number_or (Order.price (order (inst data))) 0
  else or_else snapshotLtp
         (Number (coalesce (ltp (inst data))
                    (coalesce (Order.price (order (inst data)))
                       (Val (Num 0))))).

(** *** 2) EXIT ALL HANDLER *)

Definition currentLtp (r : row) : number :=
  Number (coalesce (prop (snapshot r) "ltp")
            (coalesce (ltp (inst r)) (Val (Num 0)))).

(** The body of [displayList.forEach] on [ltpData]. *)
Definition record_ltp (ltpData : gmap string number) (r : row)
  : gmap string number :=
  match Order._id (order (inst r)) with
  | Some (String c s) => <[String c s := currentLtp r]> ltpData
  | _ => ltpData
  end.

Definition ltpData (displayList : list row) : gmap string number :=
  fold_left record_ltp displayList ∅.

Inductive exit_reply : Type :=
| exit_throws                           (* [fetch] or [res.json()] threw *)
| exit_response (res_ok data_success : bool) (message : option string).

Inductive exit_event : Type :=
| setIsExiting (b : bool)
| put_exitAllOpenOrder (closed_ltp_map : gmap string number)
    (closed_at : string)
| call_fetchInstrumentData
| setShowExitModal (b : bool)
| alert_ (message : string).

Definition handleExitAll (displayList : list row) (closed_at : string)
    (reply : exit_reply) : list exit_event :=
  [setIsExiting true; put_exitAllOpenOrder (ltpData displayList) closed_at]
    ++ match reply with
       | exit_throws => [alert_ "Network error while exiting orders."]
       | exit_response res_ok data_success message =>
           if res_ok && data_success
           then [call_fetchInstrumentData; setShowExitModal false]
           else [alert_ (match message with
                         | Some (String c s) => String c s
                         | _ => "Failed to exit orders."
                         end)]
       end
    ++ [setIsExiting false].

(** *** 1) FETCH ORDERS *)

Inductive orders_body : Type :=
| body_unreadable (message : string)    (* [res.json()] threw *)
| body_with_ordersInstrument (l : list instrument)
| body_array (l : list instrument)
| body_other.

Inductive orders_reply : Type :=
| orders_throws (message : string)
| orders_response (res_ok : bool) (data : orders_body).

Inductive fetch_event : Type :=
| setLoader (b : bool)
| get_getOrderInstrument
| setInstrumentData (l : list instrument)
| setError (e : option string).

Definition fetchInstrumentData (reply : orders_reply) : list fetch_event :=
  [setLoader true; get_getOrderInstrument]
    ++ match reply with
       | orders_throws message =>
           [setInstrumentData []; setError (Some message)]
       | orders_response false _ =>
           [setInstrumentData []; setError (Some "Failed to load instruments")]
       | orders_response true (body_unreadable message) =>
           [setInstrumentData []; setError (Some message)]
       | orders_response true (body_with_ordersInstrument l) =>
           [setInstrumentData l; setError None]
       | orders_response true (body_array l) =>
           [setInstrumentData l; setError None]
       | orders_response true body_other =>
           [setInstrumentData []; setError None]
       end
    ++ [setLoader false].

(** *** 3) WEBSOCKET SUBSCRIPTION *)

(** The items subscribed: the tokens of the instruments that have one. *)
Definition subscribed_items (instrumentData : list instrument) : list string :=
  flat_map (fun i =>
              match Order.instrument_token (order i) with
              | Some (String c s) => [String c s]
              | _ => []
              end) instrumentData.

(** The items unsubscribed by the cleanup: [String(item.instrument_token)]
    of every instrument, the empty string left out. *)
Definition unsubscribed_items (instrumentData : list instrument)
  : list string :=
  flat_map (fun i =>
              match tickKey i with
              | EmptyString => []
              | k => [k]
              end) instrumentData.

(** An element of a snapshot reply that is an array. *)
Record snapshot_item : Type := {
  securityId : option string;           (* each id in the form String() gives *)
  security_Id : option string;
  id : option string;
  item_segment : option string;
  quote : tick
}.

(** [String(it.securityId ?? it.security_Id ?? it.id ?? "")] *)
Definition item_id (it : snapshot_item) : string :=
  match securityId it, security_Id it, id it with
  | Some s, _, _ => s
  | None, Some s, _ => s
  | None, None, Some s => s
  | None, None, None => EmptyString
  end.

(** The body of [snapshotData.forEach]. *)
Definition index_item (snapshotMap : gmap string tick) (it : snapshot_item)
  : gmap string tick :=
  match item_id it with
  | EmptyString => snapshotMap
  | k =>
      let m := <[k := quote it]> snapshotMap in
      match item_segment it with
      | Some (String c s) => <[(String c s ++ "|" ++ k)%string := quote it]> m
      | _ => m
      end
  end.

Inductive snapshot_reply : Type :=
| snapshot_throws
| snapshot_not_ok
| snapshot_object (m : gmap string tick)
| snapshot_array (l : list snapshot_item)
| snapshot_other.

Inductive subscription_event : Type :=
| setOrders (m : gmap string tick)
| ws_subscribe (items : list string) (mode : string)
| console_warn
| post_snapshot (items : list string)
| ws_unsubscribe (items : list string) (mode : string).

(** The effect, for one value of [instrumentData]. *)
Definition subscription_effect (instrumentData : list instrument)
    (subscribe_ok : bool) (reply : snapshot_reply)
  : list subscription_event :=
  match instrumentData with
  | [] => [setOrders ∅]
  | _ =>
      match subscribed_items instrumentData with
      | [] => [setOrders ∅]
      | items =>
          [ws_subscribe items "quote"]
            ++ (if subscribe_ok then [] else [console_warn])
            ++ [post_snapshot items]
            ++ match reply with
               | snapshot_throws | snapshot_not_ok | snapshot_other =>
                   [setOrders ∅]
               | snapshot_object m => [setOrders m]
               | snapshot_array l => [setOrders (fold_left index_item l ∅)]
               end
      end
  end.

(** The cleanup the effect returns; none for an empty [instrumentData]. *)
Definition subscription_cleanup (instrumentData : list instrument)
  : list subscription_event :=
  match instrumentData with
  | [] => []
  | _ =>
      match unsubscribed_items instrumentData with
      | [] => []
      | items => [ws_unsubscribe items "quote"]
      end
  end.

End OrderList.

(** ** useOptionChain: the effects around the fetch *)

Module OptionChainEffects.
Import useOptionChain OptionChainHook.

(** What [fetchOptionChain] resolves to: [result.data] after a fetch that
    went out and succeeded, [undefined] otherwise. *)
Definition fetchOptionChain_result (q : params) (reply : chain_reply)
    (lastFetchParams : option string) : option chain_data :=
  match name q with
  | EmptyString => None
  | _ =>
      if match lastFetchParams with
         | Some k => String.eqb k (paramsKey q)
         | None => false
         end
      then None
      else match reply with
           | ok_body d => Some d
           | _ => None
           end
  end.

Inductive step : Type :=
| state_change (e : hook_event)
| transport (c : transport_call).

(** "Initial fetch when params change": the body of the effect together
    with the continuation of [fetchOptionChain()].  The request for the
    expiries, which the effect starts alongside and which touches no ref
    and only the [expiries] state, is left out. *)
Definition initial_fetch (q : params) (token : option string)
    (isConnected : bool) (reply : chain_reply) (R : hook_refs)
  : hook_refs * list step :=
  match name q with
  | EmptyString => (R, [])
  | _ =>
      let '(R1, released) := unsubscribeFromOptionStrikes R in
      let '(key, events) :=
        fetchOptionChain q token reply (lastFetchParamsRef R1) in
      let R2 := {| subscribedTokensRef := subscribedTokensRef R1;
                   tokenMapRef_ := tokenMapRef_ R1;
                   lastFetchParamsRef := key |} in
      let before := map transport released ++ map state_change events in
      match fetchOptionChain_result q reply (lastFetchParamsRef R1) with
      | Some {| data_chain := Some chain; spotInstrumentInfo := spot |} =>
          if isConnected then
            let '(R3, subscribed) :=
              subscribeToOptionStrikes isConnected (Some chain) R2 in
            (R3,
             before ++ map transport subscribed
               ++ match spot with
                  | Some (String c s) =>
                      [transport (subscribe [String c s] "ticker")]
                  | _ => []
                  end)
          else (R2, before)
      | _ => (R2, before)
      end
  end.

(** "Re-subscribe when socket reconnects" *)
Definition resubscribe (isConnected : bool) (chainData : option (list row))
    (R : hook_refs) : hook_refs * list transport_call :=
  match chainData, subscribedTokensRef R with
  | Some chain, [] =>
      if isConnected then subscribeToOptionStrikes isConnected chainData R
      else (R, [])
  | _, _ => (R, [])
  end.

(** *** Spot price from the tick store *)

Inductive spot_effect : Type :=
| setSpotPrice (ltp : field)
| requestAnimationFrame_.

(** One call of [spotUpdateLoop], for a [spotInstrumentInfo] whose token
    reads [token] as a string: the new [lastUpdate] and the effects. *)
Definition spotUpdateLoop (timestamp : Q) (ticks : gmap string tick)
    (token : string) (spotPrice : field) (lastUpdate : Q)
  : Q * list spot_effect :=
  if Qltb (timestamp - lastUpdate) THROTTLE_MS then
    (lastUpdate, [requestAnimationFrame_])
  else if (size ticks =? 0)%nat then (lastUpdate, [requestAnimationFrame_])
  else
    let spot_ltp :=
      match ticks !! token with
      | Some spotTick => prop spotTick "ltp"
      | None => Undefined
      end in
    if negb (strict_eqb spot_ltp Undefined) && gtb (Number spot_ltp) (Num 0)
    then
      if negb (strict_eqb spotPrice spot_ltp)
      then (timestamp, [setSpotPrice spot_ltp; requestAnimationFrame_])
      else (lastUpdate, [requestAnimationFrame_])
    else (lastUpdate, [requestAnimationFrame_]).

End OptionChainEffects.

(** ** Backend: the Kite quote service *)

Module KiteQuote.

Definition BASE_URL : string := "https://api.kite.trade".

(** The document [KiteCredential.findOne] finds. *)
Record credential : Type := {
  api_key : option string;
  access_token : option string
}.

Inductive db_reply : Type :=
| db_throws (message : string)
| db_found (c : option credential).

(** The [Error] a function of this service throws. *)
Inductive kite_error : Type :=
| NoCredentials     (* 'No active Kite credentials found. Please login first.' *)
| TokenExpired      (* 'Access token expired. Please login again.' *)
| ApiError (api : string) (http_status : Z)
                    (* `Kite ${api} API error: ${response.status}` *)
| Failure (message : string).
                    (* [data.message], its default, or an error of a callee *)

Inductive text_result : Type :=
| text_is (errorText : string)
| text_throws (message : string).

Record kite_body : Type := {
  status : option string;
  message : option string;
  data : option (gmap string tick)
}.

Inductive http_reply : Type :=
| fetch_throws (message : string)
| not_ok (http_status : Z) (text : text_result)
| ok_unreadable (message : string)      (* [response.json()] threw *)
| ok_json (b : kite_body).

Inductive io : Type :=
| findOne_active
| http_get (url authorization : string).

Definition getKiteCredentials (db : db_reply)
  : kite_error + string * string :=
  match db with
  | db_throws message => inl (Failure message)
  | db_found (Some {| api_key := Some (String a k);
                      access_token := Some (String b t) |}) =>
      inr (String a k, String b t)
  | db_found _ => inl NoCredentials
  end.

(** [instrumentTokens.map(t => `i=${t}`).join('&')] *)
Definition tokenParams (instrumentTokens : list string) : string :=
  String.concat "&" (map (fun t => ("i=" ++ t)%string) instrumentTokens).

Definition authorization (api_key access_token : string) : string :=
  ("token " ++ api_key ++ ":" ++ access_token)%string.

Definition getKiteQuote (instrumentTokens : option (list string))
    (db : db_reply) (reply : http_reply)
  : list io * (kite_error + gmap string tick) :=
  match instrumentTokens with
  | None | Some [] => ([], inr ∅)
  | Some tokens =>
      match getKiteCredentials db with
      | inl e => ([findOne_active], inl e)
      | inr (api_key, access_token) =>
          let url := (BASE_URL ++ "/quote?" ++ tokenParams tokens)%string in
          ([findOne_active; http_get url (authorization api_key access_token)],
           match reply with
           | fetch_throws message => inl (Failure message)
           | not_ok _ (text_throws message) => inl (Failure message)
           | not_ok http_status (text_is _) =>
               if (http_status =? 403)%Z then inl TokenExpired
               else inl (ApiError "Quote" http_status)
           | ok_unreadable message => inl (Failure message)
           | ok_json b =>
               if negb (OpenOrderBottomWindow.opt_eqb (status b) "success")
               then inl (Failure (match message b with
                                  | Some (String c s) => String c s
                                  | _ => "Failed to fetch quotes"
                                  end))
               else inr (default ∅ (data b))
           end)
      end
  end.

Definition getKiteLTP (instrumentTokens : option (list string))
    (db : db_reply) (reply : http_reply)
  : list io * (kite_error + gmap string tick) :=
  match instrumentTokens with
  | None | Some [] => ([], inr ∅)
  | Some tokens =>
      match getKiteCredentials db with
      | inl e => ([findOne_active], inl e)
      | inr (api_key, access_token) =>
          let url := (BASE_URL ++ "/quote/ltp?" ++ tokenParams tokens)%string in
          ([findOne_active; http_get url (authorization api_key access_token)],
           match reply with
           | fetch_throws message => inl (Failure message)
           | not_ok _ (text_throws message) => inl (Failure message)
           | not_ok http_status (text_is _) => inl (ApiError "LTP" http_status)
           | ok_unreadable message => inl (Failure message)
           | ok_json b =>
               if negb (OpenOrderBottomWindow.opt_eqb (status b) "success")
               then inl (Failure (match message b with
                                  | Some (String c s) => String c s
                                  | _ => "Failed to fetch LTP"
                                  end))
               else inr (default ∅ (data b))
           end)
      end
  end.

Definition getKiteOHLC (instrumentTokens : option (list string))
    (db : db_reply) (reply : http_reply)
  : list io * (kite_error + gmap string tick) :=
  match instrumentTokens with
  | None | Some [] => ([], inr ∅)
  | Some tokens =>
      match getKiteCredentials db with
      | inl e => ([findOne_active], inl e)
      | inr (api_key, access_token) =>
          let url := (BASE_URL ++ "/quote/ohlc?" ++ tokenParams tokens)%string in
          ([findOne_active; http_get url (authorization api_key access_token)],
           match reply with
           | fetch_throws message => inl (Failure message)
           | not_ok _ (text_throws message) => inl (Failure message)
           | not_ok http_status (text_is _) => inl (ApiError "OHLC" http_status)
           | ok_unreadable message => inl (Failure message)
           | ok_json b =>
               if negb (OpenOrderBottomWindow.opt_eqb (status b) "success")
               then inl (Failure (match message b with
                                  | Some (String c s) => String c s
                                  | _ => "Failed to fetch OHLC"
                                  end))
               else inr (default ∅ (data b))
           end)
      end
  end.

End KiteQuote.

(** ** Backend: the option-chain controller *)

Module OptionChainController.

(** The result of a helper: it returns, or throws an error with a
    message. *)
Inductive outcome (A : Type) : Type :=
| throws (message : string)
| returns (a : A).
Arguments throws {A} message.
Arguments returns {A} a.

Definition and_then {A B : Type} (m : outcome A) (k : A -> outcome B)
  : outcome B :=
  match m with
  | throws message => throws message
  | returns a => k a
  end.

(** [req.query] *)
Record query : Type := {
  name : option string;
  segment : option string;
  expiry : option string
}.

(** A query parameter that is present and not empty. *)
Definition given (p : option string) : option string :=
  match p with
  | Some (String c s) => Some (String c s)
  | _ => None
  end.

Section Helpers.

(** The services of [kiteOptionChain.js], on which the controller rests:
    the expiry dates and chain rows are theirs, and each may throw.
    [getNearestExpiry] answers [None] for a result that is falsy. *)
Variables Expiry Row Info : Type.
Variable normalizeToOptionSegment : string -> outcome string.
Variable getOptionSegment : string -> outcome string.
Variable getNearestExpiry : list Expiry -> outcome (option Expiry).
Variable kiteGetExpiryList : string -> string -> outcome (list Expiry).

(** [targetExpiry]: the query's own text, or the nearest listed expiry. *)
Inductive target : Type :=
| requested (expiry : string)
| nearest (e : Expiry).

Record optionChainData : Type := {
  chain : option (list Row);
  spotInstrumentInfo : option Info;
  totalStrikes : field
}.

Variable kiteGetOptionChain :
  string -> string -> target -> outcome optionChainData.

Inductive details : Type :=
| text (s : string)
| no_expiries_for (underlyingName optionSegment : string)
| no_options_for (underlyingName : string) (targetExpiry : target).

Record chain_body : Type := {
  body_underlying : string;
  body_segment : string;
  body_expiry : target;
  body_spotInstrumentInfo : option Info;
  body_chain : list Row;
  meta_totalStrikes : field;
  meta_timestamp : string
}.

Inductive json : Type :=
| error_json (error : string) (d : details) (hint : option string)
| chain_json (b : chain_body)
| expiries_json (expiries : list Expiry) (nearest_ : option Expiry)
    (count : nat).

Record answer : Type := {
  code : Z;
  sent : json
}.

(** The calls made to the instrument services, in order. *)
Inductive lookup : Type :=
| expiry_list_of (underlyingName optionSegment : string)
| option_chain_of (underlyingName optionSegment : string)
    (targetExpiry : target).

Definition underlying_of (l : lookup) : string :=
  match l with
  | expiry_list_of n _ => n
  | option_chain_of n _ _ => n
  end.

(** [segment ? normalizeToOptionSegment(segment)
             : getOptionSegment(underlyingName)] *)
Definition optionSegment (q : query) (underlyingName : string)
  : outcome string :=
  match given (segment q) with
  | Some s => normalizeToOptionSegment s
  | None => getOptionSegment underlyingName
  end.

Definition server_error (error : string) (message : string)
    (hint : option string) : answer :=
  {| code := 500; sent := error_json error (text message) hint |}.

Definition getOptionChain (q : query) (now : string) : list lookup * answer :=
  let failed (looked : list lookup) (message : string) :=
    (looked,
     server_error "Failed to fetch option chain" message
       (Some "Please check if the instrument has active option contracts"%string)) in
  match given (name q) with
  | None =>
      ([], {| code := 400;
              sent := error_json "Missing required parameter"
                        (text "name is required (e.g., NIFTY, BANKNIFTY, HDFCBANK)")
                        None |})
  | Some name =>
      let underlyingName := toUpperCase name in
      match optionSegment q underlyingName with
      | throws message => failed [] message
      | returns segment =>
          let build (looked : list lookup) (targetExpiry : target) :=
            let looked :=
              looked ++ [option_chain_of underlyingName segment targetExpiry] in
            match kiteGetOptionChain underlyingName segment targetExpiry with
            | throws message => failed looked message
            | returns optionChainData =>
                match chain optionChainData with
                | None | Some [] =>
                    (looked,
                     {| code := 404;
                        sent := error_json "No option chain data found"
                                  (no_options_for underlyingName targetExpiry)
                                  None |})
                | Some rows =>
                    (looked,
                     {| code := 200;
                        sent :=
                          chain_json
                            {| body_underlying := underlyingName;
                               body_segment := segment;
                               body_expiry := targetExpiry;
                               body_spotInstrumentInfo :=
                                 spotInstrumentInfo optionChainData;
                               body_chain := rows;
                               meta_totalStrikes :=
                                 totalStrikes optionChainData;
                               meta_timestamp := now |} |})
                end
            end in
          match given (expiry q) with
          | Some e => build [] (requested e)
          | None =>
              let looked := [expiry_list_of underlyingName segment] in
              match and_then (kiteGetExpiryList underlyingName segment)
                             getNearestExpiry with
              | throws message => failed looked message
              | returns None =>
                  (looked,
                   {| code := 404;
                      sent := error_json "No active expiries found"
                                (no_expiries_for underlyingName segment)
                                None |})
              | returns (Some e) => build looked (nearest e)
              end
          end
      end
  end.

Definition getExpiryList (q : query) : list lookup * answer :=
  match given (name q) with
  | None =>
      ([], {| code := 400;
              sent := error_json "Missing required parameter"
                        (text "name is required") None |})
  | Some name =>
      let underlyingName := toUpperCase name in
      match optionSegment q underlyingName with
      | throws message =>
          ([], server_error "Failed to fetch expiry list" message None)
      | returns segment =>
          let looked := [expiry_list_of underlyingName segment] in
          match kiteGetExpiryList underlyingName segment with
          | throws message =>
              (looked, server_error "Failed to fetch expiry list" message None)
          | returns expiries =>
              match getNearestExpiry expiries with
              | throws message =>
                  (looked,
                   server_error "Failed to fetch expiry list" message None)
              | returns nearestExpiry =>
                  (looked,
                   {| code := 200;
                      sent := expiries_json expiries nearestExpiry
                                (length expiries) |})
              end
          end
      end
  end.

End Helpers.

Arguments requested {Expiry}.
Arguments nearest {Expiry}.
Arguments expiry_list_of {Expiry}.
Arguments option_chain_of {Expiry}.
Arguments underlying_of {Expiry}.
Arguments chain {Row Info}.
Arguments text {Expiry}.
Arguments error_json {Expiry Row Info}.
Arguments chain_json {Expiry Row Info}.
Arguments expiries_json {Expiry Row Info}.
Arguments body_underlying {Expiry Row Info}.
Arguments body_segment {Expiry Row Info}.
Arguments body_expiry {Expiry Row Info}.
Arguments body_chain {Expiry Row Info}.
Arguments code {Expiry Row Info}.
Arguments sent {Expiry Row Info}.
Arguments optionSegment normalizeToOptionSegment getOptionSegment q
  underlyingName : assert.
Arguments getOptionChain {Expiry Row Info}.
Arguments getExpiryList {Expiry Row Info}.

End OptionChainController.

(** ** Sample inputs for the order list *)

Module SampleList.

(** The open position of [Sample.order], as the order service lists it. *)
Definition position (from : option string) : OrderList.instrument :=
  {| OrderList.order := Sample.order "BUY" "MIS" 100;
     OrderList.ltp := Val (Num 100);
     OrderList.meta_from := from |}.

(** A baseline quote of the same instrument. *)
Definition baseline : gmap string tick :=
  {["256265"%string :=
      <["ltp"%string := Val (Num 99)]> {["close"%string := Val (Num 98)]}]}.

End SampleList.

(** ** Sample inputs for the option-chain hook *)

Module SampleHook.
Import OptionChainHook.

Definition nifty : params :=
  {| name := "NIFTY"; segment := ""; expiry := "" |}.

(** The refs after [Sample.chain] has been subscribed for [nifty]. *)
Definition subscribed : hook_refs :=
  {| subscribedTokensRef := ["256265"; "256266"]%string;
     tokenMapRef_ := useOptionChain.newTokenMap Sample.chain 0 [];
     lastFetchParamsRef := Some (paramsKey nifty) |}.

Definition reply : chain_data :=
  {| data_chain := Some Sample.chain;
     spotInstrumentInfo := Some "256000"%string |}.

End SampleHook.
(** * Properties *)

(** ** Comparisons and rounding *)

Section Numbers.

Lemma Qltb_lt (x y : Q) : Qltb x y = true <-> x < y.
Proof.
  unfold Qltb. rewrite negb_true_iff, <- not_true_iff_false, Qle_bool_iff.
  split; [apply Qnot_le_lt | apply Qlt_not_le].
Qed.

Lemma Qgtb_gt (x y : Q) : Qgtb x y = true <-> y < x.
Proof. apply Qltb_lt. Qed.

Lemma Qgeb_ge (x y : Q) : Qgeb x y = true <-> y <= x.
Proof. apply Qle_bool_iff. Qed.

Lemma Qltb_nlt (x y : Q) : Qltb x y = false <-> ~ x < y.
Proof. rewrite <- Qltb_lt. destruct (Qltb x y); intuition congruence. Qed.

Lemma Qle_bool_nlt (x y : Q) : Qle_bool x y = true <-> ~ y < x.
Proof.
  rewrite Qle_bool_iff. split; [apply Qle_not_lt | apply Qnot_lt_le].
Qed.

Lemma or_const_0 (a : number) : or_const a 0 == match a with Num q => q | NaN => 0 end.
Proof.
  destruct a as [|q]; simpl; [reflexivity|].
  destruct (Qeq_bool q 0) eqn:H; [|reflexivity].
  apply Qeq_bool_eq in H. symmetry. exact H.
Qed.

Lemma scale_pos (d : nat) : 0 < scale d.
Proof.
  unfold scale. change 0 with (inject_Z 0). rewrite <- Zlt_Qlt.
  apply Z.pow_pos_nonneg; lia.
Qed.

End Numbers.

(** ** Symbolic execution of the handlers *)

Section Execution.
Import OpenOrderBottomWindow Run.

Lemma validateLevels_run (P : props) (S : state) (E : env) :
  validateLevels P S E =
  match levelError P S with
  | Some m => (alert m, Returned)
  | None => ([], Normal tt)
  end.
Proof.
  unfold validateLevels, levelError.
  destruct (Qgtb (currentPrice P) 0); [|reflexivity].
  destruct (String.eqb (orderSide P) "BUY");
    unfold bind, reject, emit, return_, ret;
    repeat match goal with
           | |- context [if ?b && ?c then _ else _] => destruct (b && c)
           end; reflexivity.
Qed.

Lemma fundCheck_run (P : props) (S : state) (E : env) :
  fundCheck P S E =
  match fundError P S E with
  | Some m => (fundsCall S ++ alert m, Returned)
  | None => (fundsCall S, Normal tt)
  end.
Proof.
  unfold fundCheck, fundError, fundsCall.
  destruct (gtb (parsedAddLots S) (Num 0)); [|reflexivity].
  unfold try_catch, bind, getFundsData, reject, emit, return_, ret, throw.
  destruct (funds E) as [e| |d]; try reflexivity.
  destruct (gtb (requiredAmount P S) (Num (availableLimit P d))); reflexivity.
Qed.

Lemma handleAction_level_error (P : props) (S : state) (E : env) (m : message) :
  levelError P S = Some m ->
  handleAction P S "Adjust" "OPEN" E =
  ([setSubmitting true; setFeedback None] ++ alert m ++ [setSubmitting false],
   Returned).
Proof.
  intros H. unfold handleAction, bind at 1 2 3 4, try_finally, try_catch.
  cbn [String.eqb Ascii.eqb Bool.eqb andb].
  rewrite validateLevels_run, H. reflexivity.
Qed.

Lemma handleAction_fund_error (P : props) (S : state) (E : env) (m : message) :
  levelError P S = None ->
  fundError P S E = Some m ->
  handleAction P S "Adjust" "OPEN" E =
  ([setSubmitting true; setFeedback None]
     ++ fundsCall S ++ alert m ++ [setSubmitting false],
   Returned).
Proof.
  intros H1 H2. unfold handleAction, bind at 1 2 3 4, try_finally, try_catch.
  cbn [String.eqb Ascii.eqb Bool.eqb andb].
  rewrite validateLevels_run, H1, fundCheck_run, H2.
  cbn. rewrite <- !app_assoc. reflexivity.
Qed.

Lemma handleAction_open_submits (P : props) (S : state) (E : env) :
  levelError P S = None ->
  fundError P S E = None ->
  handleAction P S "Adjust" "OPEN" E =
  ([setSubmitting true; setFeedback None]
     ++ fundsCall S
     ++ [call_fetch (endpoint P) (token P) (openPayload P S)]
     ++ aftermath P S "Adjust" E ++ [setSubmitting false],
   Normal tt).
Proof.
  intros H1 H2. unfold handleAction, bind at 1 2 3 4, try_finally, try_catch.
  cbn [String.eqb Ascii.eqb Bool.eqb andb].
  rewrite validateLevels_run, H1, fundCheck_run, H2.
  unfold aftermath, bind, ask, fetch, emit, throw, ret.
  destruct (server E) as [e|res]; cbn.
  - rewrite <- !app_assoc. reflexivity.
  - destruct (rejected res); cbn; rewrite <- !app_assoc; reflexivity.
Qed.

Lemma handleAction_exit_submits (P : props) (S : state) (E : env)
    (targetStatus : string) :
  String.eqb targetStatus "OPEN" = false ->
  handleAction P S "Adjust" targetStatus E =
  ([setSubmitting true; setFeedback None;
    call_fetch (endpoint P) (token P) (exitPayload P targetStatus (now E))]
     ++ aftermath P S "Adjust" E ++ [setSubmitting false],
   Normal tt).
Proof.
  intros H. unfold handleAction, bind at 1 2 3 4, try_finally, try_catch.
  rewrite H. cbn [andb].
  unfold aftermath, bind, ask, fetch, emit, throw, ret.
  destruct (server E) as [e|res]; cbn.
  - reflexivity.
  - destruct (rejected res); reflexivity.
Qed.

Lemma handlePriceSave_invalid (P : props) (S : state) (E : env) :
  price_input_invalid S = true ->
  handlePriceSave P S E =
  ([setFeedback (Some {| type := error; message_ := InvalidPrice |})], Returned).
Proof.
  intros H. unfold handlePriceSave, bind at 1 2. rewrite H. reflexivity.
Qed.

Lemma handlePriceSave_submits (P : props) (S : state) (E : env) :
  price_input_invalid S = false ->
  handlePriceSave P S E =
  ([setSubmitting true; call_fetch (endpoint P) (token P) (pricePayload P S)]
     ++ match server E with
        | fetch_throws e =>
            [console_error;
             setFeedback (Some {| type := error; message_ := Failed e |})]
        | fetch_ok res =>
            if rejected res then
              [console_error;
               setFeedback
                 (Some {| type := error; message_ := Failed (failure res) |})]
            else
              [setFeedback (Some {| type := success; message_ := PriceUpdated |});
               setIsEditingPrice false;
               dispatch_orders_changed (updated res)]
        end
     ++ [setSubmitting false],
   Normal tt).
Proof.
  intros H. unfold handlePriceSave, bind at 1 2. rewrite H.
  unfold try_finally, try_catch, bind, fetch, emit, throw, ret.
  destruct (server E) as [e|res]; cbn.
  - reflexivity.
  - destruct (rejected res); reflexivity.
Qed.

End Execution.

(** ** Stop-loss and target validation *)

Section Levels.
Import OpenOrderBottomWindow Run.

Lemma levelError_is_level_error (P : props) (S : state) (m : message) :
  levelError P S = Some m -> level_error m = true.
Proof.
  unfold levelError.
  repeat match goal with
         | |- context [if ?b then _ else _] => destruct b
         end; intros H; inversion H; reflexivity.
Qed.

Lemma levels_rejected_iff (P : props) (S : state) (E : env) :
  levels_rejected P S E <-> exists m, levelError P S = Some m.
Proof.
  split.
  - intros (m & Hm & Hrun).
    destruct (levelError P S) as [m'|] eqn:HL; [eauto|].
    exfalso. destruct (fundError P S E) as [m'|] eqn:HF.
    + rewrite (handleAction_fund_error P S E m' HL HF) in Hrun.
      unfold fundError, fundsCall in *.
      destruct (gtb (parsedAddLots S) (Num 0)); discriminate.
    + rewrite (handleAction_open_submits P S E HL HF) in Hrun.
      unfold fundsCall in *.
      destruct (gtb (parsedAddLots S) (Num 0)); discriminate.
  - intros (m & HL). exists m. split.
    + eapply levelError_is_level_error; eauto.
    + apply handleAction_level_error; assumption.
Qed.

Lemma above_or_at (x c : Q) :
  Qgtb x 0 && Qgeb x c = true <-> 0 < x /\ ~ x < c.
Proof.
  rewrite andb_true_iff, Qgtb_gt, Qgeb_ge.
  split; intros [H1 H2]; split; auto using Qle_not_lt, Qnot_lt_le.
Qed.

Lemma below_or_at (x c : Q) :
  Qgtb x 0 && Qle_bool x c = true <-> 0 < x /\ ~ c < x.
Proof.
  rewrite andb_true_iff, Qgtb_gt, Qle_bool_iff.
  split; intros [H1 H2]; split; auto using Qle_not_lt, Qnot_lt_le.
Qed.

Lemma some_if (b c : bool) (m1 m2 : message) :
  (exists m, (if b then Some m1 else if c then Some m2 else None) = Some m)
  <-> b = true \/ c = true.
Proof.
  destruct b, c; split; intros H; eauto.
  - destruct H as (m & H). discriminate.
  - destruct H; discriminate.
Qed.

Lemma levelError_BUY (P : props) (S : state) :
  0 < currentPrice P -> orderSide P = "BUY"%string ->
  ((exists m, levelError P S = Some m) <->
   (0 < sl S /\ ~ sl S < currentPrice P)
   \/ (0 < tgt S /\ ~ currentPrice P < tgt S)).
Proof.
  intros Hcp Hside. unfold levelError.
  apply Qgtb_gt in Hcp. rewrite Hcp, Hside. cbn [String.eqb Ascii.eqb Bool.eqb].
  rewrite some_if, above_or_at, below_or_at. reflexivity.
Qed.

Lemma levelError_SELL (P : props) (S : state) :
  0 < currentPrice P -> orderSide P = "SELL"%string ->
  ((exists m, levelError P S = Some m) <->
   (0 < sl S /\ ~ currentPrice P < sl S)
   \/ (0 < tgt S /\ ~ tgt S < currentPrice P)).
Proof.
  intros Hcp Hside. unfold levelError.
  apply Qgtb_gt in Hcp. rewrite Hcp, Hside. cbn [String.eqb Ascii.eqb Bool.eqb].
  rewrite some_if, above_or_at, below_or_at. reflexivity.
Qed.

Lemma levelError_unknown_price (P : props) (S : state) :
  ~ 0 < currentPrice P -> levelError P S = None.
Proof.
  intros Hcp. unfold levelError.
  apply Qltb_nlt in Hcp. unfold Qgtb. rewrite Hcp. reflexivity.
Qed.

(** C1, as amended.  In the Adjust->OPEN flow with a known current price,
    a BUY order is rejected with a stop-loss / target validation error
    exactly when its stop-loss is positive and not strictly below the
    current price, or its target is positive and not strictly above it; for
    a SELL order both inequalities invert; and with a current price that is
    not positive no such error is raised.  A stop-loss or target that is
    zero or negative is never checked. *)
Theorem adjust_open_validates_levels (P : props) (S : state) (E : env) :
  (0 < currentPrice P -> orderSide P = "BUY"%string ->
   (levels_rejected P S E <->
    (0 < sl S /\ ~ sl S < currentPrice P)
    \/ (0 < tgt S /\ ~ currentPrice P < tgt S)))
  /\ (0 < currentPrice P -> orderSide P = "SELL"%string ->
      (levels_rejected P S E <->
       (0 < sl S /\ ~ currentPrice P < sl S)
       \/ (0 < tgt S /\ ~ tgt S < currentPrice P)))
  /\ (~ 0 < currentPrice P -> ~ levels_rejected P S E).
Proof.
  repeat split.
  - rewrite levels_rejected_iff. apply levelError_BUY; assumption.
  - rewrite levels_rejected_iff. apply levelError_BUY; assumption.
  - rewrite levels_rejected_iff. apply levelError_SELL; assumption.
  - rewrite levels_rejected_iff. apply levelError_SELL; assumption.
  - intros Hcp. rewrite levels_rejected_iff.
    rewrite (levelError_unknown_price P S Hcp). intros (m & H). discriminate.
Qed.

(** A BUY order at 100 with a stop-loss of 100 is rejected. *)
Lemma adjust_open_validates_levels_witness :
  0 < currentPrice Sample.buy_at_100
  /\ orderSide Sample.buy_at_100 = "BUY"%string
  /\ levels_rejected Sample.buy_at_100
       (Sample.form "" (Entered (Num 100)) Blank) Sample.rich.
Proof.
  split; [reflexivity|]. split; [reflexivity|].
  apply (proj1 (adjust_open_validates_levels Sample.buy_at_100
                  (Sample.form "" (Entered (Num 100)) Blank) Sample.rich));
    [reflexivity | reflexivity |].
  left. split; [reflexivity | intros H; discriminate H].
Defined.

(** BUY at a current price of 100: a stop-loss of 100 is rejected and 99
    passes; a target of 100 is rejected and 101 passes. *)
Example buy_levels_at_100 :
  levelError Sample.buy_at_100 (Sample.form "" (Entered (Num 100)) Blank)
  = Some (InvalidSL_BUY 100)
  /\ levelError Sample.buy_at_100 (Sample.form "" (Entered (Num 99)) Blank)
     = None
  /\ levelError Sample.buy_at_100 (Sample.form "" Blank (Entered (Num 100)))
     = Some (InvalidTarget_BUY 100)
  /\ levelError Sample.buy_at_100 (Sample.form "" Blank (Entered (Num 101)))
     = None.
Proof. repeat split; vm_compute; reflexivity. Qed.

(** SELL at a current price of 100: the same four levels, inverted. *)
Example sell_levels_at_100 :
  levelError Sample.sell_at_100 (Sample.form "" (Entered (Num 100)) Blank)
  = Some (InvalidSL_SELL 100)
  /\ levelError Sample.sell_at_100 (Sample.form "" (Entered (Num 101)) Blank)
     = None
  /\ levelError Sample.sell_at_100 (Sample.form "" Blank (Entered (Num 100)))
     = Some (InvalidTarget_SELL 100)
  /\ levelError Sample.sell_at_100 (Sample.form "" Blank (Entered (Num 99)))
     = None.
Proof. repeat split; vm_compute; reflexivity. Qed.

(** A BUY order at a current price of 100 with a target of -5: the target is
    nonzero and not strictly above the current price, yet the flow raises no
    validation error and sends the target to the order service. *)
Lemma negative_target_not_rejected :
  0 < currentPrice Sample.buy_at_100
  /\ orderSide Sample.buy_at_100 = "BUY"%string
  /\ ~ tgt Sample.negative_target == 0
  /\ ~ currentPrice Sample.buy_at_100 < tgt Sample.negative_target
  /\ ~ levels_rejected Sample.buy_at_100 Sample.negative_target Sample.rich
  /\ exists pl, submits Sample.buy_at_100 Sample.negative_target Sample.rich "OPEN" pl
                /\ Payload.target pl = Some (Num (-5)).
Proof.
  set (S := Sample.negative_target).
  split; [reflexivity|]. split; [reflexivity|].
  split; [intros H; discriminate H|]. split; [intros H; discriminate H|].
  split.
  - rewrite levels_rejected_iff. intros (m & H). discriminate H.
  - exists (openPayload Sample.buy_at_100 S). split.
    + unfold submits.
      rewrite (handleAction_open_submits Sample.buy_at_100 S Sample.rich);
        [ | reflexivity | reflexivity ].
      vm_compute. left. reflexivity.
    + reflexivity.
Qed.

End Levels.

(** ** Fund check *)

Section Funds.
Import OpenOrderBottomWindow Run.

Lemma levels_pass (P : props) (S : state) (E : env) :
  ~ levels_rejected P S E <-> levelError P S = None.
Proof.
  rewrite levels_rejected_iff. destruct (levelError P S) as [m|].
  - split; [intros H; exfalso; eauto | discriminate].
  - split; [reflexivity | intros _ (m & H); discriminate].
Qed.

Lemma requiredAmount_Num (P : props) (S : state) (n : Q) :
  parsedAddLots S = Num n ->
  requiredAmount P S = Num (n * lotSize P * currentPrice P).
Proof. intros H. unfold requiredAmount. rewrite H. reflexivity. Qed.

Lemma fundError_funds_ok (P : props) (S : state) (E : env) (d : fundsData)
    (n : Q) :
  parsedAddLots S = Num n -> 0 < n -> funds E = funds_ok d ->
  fundError P S E =
  if Qgtb (n * lotSize P * currentPrice P) (availableLimit P d)
  then Some (InsufficientFunds
               (Num (toFixedQ 2 (n * lotSize P * currentPrice P)))
               (Num (toFixedQ 2 (availableLimit P d))))
  else None.
Proof.
  intros Hn Hpos Hd. unfold fundError.
  rewrite (requiredAmount_Num P S n Hn), Hn, Hd.
  apply Qgtb_gt in Hpos. cbn. rewrite Hpos. reflexivity.
Qed.

Lemma fundsCall_adding (S : state) (n : Q) :
  parsedAddLots S = Num n -> 0 < n -> fundsCall S = [call_getFundsData].
Proof.
  intros Hn Hpos. unfold fundsCall. rewrite Hn. cbn.
  apply Qgtb_gt in Hpos. rewrite Hpos. reflexivity.
Qed.

Lemma availableLimit_intraday (P : props) (d : fundsData) (L : limits)
    (a u : Q) :
  Order.product (selectedOrder P) = Some "MIS"%string ->
  intraday d = Some L ->
  available_limit L = Val (Num a) -> used_limit L = Val (Num u) ->
  availableLimit P d == a - u.
Proof.
  intros Hp HL Ha Hu. unfold availableLimit, productType_, limit_or_0.
  rewrite Hp, HL, Ha, Hu. cbn [opt_eqb String.eqb Ascii.eqb Bool.eqb Number].
  rewrite !or_const_0. reflexivity.
Qed.

Lemma availableLimit_overnight (P : props) (d : fundsData) (L : limits)
    (a : Q) :
  Order.product (selectedOrder P) <> Some "MIS"%string ->
  overnight d = Some L ->
  available_limit L = Val (Num a) ->
  availableLimit P d == a.
Proof.
  intros Hp HL Ha. unfold availableLimit, productType_, limit_or_0.
  destruct (opt_eqb (Order.product (selectedOrder P)) "MIS") eqn:Hb.
  - exfalso. apply Hp. unfold opt_eqb in Hb.
    destruct (Order.product (selectedOrder P)) as [p|]; [|discriminate].
    apply String.eqb_eq in Hb. congruence.
  - rewrite HL, Ha. cbn [Number]. apply or_const_0.
Qed.



(** An intraday wallet of 100000 with 40000 used leaves 60000.  Two lots of
    25 at 1200 need exactly 60000 and pass; at 1200.0002 they need 60000.01
    and are refused. *)
Example funds_boundary :
  availableLimit Sample.buy_at_1200 (Sample.wallet 100000 40000 50000)
  == 60000
  /\ requiredAmount Sample.buy_at_1200 (Sample.form "2" Blank Blank)
     = Num 60000
  /\ fundError Sample.buy_at_1200 (Sample.form "2" Blank Blank) Sample.rich
     = None
  /\ fundError Sample.buy_above_1200 (Sample.form "2" Blank Blank) Sample.rich
     = Some (InsufficientFunds (Num 60000.01) (Num 60000.00)).
Proof. repeat split. Qed.

End Funds.

(** ** The payload of an Adjust->OPEN submission *)

Section OpenPayload.
Import OpenOrderBottomWindow Run.

Lemma payloads_app (t u : list event) :
  payloads (t ++ u) = payloads t ++ payloads u.
Proof. apply flat_map_app. Qed.

Lemma payloads_fundsCall (S : state) : payloads (fundsCall S) = [].
Proof. unfold fundsCall. destruct (gtb _ _); reflexivity. Qed.

Lemma payloads_aftermath (P : props) (S : state) (a : string) (E : env) :
  payloads (aftermath P S a E) = [].
Proof.
  unfold aftermath. destruct (server E) as [e|res]; [reflexivity|].
  destruct (rejected res); reflexivity.
Qed.

Lemma payloads_open (P : props) (S : state) (E : env) :
  payloads (fst (handleAction P S "Adjust" "OPEN" E))
  = match levelError P S, fundError P S E with
    | None, None => [openPayload P S]
    | _, _ => []
    end.
Proof.
  destruct (levelError P S) as [m|] eqn:HL.
  - rewrite (handleAction_level_error P S E m HL). reflexivity.
  - destruct (fundError P S E) as [m|] eqn:HF.
    + rewrite (handleAction_fund_error P S E m HL HF). cbn [fst].
      rewrite !payloads_app, payloads_fundsCall. reflexivity.
    + rewrite (handleAction_open_submits P S E HL HF). cbn [fst].
      rewrite !payloads_app, payloads_fundsCall, payloads_aftermath.
      reflexivity.
Qed.

Lemma payloads_exit (P : props) (S : state) (E : env) (targetStatus : string) :
  String.eqb targetStatus "OPEN" = false ->
  payloads (fst (handleAction P S "Adjust" targetStatus E))
  = [exitPayload P targetStatus (now E)].
Proof.
  intros H. rewrite (handleAction_exit_submits P S E targetStatus H).
  cbn [fst]. rewrite !payloads_app, payloads_aftermath. reflexivity.
Qed.

Lemma submits_open (P : props) (S : state) (E : env) (pl : Payload.t) :
  submits P S E "OPEN" pl -> pl = openPayload P S.
Proof.
  unfold submits. rewrite payloads_open.
  destruct (levelError P S); [intros []|].
  destruct (fundError P S E); [intros []|].
  intros [H|[]]. symmetry. exact H.
Qed.

(** *** Rounding respects equality of rationals *)

Lemma Qltb_comp (x x' y y' : Q) :
  x == x' -> y == y' -> Qltb x y = Qltb x' y'.
Proof. intros Hx Hy. unfold Qltb. rewrite Hx, Hy. reflexivity. Qed.

Lemma round_magnitude_comp (d : nat) (x y : Q) :
  x == y -> round_magnitude d x == round_magnitude d y.
Proof. intros H. unfold round_magnitude. rewrite H. reflexivity. Qed.

Lemma toFixedQ_comp (d : nat) (x y : Q) :
  x == y -> toFixedQ d x == toFixedQ d y.
Proof.
  intros H. unfold toFixedQ.
  rewrite (Qltb_comp x y 0 0 H (Qeq_refl 0)).
  destruct (Qltb y 0).
  - apply Qopp_comp, round_magnitude_comp. rewrite H. reflexivity.
  - apply round_magnitude_comp, H.
Qed.

(** [toFixedQ d x] is a multiple of [10^-d] at distance at most half a unit
    of the last place from [x]. *)
Lemma round_magnitude_close (d : nat) (x : Q) :
  Qabs (round_magnitude d x - x) <= (1 # 2) / scale d.
Proof.
  pose proof (scale_pos d) as Hs.
  assert (Hne : ~ scale d == 0) by (intros H; rewrite H in Hs; discriminate).
  unfold round_magnitude.
  set (y := x * scale d + (1 # 2)).
  pose proof (Qfloor_le y) as Hlo. pose proof (Qlt_floor y) as Hhi.
  rewrite inject_Z_plus in Hhi. change (inject_Z 1) with 1 in Hhi.
  set (f := inject_Z (Qfloor y)) in *.
  apply Qabs_Qle_condition. split.
  - apply (Qmult_le_r _ _ (scale d) Hs).
    assert (E1 : (f / scale d - x) * scale d == f - x * scale d) by (field; exact Hne).
    assert (E2 : - ((1 # 2) / scale d) * scale d == - (1 # 2)) by (field; exact Hne).
    rewrite E1, E2. subst y.
    apply Qlt_le_weak.
    apply (Qplus_lt_l _ _ (x * scale d + 1)).
    assert (E3 : - (1 # 2) + (x * scale d + 1) == x * scale d + (1 # 2)) by ring.
    assert (E4 : f - x * scale d + (x * scale d + 1) == f + 1) by ring.
    rewrite E3, E4. exact Hhi.
  - apply (Qmult_le_r _ _ (scale d) Hs).
    assert (E1 : (f / scale d - x) * scale d == f - x * scale d) by (field; exact Hne).
    assert (E2 : ((1 # 2) / scale d) * scale d == (1 # 2)) by (field; exact Hne).
    rewrite E1, E2. subst y.
    apply (Qplus_le_l _ _ (x * scale d)).
    assert (E4 : f - x * scale d + x * scale d == f) by ring.
    assert (E3 : (1 # 2) + x * scale d == x * scale d + (1 # 2)) by ring.
    rewrite E3, E4. exact Hlo.
Qed.

Lemma toFixedQ_close (d : nat) (x : Q) :
  Qabs (toFixedQ d x - x) <= (1 # 2) / scale d.
Proof.
  unfold toFixedQ. destruct (Qltb x 0).
  - assert (E : - round_magnitude d (- x) - x
                == - (round_magnitude d (- x) - - x)) by ring.
    rewrite E, Qabs_opp. apply round_magnitude_close.
  - apply round_magnitude_close.
Qed.

Lemma toFixedQ_multiple (d : nat) (x : Q) :
  exists z : Z, toFixedQ d x == inject_Z z / scale d.
Proof.
  unfold toFixedQ, round_magnitude. destruct (Qltb x 0).
  - exists (- Qfloor (- x * scale d + (1 # 2)))%Z.
    rewrite inject_Z_opp. field.
    pose proof (scale_pos d) as Hs. intros H. rewrite H in Hs. discriminate.
  - eexists. reflexivity.
Qed.

(** *** Weighted average *)

Lemma computedAvg_adding (P : props) (S : state) (q a c n : Q) :
  qty P = Num q -> avg P = Num a ->
  currentLots P = Num c -> parsedAddLots S = Num n ->
  0 < n -> ~ (c + n) * lotSize P == 0 ->
  computedAvg P S
  = Num ((q * a + n * lotSize P * currentPrice P) / ((c + n) * lotSize P)).
Proof.
  intros Hq Ha Hc Hn Hpos Hden.
  unfold computedAvg, targetTotalQuantity, targetTotalLots.
  rewrite Hq, Ha, Hc, Hn. cbn.
  apply Qgtb_gt in Hpos. rewrite Hpos.
  destruct (Qeq_bool ((c + n) * lotSize P) 0) eqn:Hz; [|reflexivity].
  apply Qeq_bool_eq in Hz. contradiction.
Qed.

Lemma computedAvg_not_adding (P : props) (S : state) (n : Q) :
  parsedAddLots S = Num n -> n == 0 -> computedAvg P S = avg P.
Proof.
  intros Hn Hz. unfold computedAvg. rewrite Hn. cbn.
  assert (H : Qgtb n 0 = false).
  { apply Qltb_nlt. rewrite Hz. discriminate. }
  rewrite H. reflexivity.
Qed.



(** 75 units held at 100, one lot of 25 added at 120: the new average
    is 105.00. *)
Example weighted_average_105 :
  Payload.price (openPayload Sample.buy_at_120 (Sample.form "1" Blank Blank))
  = Some (Num 105.00).
Proof. reflexivity. Qed.


End OpenPayload.

(** ** One mutation at a time *)

Section InFlight.
Import OpenOrderBottomWindow Run.

(** [handleAction] raises [submitting] first and lowers it last, whatever
    happens in between; it never reads it. *)
Lemma handleAction_brackets (P : props) (S : state) (E : env)
    (clickedAction targetStatus : string) :
  exists t,
    fst (handleAction P S clickedAction targetStatus E)
    = [setSubmitting true; setFeedback None] ++ t ++ [setSubmitting false].
Proof.
  unfold handleAction, bind at 1 2, try_finally, emit.
  match goal with
  | |- context [try_catch ?m ?h E] => destruct (try_catch m h E) as [t c]
  end.
  exists t. reflexivity.
Qed.

Lemma after_app (S : state) (t u : list event) :
  after S (t ++ u) = after (after S t) u.
Proof. apply fold_left_app. Qed.

Lemma handleAction_clears_submitting (P : props) (S : state) (E : env)
    (clickedAction targetStatus : string) :
  submitting (after S (fst (handleAction P S clickedAction targetStatus E)))
  = false.
Proof.
  destruct (handleAction_brackets P S E clickedAction targetStatus) as (t & H).
  rewrite H, !after_app. reflexivity.
Qed.




End InFlight.

(** ** Exit and hold *)

Section ExitFlow.
Import OpenOrderBottomWindow Run.


(** The same request also carries the close price and timestamp of the exit
    branch it shares. *)
Lemma adjust_hold_carries_close_fields (P : props) (E : env) :
  Payload.closed_ltp (exitPayload P "HOLD" (now E))
  = Some (Num (toFixedQ 4 (or_const (closedLtp P) 0)))
  /\ Payload.closed_at (exitPayload P "HOLD" (now E)) = Some (now E).
Proof. split; reflexivity. Qed.

Lemma closedLtp_live (P : props) (l j : Q) :
  liveLtp P = Num l -> 0 < l -> jobbing P = Num j ->
  closedLtp P
  = if String.eqb (orderSide P) "BUY"
    then Num (l - l * (j / 100)) else Num (l + l * (j / 100)).
Proof.
  intros Hl Hpos Hj. unfold closedLtp. rewrite Hl, Hj. cbn.
  apply Qgtb_gt in Hpos. rewrite Hpos.
  destruct (String.eqb (orderSide P) "BUY"); reflexivity.
Qed.

Lemma closedLtp_no_price (P : props) :
  truthy (liveLtp P) = false -> or_const (closedLtp P) 0 == 0.
Proof.
  unfold closedLtp. destruct (liveLtp P) as [|l]; cbn; [reflexivity|].
  intros H. apply negb_false_iff in H. pose proof H as Hz.
  apply Qeq_bool_eq in Hz.
  assert (Hgt : Qgtb l 0 = false).
  { apply Qltb_nlt. rewrite Hz. discriminate. }
  rewrite Hgt. cbn. rewrite H. reflexivity.
Qed.



(** A live price of 120 with a jobbing of 0.5 percent closes a BUY at 119.4
    and a SELL at 120.6; without a live price the close price is 0. *)
Example close_prices :
  Payload.closed_ltp (exitPayload Sample.buy_at_120 "CLOSED" "t")
  = Some (Num 119.4000)
  /\ Payload.closed_ltp
       (exitPayload (Sample.window (Sample.order "SELL" "MIS" 100)
                       (Val (Num 120))) "CLOSED" "t")
     = Some (Num 120.6000)
  /\ Payload.closed_ltp
       (exitPayload (Sample.window (Sample.order "BUY" "MIS" 100) Undefined)
          "CLOSED" "t")
     = Some (Num 0.0000).
Proof. repeat split. Qed.

End ExitFlow.

(** ** Errors raised before submission *)

Section LocalErrors.
Import OpenOrderBottomWindow Run.

Lemma order_mutations_app (t u : list event) :
  order_mutations (t ++ u) = order_mutations t ++ order_mutations u.
Proof. apply filter_app. Qed.

Lemma order_mutations_fundsCall (S : state) :
  order_mutations (fundsCall S) = [].
Proof. unfold fundsCall. destruct (gtb _ _); reflexivity. Qed.

Lemma aftermath_shows_no_local_error (P : props) (S : state) (a : string)
    (E : env) (m : message) :
  local_error m = true -> ~ In (shows m) (aftermath P S a E).
Proof.
  intros Hm Hin. unfold aftermath, shows in Hin.
  destruct (server E) as [e|res]; [|destruct (rejected res)];
    cbn in Hin; intuition (try discriminate);
    match goal with H : _ = _ |- _ => inversion H; subst; discriminate end.
Qed.

Lemma fundsCall_shows_nothing (S : state) (m : message) :
  ~ In (shows m) (fundsCall S).
Proof.
  unfold fundsCall. destruct (gtb _ _); cbn; intuition discriminate.
Qed.

Lemma handleAction_local_error (P : props) (S : state) (E : env)
    (targetStatus : string) (m : message) :
  local_error m = true ->
  In (shows m) (fst (handleAction P S "Adjust" targetStatus E)) ->
  order_mutations (fst (handleAction P S "Adjust" targetStatus E)) = [].
Proof.
  intros Hm Hin.
  destruct (String.eqb targetStatus "OPEN") eqn:Hts.
  - apply String.eqb_eq in Hts. subst targetStatus.
    destruct (levelError P S) as [m1|] eqn:HL.
    + rewrite (handleAction_level_error P S E m1 HL). reflexivity.
    + destruct (fundError P S E) as [m2|] eqn:HF.
      * rewrite (handleAction_fund_error P S E m2 HL HF). cbn [fst].
        rewrite !order_mutations_app, order_mutations_fundsCall. reflexivity.
      * exfalso. rewrite (handleAction_open_submits P S E HL HF) in Hin.
        cbn [fst] in Hin. rewrite !in_app_iff in Hin.
        destruct Hin as [Hin|[Hin|[Hin|[Hin|Hin]]]].
        -- cbn in Hin. intuition discriminate.
        -- exact (fundsCall_shows_nothing S m Hin).
        -- cbn in Hin. intuition discriminate.
        -- exact (aftermath_shows_no_local_error P S _ E m Hm Hin).
        -- cbn in Hin. intuition discriminate.
  - exfalso. rewrite (handleAction_exit_submits P S E targetStatus Hts) in Hin.
    cbn [fst] in Hin. rewrite !in_app_iff in Hin.
    destruct Hin as [Hin|[Hin|Hin]].
    + cbn in Hin. intuition discriminate.
    + exact (aftermath_shows_no_local_error P S _ E m Hm Hin).
    + cbn in Hin. intuition discriminate.
Qed.

Lemma handlePriceSave_local_error (P : props) (S : state) (E : env)
    (m : message) :
  local_error m = true ->
  In (shows m) (fst (handlePriceSave P S E)) ->
  outbound (fst (handlePriceSave P S E)) = [].
Proof.
  intros Hm Hin.
  destruct (price_input_invalid S) eqn:Hp.
  - rewrite (handlePriceSave_invalid P S E Hp). reflexivity.
  - exfalso. rewrite (handlePriceSave_submits P S E Hp) in Hin.
    cbn [fst] in Hin. unfold shows in Hin.
    destruct (server E) as [e|res]; [|destruct (rejected res)];
      cbn in Hin; intuition (try discriminate);
      match goal with H : _ = _ |- _ => inversion H; subst; discriminate end.
Qed.

(** C7.  A run of [handleAction] that shows a validation error (stop-loss
    or target ordering) or a funds error (insufficient funds, failed fund
    check) posts no order mutation; a run of [handlePriceSave] that shows
    the invalid-price error makes no outbound call at all.  Conversely the
    errors are raised: a failed level validation, a failed fund check and
    an invalid price input each end in such a run. *)
Theorem local_errors_stay_local (P : props) (S : state) (E : env) :
  (forall targetStatus m,
      local_error m = true ->
      In (shows m) (fst (handleAction P S "Adjust" targetStatus E)) ->
      order_mutations (fst (handleAction P S "Adjust" targetStatus E)) = [])
  /\ (forall m,
         local_error m = true ->
         In (shows m) (fst (handlePriceSave P S E)) ->
         outbound (fst (handlePriceSave P S E)) = [])
  /\ (forall m,
         levelError P S = Some m ->
         local_error m = true
         /\ In (shows m) (fst (handleAction P S "Adjust" "OPEN" E)))
  /\ (forall m,
         levelError P S = None -> fundError P S E = Some m ->
         local_error m = true
         /\ In (shows m) (fst (handleAction P S "Adjust" "OPEN" E)))
  /\ (price_input_invalid S = true ->
      In (shows InvalidPrice) (fst (handlePriceSave P S E))).
Proof.
  split; [intros; eapply handleAction_local_error; eauto|].
  split; [intros; eapply handlePriceSave_local_error; eauto|].
  split; [|split].
  - intros m HL. split.
    + apply levelError_is_level_error in HL. destruct m; try discriminate; reflexivity.
    + rewrite (handleAction_level_error P S E m HL). cbn. auto.
  - intros m HL HF. split.
    + unfold fundError in HF.
      destruct (gtb (parsedAddLots S) (Num 0)); [|discriminate].
      destruct (funds E) as [e| |d]; try (inversion HF; reflexivity).
      destruct (gtb (requiredAmount P S) (Num (availableLimit P d)));
        inversion HF; reflexivity.
    + rewrite (handleAction_fund_error P S E m HL HF). cbn [fst].
      rewrite !in_app_iff. right. right. left. cbn. auto.
  - intros Hp. rewrite (handlePriceSave_invalid P S E Hp). cbn. auto.
Qed.

(** The insufficient-funds run of [funds_boundary] posts no mutation. *)
Lemma local_errors_stay_local_witness :
  local_error (InsufficientFunds (Num 60000.01) (Num 60000.00)) = true
  /\ In (shows (InsufficientFunds (Num 60000.01) (Num 60000.00)))
        (fst (handleAction Sample.buy_above_1200 (Sample.form "2" Blank Blank)
                "Adjust" "OPEN" Sample.rich))
  /\ order_mutations
       (fst (handleAction Sample.buy_above_1200 (Sample.form "2" Blank Blank)
               "Adjust" "OPEN" Sample.rich)) = [].
Proof.
  split; [reflexivity|].
  assert (H : In (shows (InsufficientFunds (Num 60000.01) (Num 60000.00)))
                (fst (handleAction Sample.buy_above_1200
                        (Sample.form "2" Blank Blank)
                        "Adjust" "OPEN" Sample.rich))).
  { cbn. right. right. right. left. reflexivity. }
  split; [exact H|].
  exact (proj1 (local_errors_stay_local Sample.buy_above_1200
                  (Sample.form "2" Blank Blank) Sample.rich)
           "OPEN"%string
           (InsufficientFunds (Num 60000.01) (Num 60000.00)) eq_refl H).
Defined.

End LocalErrors.

(** ** Lots, quantity and product of an Adjust->OPEN submission *)

Section OpenFields.
Import OpenOrderBottomWindow Run.

Lemma parsedAddLots_nonneg (S : state) (n : Q) :
  parsedAddLots S = Num n -> 0 <= n.
Proof.
  unfold parsedAddLots, max_const.
  destruct (parseInt _) as [|q]; [discriminate|].
  intros H. inversion H as [Hn].
  destruct (Qle_bool 0 q) eqn:Hle.
  - apply Qle_bool_iff. exact Hle.
  - discriminate.
Qed.



Lemma availableLimit_by_product (P : props) (d : fundsData) :
  availableLimit P d
  = if opt_eqb (Order.product (selectedOrder P)) "MIS"
    then limit_or_0 (intraday d) available_limit
         - limit_or_0 (intraday d) used_limit
    else limit_or_0 (overnight d) available_limit.
Proof.
  unfold availableLimit, productType_.
  destruct (opt_eqb _ _); reflexivity.
Qed.

(** C10.  Every Adjust->OPEN submission carries the product ['MIS'],
    whatever the product of the order, although the fund check before it
    takes the intraday limit (available minus used) for a MIS order and the
    overnight limit for any other. *)
Theorem adjust_open_product_is_MIS (P : props) (S : state) (E : env)
    (pl : Payload.t) :
  submits P S E "OPEN" pl ->
  Payload.product pl = Some "MIS"%string
  /\ (forall d,
         Order.product (selectedOrder P) = Some "MIS"%string ->
         availableLimit P d
         = limit_or_0 (intraday d) available_limit
           - limit_or_0 (intraday d) used_limit)
  /\ (forall d p,
         Order.product (selectedOrder P) = Some p -> p <> "MIS"%string ->
         availableLimit P d = limit_or_0 (overnight d) available_limit).
Proof.
  intros Hsub. apply submits_open in Hsub. subst pl.
  split; [reflexivity|]. split.
  - intros d Hp. rewrite availableLimit_by_product, Hp. reflexivity.
  - intros d p Hp Hne. rewrite availableLimit_by_product, Hp. cbn [opt_eqb].
    apply String.eqb_neq in Hne. rewrite Hne. reflexivity.
Qed.

(** An NRML order is checked against the overnight limit and sent as MIS. *)
Lemma adjust_open_product_is_MIS_witness :
  Order.product (selectedOrder Sample.overnight_at_120) = Some "NRML"%string
  /\ availableLimit Sample.overnight_at_120 (Sample.wallet 100000 40000 50000)
     == 50000
  /\ submits Sample.overnight_at_120 (Sample.form "1" Blank Blank) Sample.rich
       "OPEN" (openPayload Sample.overnight_at_120 (Sample.form "1" Blank Blank))
  /\ Payload.product
       (openPayload Sample.overnight_at_120 (Sample.form "1" Blank Blank))
     = Some "MIS"%string.
Proof.
  assert (H : submits Sample.overnight_at_120 (Sample.form "1" Blank Blank)
                Sample.rich "OPEN"
                (openPayload Sample.overnight_at_120
                   (Sample.form "1" Blank Blank))).
  { unfold submits. rewrite payloads_open. left. reflexivity. }
  split; [reflexivity|]. split; [reflexivity|]. split; [exact H|].
  exact (proj1 (adjust_open_product_is_MIS Sample.overnight_at_120
                  (Sample.form "1" Blank Blank) Sample.rich _ H)).
Defined.

End OpenFields.

(** ** Throttled loops: what is published on a due frame *)

Section OrderListLoop.
Import OpenOrder Due.

Lemma updateLoop_due (f : frame) (lastUpdate : Q) :
  ~ timestamp f - lastUpdate < THROTTLE_MS ->
  published (snd (updateLoop f lastUpdate)) = publication f
  /\ (publication f <> [] -> fst (updateLoop f lastUpdate) = timestamp f).
Proof.
  intros Hdue. apply Qltb_nlt in Hdue.
  unfold updateLoop, publication. rewrite Hdue.
  destruct (ticksRef f) as [ticksMap|]; [|split; [reflexivity|congruence]].
  destruct (instrumentDataRef f) as [[|inst rest]|];
    try (split; [reflexivity|congruence]).
  destruct (fold_left (visit ticksMap) (inst :: rest) (∅, false)) as [nt b].
  destruct b; cbn; split; first [reflexivity | congruence].
Qed.

(** Two consecutive due frames that find the same refs publish the same
    ticks twice. *)
Lemma same_refs_publish_twice (f1 f2 : frame) (lastUpdate : Q)
    (newTicks : gmap string tick) :
  ~ timestamp f1 - lastUpdate < THROTTLE_MS ->
  ~ timestamp f2 - timestamp f1 < THROTTLE_MS ->
  ticksRef f2 = ticksRef f1 ->
  instrumentDataRef f2 = instrumentDataRef f1 ->
  published (frames [f1] lastUpdate) = [newTicks] ->
  published (frames [f1; f2] lastUpdate) = [newTicks; newTicks].
Proof.
  intros H1 H2 Ht Hi. cbn [frames].
  destruct (updateLoop_due f1 lastUpdate H1) as [Hp1 Hl1].
  destruct (updateLoop f1 lastUpdate) as [lu1 e1] eqn:Hu1.
  cbn [fst snd] in *. rewrite app_nil_r. intros Hpub.
  assert (Hne : publication f1 <> []) by (rewrite <- Hp1, Hpub; discriminate).
  rewrite (Hl1 Hne).
  destruct (updateLoop_due f2 (timestamp f1) H2) as [Hp2 _].
  destruct (updateLoop f2 (timestamp f1)) as [lu2 e2].
  cbn [snd] in Hp2. rewrite app_nil_r.
  unfold published in *. rewrite flat_map_app. fold (published e1).
  fold (published e2). unfold published. rewrite Hpub, Hp2.
  assert (Hsame : publication f2 = publication f1).
  { unfold publication. rewrite Ht, Hi. reflexivity. }
  rewrite Hsame, <- Hp1. unfold published. rewrite Hpub. reflexivity.
Qed.

(** C5, at the failing input.  The order-list loop finds the same tick for
    the same order on the due frames at 200 ms and 400 ms, and calls
    [setLiveTicks] on both, with the same content. *)
Theorem order_list_republishes_same_tick :
  ~ OpenOrder.timestamp (Sample.list_frame 200) - 0 < THROTTLE_MS
  /\ ~ OpenOrder.timestamp (Sample.list_frame 400) - 200 < THROTTLE_MS
  /\ OpenOrder.ticksRef (Sample.list_frame 400)
     = OpenOrder.ticksRef (Sample.list_frame 200)
  /\ published (frames [Sample.list_frame 200; Sample.list_frame 400] 0)
     = [Sample.store; Sample.store].
Proof.
  split; [intros H; discriminate H|].
  split; [intros H; discriminate H|].
  split; [reflexivity|].
  vm_compute. reflexivity.
Qed.

End OrderListLoop.

Section OptionChainLoop.
Import useOptionChain Change.

Lemma visit_inserts_on_change (ticks : gmap string tick)
    (currentChain : list row) (pendingUpdates : gmap nat updates)
    (entry : string * position) (i : nat) :
  is_Some (visit ticks currentChain pendingUpdates entry !! i) ->
  is_Some (pendingUpdates !! i) \/ changed ticks currentChain entry.
Proof.
  unfold visit, changed, tick_ltp. destruct entry as [token position].
  cbn [fst snd].
  destruct (negb (strict_eqb _ Undefined)) eqn:Hdef; [|auto].
  destruct (gtb _ (Num 0)) eqn:Hpos; [|auto]. cbn [andb].
  destruct (currentChain !! index position) as [r|] eqn:Hrow; [|auto].
  destruct (negb (strict_eqb (leg_ltp r (type_ position)) _)) eqn:Hne; [|auto].
  intros _. right. apply negb_true_iff in Hdef, Hne. eauto.
Qed.

Lemma fold_inserts_on_change (ticks : gmap string tick)
    (currentChain : list row) (tokenMap : list (string * position)) :
  forall (pendingUpdates : gmap nat updates) (i : nat),
    is_Some (fold_left (visit ticks currentChain) tokenMap pendingUpdates !! i) ->
    is_Some (pendingUpdates !! i)
    \/ exists entry, In entry tokenMap /\ changed ticks currentChain entry.
Proof.
  induction tokenMap as [|entry rest IH]; intros pendingUpdates i H.
  - left. exact H.
  - cbn [fold_left] in H. destruct (IH _ _ H) as [Hv|(e & Hin & Hch)].
    + destruct (visit_inserts_on_change _ _ _ _ _ Hv) as [Hp|Hch].
      * left. exact Hp.
      * right. exists entry. split; [left; reflexivity | exact Hch].
    + right. exists e. split; [right; exact Hin | exact Hch].
Qed.

(** The option-chain loop calls [setChainData] only when some token of the
    token map has a tick whose [ltp] differs from the chain's. *)
Lemma option_chain_publishes_only_on_change (f : frame) (st : refs)
    (updated : list row) :
  In (setChainData updated) (snd (updateLoop f st)) ->
  exists currentChain entry,
    chainDataRef st = Some currentChain
    /\ In entry (tokenMapRef f)
    /\ changed (ticksRef f) currentChain entry.
Proof.
  unfold updateLoop.
  destruct (Qltb _ THROTTLE_MS); [cbn; intuition discriminate|].
  destruct (chainDataRef st) as [[|r rest]|]; try (cbn; intuition discriminate).
  destruct (size (ticksRef f) =? 0)%nat; [cbn; intuition discriminate|].
  destruct (length (tokenMapRef f) =? 0)%nat; [cbn; intuition discriminate|].
  destruct (0 <? size _)%nat eqn:Hsize; [|cbn; intuition discriminate].
  intros _. apply Nat.ltb_lt in Hsize.
  destruct (map_size_ne_0_lookup_1
              (fold_left (visit (ticksRef f) (r :: rest)) (tokenMapRef f) ∅))
    as (i & Hi); [lia|].
  destruct (fold_inserts_on_change _ _ _ _ _ Hi) as [He|(e & Hin & Hch)].
  - rewrite lookup_empty in He. destruct He as [x Hx]. discriminate.
  - exists (r :: rest), e. auto.
Qed.

(** *** A second due frame over the same ticks publishes nothing *)

Lemma visit_cases (ticks : gmap string tick) (currentChain : list row)
    (p : gmap nat updates) (e : string * position) :
  (changed ticks currentChain e
   /\ visit ticks currentChain p e
      = <[index (snd e) :=
            set_ltp (type_ (snd e)) (tick_ltp ticks (fst e))
              (default {| callLtp := Undefined; putLtp := Undefined |}
                       (p !! index (snd e)))]> p)
  \/ (~ changed ticks currentChain e /\ visit ticks currentChain p e = p).
Proof.
  unfold visit, changed, tick_ltp. destruct e as [token position].
  cbn [fst snd].
  set (tl := match ticks !! token with
             | Some tick => prop tick "ltp"
             | None => Undefined
             end).
  destruct (strict_eqb tl Undefined) eqn:Hdef; cbn [negb andb].
  { right. split; [|reflexivity]. intros (H & _). discriminate. }
  destruct (gtb (Number tl) (Num 0)) eqn:Hpos.
  2:{ right. split; [|reflexivity]. intros (_ & H & _). discriminate. }
  destruct (currentChain !! index position) as [r|] eqn:Hrow.
  2:{ right. split; [|reflexivity]. intros (_ & _ & r & H & _). discriminate. }
  destruct (strict_eqb (leg_ltp r (type_ position)) tl) eqn:Hne; cbn [negb].
  { right. split; [|reflexivity]. intros (_ & _ & r' & H & H').
    inversion H; subst r'. congruence. }
  left. split; [eauto|]. destruct (type_ position); reflexivity.
Qed.

Lemma one_token_per_leg_prefix (l : list (string * position))
    (e : string * position) :
  one_token_per_leg (l ++ [e]) -> one_token_per_leg l.
Proof.
  intros H e1 e2 H1 H2. apply H; apply in_or_app; left; assumption.
Qed.

(** What [pendingUpdates] holds once the token map is walked: a pending
    [ltp] comes from a changed token of that leg, and every changed token
    has its tick's [ltp] pending. *)
Lemma pending_after_walk (ticks : gmap string tick) (currentChain : list row)
    (tokenMap : list (string * position)) :
  one_token_per_leg tokenMap ->
  (forall i u t,
      fold_left (visit ticks currentChain) tokenMap ∅ !! i = Some u ->
      pending_ltp t u <> Undefined ->
      exists e,
        In e tokenMap /\ index (snd e) = i /\ type_ (snd e) = t
        /\ changed ticks currentChain e
        /\ pending_ltp t u = tick_ltp ticks (fst e))
  /\ (forall e,
         In e tokenMap -> changed ticks currentChain e ->
         exists u,
           fold_left (visit ticks currentChain) tokenMap ∅ !! index (snd e)
           = Some u
           /\ pending_ltp (type_ (snd e)) u = tick_ltp ticks (fst e)).
Proof.
  induction tokenMap as [|e0 l IH] using rev_ind; intros Huniq.
  - split.
    + intros i u t H. cbn in H. rewrite lookup_empty in H. discriminate.
    + intros e [].
  - destruct (IH (one_token_per_leg_prefix l e0 Huniq)) as [I1 I2].
    rewrite fold_left_app. cbn [fold_left].
    set (p := fold_left (visit ticks currentChain) l ∅) in *.
    destruct (visit_cases ticks currentChain p e0) as [[Hch Hv]|[Hch Hv]];
      rewrite Hv; clear Hv.
    + split.
      * intros i u t Hi Hu.
        destruct (decide (index (snd e0) = i)) as [<-|Hne].
        -- rewrite lookup_insert_eq in Hi. inversion Hi; subst u; clear Hi.
           destruct (p !! index (snd e0)) as [u0|] eqn:Hp; cbn [default] in Hu.
           ++ destruct (type_ (snd e0)) eqn:Ht0, t; cbn in Hu |- *.
              ** exists e0. rewrite in_app_iff. cbn. auto 10.
              ** destruct (I1 _ u0 put_ Hp Hu) as (e & He & ? & ? & ? & ?).
                 exists e. rewrite in_app_iff. auto 10.
              ** destruct (I1 _ u0 call_ Hp Hu) as (e & He & ? & ? & ? & ?).
                 exists e. rewrite in_app_iff. auto 10.
              ** exists e0. rewrite in_app_iff. cbn. auto 10.
           ++ destruct (type_ (snd e0)) eqn:Ht0, t; cbn in Hu |- *;
                try congruence; exists e0; rewrite in_app_iff; cbn; auto 10.
        -- rewrite lookup_insert_ne in Hi by assumption.
           destruct (I1 i u t Hi Hu) as (e & He & ? & ? & ? & ?).
           exists e. rewrite in_app_iff. auto 10.
      * intros e He Hche. apply in_app_or in He.
        destruct (decide (index (snd e0) = index (snd e))) as [Heq|Hne].
        -- rewrite <- Heq, lookup_insert_eq. eexists. split; [reflexivity|].
           destruct He as [He|[<-|[]]].
           ++ destruct (I2 e He Hche) as (u & Hu & Hpl).
              rewrite Heq, Hu. cbn [default].
              destruct (type_ (snd e0)) eqn:Ht0, (type_ (snd e)) eqn:Ht;
                cbn; try exact Hpl;
                f_equal; apply Huniq; try congruence;
                rewrite in_app_iff; cbn; auto.
           ++ destruct (type_ (snd e0)); reflexivity.
        -- rewrite lookup_insert_ne by assumption.
           destruct He as [He|[<-|[]]]; [|congruence].
           exact (I2 e He Hche).
    + split.
      * intros i u t Hi Hu.
        destruct (I1 i u t Hi Hu) as (e & He & ? & ? & ? & ?).
        exists e. rewrite in_app_iff. auto 10.
      * intros e He Hche. apply in_app_or in He.
        destruct He as [He|[<-|[]]]; [|contradiction].
        exact (I2 e He Hche).
Qed.

Lemma leg_ltp_newRow_kept (r : row) (u : updates) (t : leg_type) :
  pending_ltp t u = Undefined -> leg_ltp (newRow r u) t = leg_ltp r t.
Proof.
  unfold leg_ltp, newRow, pending_ltp. destruct t; cbn; intros ->; reflexivity.
Qed.

Lemma leg_ltp_newRow_set (r : row) (u : updates) (t : leg_type) :
  pending_ltp t u <> Undefined ->
  match t with call_ => call r | put_ => put r end <> None ->
  leg_ltp (newRow r u) t = pending_ltp t u.
Proof.
  unfold leg_ltp, newRow, pending_ltp. destruct t; cbn; intros Hu Hleg.
  - destruct (callLtp u), (call r); cbn; congruence.
  - destruct (putLtp u), (put r); cbn; congruence.
Qed.

Lemma positive_ltp_equals_itself (v : field) :
  gtb (Number v) (Num 0) = true -> strict_eqb v v = true.
Proof.
  destruct v as [| |[|x]]; cbn; try discriminate.
  intros _. apply Qeq_bool_iff. reflexivity.
Qed.

(** Once the pending updates are written into the chain, no token of the
    map has a change left. *)
Lemma nothing_changed_after_update (ticks : gmap string tick)
    (currentChain : list row) (tokenMap : list (string * position)) :
  legs_present tokenMap currentChain ->
  one_token_per_leg tokenMap ->
  forall e,
    In e tokenMap ->
    ~ changed ticks
        (updatedChain currentChain
           (fold_left (visit ticks currentChain) tokenMap ∅)) e.
Proof.
  intros Hlegs Huniq e He (Hdef & Hpos & r' & Hrow & Hne).
  destruct (pending_after_walk ticks currentChain tokenMap Huniq) as [I1 I2].
  set (p := fold_left (visit ticks currentChain) tokenMap ∅) in *.
  unfold updatedChain in Hrow. rewrite list_lookup_imap in Hrow.
  destruct (currentChain !! index (snd e)) as [r|] eqn:Hr; [|discriminate].
  cbn in Hrow.
  assert (Hold : strict_eqb (leg_ltp r (type_ (snd e))) (tick_ltp ticks (fst e))
                 = false ->
                 exists u, p !! index (snd e) = Some u
                           /\ pending_ltp (type_ (snd e)) u
                              = tick_ltp ticks (fst e)).
  { intros H. apply (I2 e He). unfold changed. eauto. }
  destruct (p !! index (snd e)) as [u|] eqn:Hp.
  - inversion Hrow; subst r'; clear Hrow.
    destruct (pending_ltp (type_ (snd e)) u) eqn:Hu.
    + rewrite (leg_ltp_newRow_kept r u _ Hu) in Hne.
      destruct (Hold Hne) as (u' & Hu' & Hpl). inversion Hu'; subst u'.
      rewrite Hu in Hpl. rewrite <- Hpl in Hdef. discriminate.
    + assert (Hset : pending_ltp (type_ (snd e)) u <> Undefined) by congruence.
      destruct (I1 _ u _ Hp Hset) as (e' & He' & Hi & Ht & _ & Hpl).
      rewrite (Huniq e' e He' He Hi Ht) in Hpl.
      rewrite (leg_ltp_newRow_set r u _ Hset (Hlegs e r He Hr)), Hpl in Hne.
      rewrite (positive_ltp_equals_itself _ Hpos) in Hne. discriminate.
    + assert (Hset : pending_ltp (type_ (snd e)) u <> Undefined) by congruence.
      destruct (I1 _ u _ Hp Hset) as (e' & He' & Hi & Ht & _ & Hpl).
      rewrite (Huniq e' e He' He Hi Ht) in Hpl.
      rewrite (leg_ltp_newRow_set r u _ Hset (Hlegs e r He Hr)), Hpl in Hne.
      rewrite (positive_ltp_equals_itself _ Hpos) in Hne. discriminate.
  - inversion Hrow; subst r'; clear Hrow.
    destruct (Hold Hne) as (u' & Hu' & _). discriminate.
Qed.

Lemma walk_without_change (ticks : gmap string tick) (currentChain : list row)
    (tokenMap : list (string * position)) :
  (forall e, In e tokenMap -> ~ changed ticks currentChain e) ->
  forall p, fold_left (visit ticks currentChain) tokenMap p = p.
Proof.
  induction tokenMap as [|e l IH]; intros H p; [reflexivity|].
  cbn [fold_left].
  destruct (visit_cases ticks currentChain p e) as [[Hch _]|[_ Hv]].
  - exfalso. exact (H e (or_introl eq_refl) Hch).
  - rewrite Hv. apply IH. intros e' He'. apply H. right. exact He'.
Qed.

(** After a due frame, a frame that finds the same ticks and token map
    calls [setChainData] no more. *)
Theorem option_chain_second_frame_is_silent (f1 f2 : frame) (st : refs)
    (currentChain : list row) :
  chainDataRef st = Some currentChain ->
  ~ timestamp f1 - lastUpdate st < THROTTLE_MS ->
  ticksRef f2 = ticksRef f1 ->
  tokenMapRef f2 = tokenMapRef f1 ->
  legs_present (tokenMapRef f1) currentChain ->
  one_token_per_leg (tokenMapRef f1) ->
  published (snd (updateLoop f2 (fst (updateLoop f1 st)))) = [].
Proof.
  intros Hchain Hdue Ht Hm Hlegs Huniq. apply Qltb_nlt in Hdue.
  unfold updateLoop at 2. rewrite Hdue, Hchain.
  assert (Hsame : forall st', chainDataRef st' = Some currentChain ->
            (0 <? size (fold_left
                          (visit (ticksRef f1) currentChain) (tokenMapRef f1) ∅))%nat
            = false \/ currentChain = [] \/ (size (ticksRef f1) =? 0)%nat = true
              \/ (length (tokenMapRef f1) =? 0)%nat = true ->
            published (snd (updateLoop f2 st')) = []).
  { intros st' Hst' Hnone. unfold updateLoop.
    destruct (Qltb (timestamp f2 - lastUpdate st') THROTTLE_MS); [reflexivity|].
    rewrite Hst', Ht, Hm. destruct currentChain as [|r rest]; [reflexivity|].
    destruct (size (ticksRef f1) =? 0)%nat; [reflexivity|].
    destruct (length (tokenMapRef f1) =? 0)%nat; [reflexivity|].
    destruct Hnone as [H|[H|[H|H]]]; try discriminate.
    rewrite H. reflexivity. }
  destruct currentChain as [|r rest]; [apply Hsame; auto|].
  destruct (size (ticksRef f1) =? 0)%nat eqn:Hs; [apply Hsame; auto|].
  destruct (length (tokenMapRef f1) =? 0)%nat eqn:Hl; [apply Hsame; auto|].
  destruct (0 <? size _)%nat eqn:Hp; [|apply Hsame; auto].
  cbn [fst]. unfold updateLoop. cbn [lastUpdate].
  destruct (Qltb (timestamp f2 - timestamp f1) THROTTLE_MS); [reflexivity|].
  cbn [chainDataRef]. rewrite Ht, Hm, Hs, Hl.
  set (p := fold_left (visit (ticksRef f1) (r :: rest)) (tokenMapRef f1) ∅).
  assert (Hq : fold_left (visit (ticksRef f1) (updatedChain (r :: rest) p))
                 (tokenMapRef f1) ∅ = ∅).
  { apply walk_without_change. intros e He.
    apply nothing_changed_after_update; assumption. }
  destruct (updatedChain (r :: rest) p) as [|r' rest'] eqn:Hu; [reflexivity|].
  rewrite Hq. reflexivity.
Qed.

(** The token map that [subscribeToOptionStrikes] builds from a chain meets
    both conditions for that chain. *)
Lemma map_set_In (m : list (string * position)) (k : string) (v : position)
    (e : string * position) :
  In e (map_set m k v) -> In e m \/ e = (k, v).
Proof.
  induction m as [|[k' v'] m IH]; cbn.
  - intros [<-|[]]. right. reflexivity.
  - destruct (String.eqb k' k).
    + intros [<-|H]; auto.
    + intros [<-|H]; auto. destruct (IH H); auto.
Qed.

Lemma add_leg_In (i : nat) (r : row) (t : leg_type)
    (m : list (string * position)) (e : string * position) :
  In e (add_leg i r t m) ->
  In e m
  \/ (index (snd e) = i /\ type_ (snd e) = t
      /\ exists l, match t with call_ => call r | put_ => put r end = Some l
                   /\ instrument_token l = Some (fst e)).
Proof.
  unfold add_leg.
  destruct (match t with call_ => call r | put_ => put r end) as [[tok ltp0]|];
    [|auto].
  destruct tok as [[|c s]|]; auto.
  intros H. apply map_set_In in H. destruct H as [H| ->]; [auto|].
  right. cbn. eauto.
Qed.

Lemma newTokenMap_stands_for (chain : list row) :
  forall (rows : list row) (i : nat) (m : list (string * position)),
    (forall k r, rows !! k = Some r -> chain !! (i + k)%nat = Some r) ->
    (forall e, In e m -> stands_for chain e) ->
    forall e, In e (newTokenMap rows i m) -> stands_for chain e.
Proof.
  induction rows as [|r rest IH]; intros i m Hrows Hm e He; [auto|].
  cbn [newTokenMap] in He. revert He. apply IH.
  - intros k r' Hk. replace (Datatypes.S i + k)%nat with (i + Datatypes.S k)%nat by lia.
    apply Hrows. exact Hk.
  - intros e' He'.
    assert (Hr : chain !! i = Some r).
    { replace i with (i + 0)%nat by lia. apply Hrows. reflexivity. }
    apply add_leg_In in He'. destruct He' as [He'|(Hi & Ht & l & Hl & Htok)].
    + apply add_leg_In in He'. destruct He' as [He'|(Hi & Ht & l & Hl & Htok)].
      * auto.
      * exists r, l. rewrite Hi, Ht. auto.
    + exists r, l. rewrite Hi, Ht. auto.
Qed.

Lemma stands_for_legs_present (tokenMap : list (string * position))
    (chain : list row) :
  (forall e, In e tokenMap -> stands_for chain e) ->
  legs_present tokenMap chain /\ one_token_per_leg tokenMap.
Proof.
  intros H. split.
  - intros e r He Hr. destruct (H e He) as (r' & l & Hr' & Hl & _).
    rewrite Hr in Hr'. inversion Hr'; subst r'. congruence.
  - intros e1 e2 H1 H2 Hi Ht.
    destruct (H e1 H1) as (r1 & l1 & Hr1 & Hl1 & Htok1).
    destruct (H e2 H2) as (r2 & l2 & Hr2 & Hl2 & Htok2).
    rewrite Hi in Hr1. rewrite Hr1 in Hr2. inversion Hr2; subst r2.
    rewrite Ht in Hl1. rewrite Hl1 in Hl2. inversion Hl2; subst l2.
    congruence.
Qed.

Lemma newTokenMap_well_formed (chain : list row) :
  legs_present (newTokenMap chain 0 []) chain
  /\ one_token_per_leg (newTokenMap chain 0 []).
Proof.
  apply stands_for_legs_present.
  apply (newTokenMap_stands_for chain chain 0 []).
  - intros k r H. exact H.
  - intros e [].
Qed.

(** The chain loop over frames that find the token map of the chain itself:
    after a due frame, the same ticks publish nothing. *)
Corollary option_chain_same_ticks_publish_once (f1 f2 : frame) (st : refs)
    (currentChain : list row) :
  chainDataRef st = Some currentChain ->
  tokenMapRef f1 = newTokenMap currentChain 0 [] ->
  ~ timestamp f1 - lastUpdate st < THROTTLE_MS ->
  ticksRef f2 = ticksRef f1 ->
  tokenMapRef f2 = tokenMapRef f1 ->
  published (snd (updateLoop f2 (fst (updateLoop f1 st)))) = [].
Proof.
  intros Hchain Hmap Hdue Ht Hm.
  destruct (newTokenMap_well_formed currentChain) as [Hlegs Huniq].
  rewrite <- Hmap in Hlegs, Huniq.
  exact (option_chain_second_frame_is_silent f1 f2 st currentChain
           Hchain Hdue Ht Hm Hlegs Huniq).
Qed.


(** The same tick on the due frames at 50 ms and 100 ms: the first writes
    its [ltp] into the chain and publishes, the second finds nothing to
    publish. *)
Example option_chain_publishes_same_tick_once :
  published (frames [Sample.chain_frame 50; Sample.chain_frame 100]
               Sample.chain_refs)
  = [Sample.chain_after].
Proof. vm_compute. reflexivity. Qed.

End OptionChainLoop.

(** * Further properties of the order window *)

Section WindowCalls.
Import OpenOrderBottomWindow Run.

Lemma outbound_app (t u : list event) :
  outbound (t ++ u) = outbound t ++ outbound u.
Proof. apply filter_app. Qed.

Lemma outbound_aftermath (P : props) (S : state) (a : string) (E : env) :
  outbound (aftermath P S a E) = [].
Proof.
  unfold aftermath. destruct (server E) as [e|res]; [reflexivity|].
  destruct (rejected res); reflexivity.
Qed.

Lemma outbound_fundsCall (S : state) : outbound (fundsCall S) = fundsCall S.
Proof. unfold fundsCall. destruct (gtb _ _); reflexivity. Qed.

(** The outbound calls of a run of [handleAction], in order: the funds
    service at most once and only before the order service, the order
    service at most once, always at [endpoint] with the session token.  The
    exit and hold flows are never stopped locally: they post exactly one
    request and never ask the funds service. *)
Theorem handleAction_outbound_calls (P : props) (S : state) (E : env)
    (targetStatus : string) :
  (exists pl,
      let post := call_fetch (endpoint P) (token P) pl in
      outbound (fst (handleAction P S "Adjust" targetStatus E)) = []
      \/ outbound (fst (handleAction P S "Adjust" targetStatus E))
         = [call_getFundsData]
      \/ outbound (fst (handleAction P S "Adjust" targetStatus E)) = [post]
      \/ outbound (fst (handleAction P S "Adjust" targetStatus E))
         = [call_getFundsData; post])
  /\ (String.eqb targetStatus "OPEN" = false ->
      outbound (fst (handleAction P S "Adjust" targetStatus E))
      = [call_fetch (endpoint P) (token P)
           (exitPayload P targetStatus (now E))])
  /\ (In call_getFundsData (fst (handleAction P S "Adjust" targetStatus E)) ->
      targetStatus = "OPEN"%string
      /\ gtb (parsedAddLots S) (Num 0) = true
      /\ ~ levels_rejected P S E).
Proof.
  destruct (String.eqb targetStatus "OPEN") eqn:Hts.
  - apply String.eqb_eq in Hts. subst targetStatus.
    split; [|split; [discriminate|]].
    + destruct (levelError P S) as [m|] eqn:HL.
      { exists (openPayload P S).
        rewrite (handleAction_level_error P S E m HL). left. reflexivity. }
      destruct (fundError P S E) as [m|] eqn:HF.
      * exists (openPayload P S).
        rewrite (handleAction_fund_error P S E m HL HF). cbn [fst].
        rewrite !outbound_app, outbound_fundsCall. cbn.
        unfold fundsCall. destruct (gtb _ _); cbn; auto.
      * exists (openPayload P S).
        rewrite (handleAction_open_submits P S E HL HF). cbn [fst].
        rewrite !outbound_app, outbound_fundsCall, outbound_aftermath. cbn.
        unfold fundsCall. destruct (gtb _ _); cbn; auto.
    + intros Hin. split; [reflexivity|].
      destruct (levelError P S) as [m|] eqn:HL.
      { rewrite (handleAction_level_error P S E m HL) in Hin.
        cbn in Hin. intuition discriminate. }
      assert (Hpass : ~ levels_rejected P S E) by (apply levels_pass; exact HL).
      split; [|exact Hpass].
      destruct (gtb (parsedAddLots S) (Num 0)) eqn:Hadd; [reflexivity|].
      exfalso.
      assert (HF : fundError P S E = None) by (unfold fundError; rewrite Hadd; reflexivity).
      rewrite (handleAction_open_submits P S E HL HF) in Hin.
      unfold fundsCall in Hin. rewrite Hadd in Hin. cbn [fst app] in Hin.
      destruct Hin as [Hin|[Hin|[Hin|Hin]]]; try discriminate.
      apply in_app_or in Hin. destruct Hin as [Hin|[Hin|[]]]; [|discriminate].
      unfold aftermath in Hin.
      destruct (server E) as [e|res]; [|destruct (rejected res)];
        cbn in Hin; intuition discriminate.
  - split; [|split].
    + exists (exitPayload P targetStatus (now E)).
      rewrite (handleAction_exit_submits P S E targetStatus Hts). cbn [fst].
      rewrite !outbound_app, outbound_aftermath. cbn. auto.
    + intros _.
      rewrite (handleAction_exit_submits P S E targetStatus Hts). cbn [fst].
      rewrite !outbound_app, outbound_aftermath. reflexivity.
    + intros Hin. exfalso.
      rewrite (handleAction_exit_submits P S E targetStatus Hts) in Hin.
      cbn [fst app] in Hin.
      destruct Hin as [Hin|[Hin|[Hin|Hin]]]; try discriminate.
      apply in_app_or in Hin. destruct Hin as [Hin|[Hin|[]]]; [|discriminate].
      unfold aftermath in Hin.
      destruct (server E) as [e|res]; [|destruct (rejected res)];
        cbn in Hin; intuition discriminate.
Qed.

End WindowCalls.

Section WindowOutcome.
Import OpenOrderBottomWindow Run.

Lemma aftermath_dispatch (P : props) (S : state) (a : string) (E : env)
    (o : option Order.t) :
  In (dispatch_orders_changed o) (aftermath P S a E)
  <-> exists res, server E = fetch_ok res /\ rejected res = false
                  /\ o = updated res.
Proof.
  unfold aftermath. destruct (server E) as [e|res].
  - split; [cbn; intuition discriminate | intros (r & H & _); discriminate].
  - destruct (rejected res) eqn:Hr.
    + split; [cbn; intuition discriminate|].
      intros (r & H & Hr' & _). inversion H; subst r. congruence.
    + split.
      * cbn. intros [H|[H|[H|[]]]]; try discriminate.
        inversion H. eauto.
      * intros (r & H & _ & ->). inversion H; subst r. cbn. auto.
Qed.

Lemma aftermath_close (P : props) (S : state) (a : string) (E : env) :
  In schedule_onClose (aftermath P S a E)
  <-> exists res, server E = fetch_ok res /\ rejected res = false.
Proof.
  unfold aftermath. destruct (server E) as [e|res].
  - split; [cbn; intuition discriminate | intros (r & H & _); discriminate].
  - destruct (rejected res) eqn:Hr.
    + split; [cbn; intuition discriminate|].
      intros (r & H & Hr'). inversion H; subst r. congruence.
    + split; [eauto | cbn; auto].
Qed.

Lemma order_mutations_aftermath (P : props) (S : state) (a : string)
    (E : env) :
  order_mutations (aftermath P S a E) = [].
Proof.
  unfold aftermath. destruct (server E) as [e|res]; [reflexivity|].
  destruct (rejected res); reflexivity.
Qed.

Lemma fundsCall_no_broadcast (S : state) (e : event) :
  In e (fundsCall S) -> e = call_getFundsData.
Proof.
  unfold fundsCall. destruct (gtb _ _); cbn; intuition.
Qed.

(** The "orders:changed" event is broadcast, and the window scheduled to
    close, exactly when the mutation was posted and the order service
    accepted it ([res.ok], and [body.success] not [false]); the event then
    carries the order of the reply.  No rejection, local or remote, and no
    network failure broadcasts anything. *)
Theorem orders_changed_iff_accepted (P : props) (S : state) (E : env)
    (targetStatus : string) :
  (forall o,
      In (dispatch_orders_changed o)
         (fst (handleAction P S "Adjust" targetStatus E))
      <-> order_mutations (fst (handleAction P S "Adjust" targetStatus E))
          <> []
          /\ exists res, server E = fetch_ok res /\ rejected res = false
                          /\ o = updated res)
  /\ (In schedule_onClose (fst (handleAction P S "Adjust" targetStatus E))
      <-> order_mutations (fst (handleAction P S "Adjust" targetStatus E))
          <> []
          /\ exists res, server E = fetch_ok res /\ rejected res = false).
Proof.
  assert (Hrej : forall m pre,
             (forall e, In e pre -> e = call_getFundsData) ->
             order_mutations
               ([setSubmitting true; setFeedback None]
                  ++ pre ++ alert m ++ [setSubmitting false]) = []
             /\ forall e, In e ([setSubmitting true; setFeedback None]
                                  ++ pre ++ alert m ++ [setSubmitting false]) ->
                          (forall o, e <> dispatch_orders_changed o)
                          /\ e <> schedule_onClose).
  { intros m pre Hpre. split.
    - rewrite !order_mutations_app. cbn. rewrite app_nil_r.
      induction pre as [|x pre IH]; [reflexivity|].
      rewrite (Hpre x (or_introl eq_refl)). cbn. apply IH.
      intros e He. apply Hpre. right. exact He.
    - intros e He. rewrite !in_app_iff in He. cbn in He.
      destruct He as [[<-|[<-|[]]]|[He|[[<-|[<-|[]]]|[<-|[]]]]];
        try (split; [intros o|]; discriminate).
      rewrite (Hpre e He). split; [intros o|]; discriminate. }
  assert (Hsub : forall pre pl,
             (forall e, In e pre -> e = call_getFundsData) ->
             let t := [setSubmitting true; setFeedback None]
                        ++ pre ++ [call_fetch (endpoint P) (token P) pl]
                        ++ aftermath P S "Adjust" E ++ [setSubmitting false] in
             order_mutations t <> []
             /\ (forall o, In (dispatch_orders_changed o) t
                           <-> In (dispatch_orders_changed o)
                                  (aftermath P S "Adjust" E))
             /\ (In schedule_onClose t
                 <-> In schedule_onClose (aftermath P S "Adjust" E))).
  { intros pre pl Hpre t. subst t. split; [|split].
    - rewrite !order_mutations_app. cbn.
      destruct (order_mutations pre); discriminate.
    - intros o. rewrite !in_app_iff. cbn. split; [|auto].
      intros [[H|[H|[]]]|[H|[[H|[]]|[H|[H|[]]]]]]; try discriminate; auto.
      apply Hpre in H. discriminate.
    - rewrite !in_app_iff. cbn. split; [|auto].
      intros [[H|[H|[]]]|[H|[[H|[]]|[H|[H|[]]]]]]; try discriminate; auto.
      apply Hpre in H. discriminate. }
  assert (Hcase :
            (exists m pre, (forall e, In e pre -> e = call_getFundsData)
               /\ fst (handleAction P S "Adjust" targetStatus E)
                  = [setSubmitting true; setFeedback None]
                      ++ pre ++ alert m ++ [setSubmitting false])
            \/ (exists pre pl, (forall e, In e pre -> e = call_getFundsData)
                  /\ fst (handleAction P S "Adjust" targetStatus E)
                     = [setSubmitting true; setFeedback None]
                         ++ pre ++ [call_fetch (endpoint P) (token P) pl]
                         ++ aftermath P S "Adjust" E ++ [setSubmitting false])).
  { destruct (String.eqb targetStatus "OPEN") eqn:Hts.
    - apply String.eqb_eq in Hts. subst targetStatus.
      destruct (levelError P S) as [m|] eqn:HL.
      { left. exists m, []. split; [intros e []|].
        rewrite (handleAction_level_error P S E m HL). reflexivity. }
      destruct (fundError P S E) as [m|] eqn:HF.
      + left. exists m, (fundsCall S). split; [apply fundsCall_no_broadcast|].
        rewrite (handleAction_fund_error P S E m HL HF). reflexivity.
      + right. exists (fundsCall S), (openPayload P S).
        split; [apply fundsCall_no_broadcast|].
        rewrite (handleAction_open_submits P S E HL HF). reflexivity.
    - right. exists [], (exitPayload P targetStatus (now E)).
      split; [intros e []|].
      rewrite (handleAction_exit_submits P S E targetStatus Hts). reflexivity. }
  destruct Hcase as [(m & pre & Hpre & ->)|(pre & pl & Hpre & ->)].
  - destruct (Hrej m pre Hpre) as [Hnone Hno]. rewrite Hnone. split.
    + intros o. split.
      * intros Hin. exfalso. exact (proj1 (Hno _ Hin) o eq_refl).
      * intros [H _]. contradiction.
    + split.
      * intros Hin. exfalso. exact (proj2 (Hno _ Hin) eq_refl).
      * intros [H _]. contradiction.
  - destruct (Hsub pre pl Hpre) as (Hne & Hd & Hc). split.
    + intros o. rewrite Hd, aftermath_dispatch. intuition.
    + rewrite Hc, aftermath_close. intuition.
Qed.

End WindowOutcome.

Section WindowState.
Import OpenOrderBottomWindow Run.


(** The price editor.  An input that is present, numeric and not negative
    posts exactly one request, whose only order field is [price], the number
    typed; [submitting] is raised before the request and cleared after it,
    and the editor closes only if the service accepts.  A blank, non-numeric
    or negative input shows the invalid-price error and does nothing else:
    no call, and [submitting] is not touched. *)
Theorem handlePriceSave_behaviour (P : props) (S : state) (E : env) :
  (forall x,
      editPriceInput S = Entered (Num x) -> 0 <= x ->
      exists pl rest,
        fst (handlePriceSave P S E)
        = setSubmitting true
            :: call_fetch (endpoint P) (token P) pl
            :: rest ++ [setSubmitting false]
        /\ outbound (fst (handlePriceSave P S E))
           = [call_fetch (endpoint P) (token P) pl]
        /\ Payload.order_id pl = orderId P
        /\ Payload.price pl = Some (Num x)
        /\ Payload.lots pl = None /\ Payload.quantity pl = None
        /\ Payload.stop_loss pl = None /\ Payload.target pl = None
        /\ Payload.order_status pl = None /\ Payload.product pl = None
        /\ (In (setIsEditingPrice false) rest
            <-> exists res, server E = fetch_ok res /\ rejected res = false))
  /\ ((editPriceInput S = Blank \/ editPriceInput S = Entered NaN
       \/ exists x, editPriceInput S = Entered (Num x) /\ x < 0) ->
      handlePriceSave P S E = ([shows InvalidPrice], Returned)
      /\ after S (fst (handlePriceSave P S E))
         = apply S (shows InvalidPrice)).
Proof.
  split.
  - intros x Hx Hpos.
    assert (Hv : price_input_invalid S = false).
    { unfold price_input_invalid. rewrite Hx. cbn.
      apply Qltb_nlt. apply Qle_not_lt. exact Hpos. }
    rewrite (handlePriceSave_submits P S E Hv). cbn [fst].
    exists (pricePayload P S). eexists. split; [reflexivity|].
    split.
    { cbn. destruct (server E) as [e|res]; [|destruct (rejected res)];
        reflexivity. }
    cbn [Payload.order_id Payload.price Payload.lots Payload.quantity
         Payload.stop_loss Payload.target Payload.order_status
         Payload.product pricePayload].
    rewrite Hx. repeat (split; [reflexivity|]).
    destruct (server E) as [e|res].
    + split; [cbn; intuition discriminate|intros (r & H & _); discriminate].
    + destruct (rejected res) eqn:Hr.
      * split; [cbn; intuition discriminate|].
        intros (r & H & Hr'). inversion H; subst r. congruence.
      * split; [eauto|]. intros _. cbn. auto.
  - intros H.
    assert (Hv : price_input_invalid S = true).
    { unfold price_input_invalid.
      destruct H as [->|[->|(x & -> & Hneg)]]; [reflexivity|reflexivity|].
      cbn. apply Qltb_lt in Hneg. rewrite Hneg. reflexivity. }
    rewrite (handlePriceSave_invalid P S E Hv). split; reflexivity.
Qed.

End WindowState.

Section WindowInputs.
Import OpenOrderBottomWindow Run.

Lemma parseInt_whole (s : string) :
  parseInt s = NaN \/ exists z, parseInt s = Num (inject_Z z).
Proof.
  unfold parseInt.
  destruct (match trimStart s with
            | String "-"%char r => (true, r)
            | String "+"%char r => (false, r)
            | _ => (false, trimStart s)
            end) as [neg body].
  destruct (digits body None) as [z|]; [right|left; reflexivity].
  eexists. reflexivity.
Qed.

(** The lots to add are read with [parseInt] and clamped at 0: they are a
    whole number, never negative (a fraction is cut off, a negative entry
    counts as 0), or [NaN] when the text does not start with a digit; a
    blank box counts as 0. *)
Theorem parsedAddLots_whole (S : state) :
  (parsedAddLots S = NaN
   \/ exists z, (0 <= z)%Z /\ parsedAddLots S = Num (inject_Z z))
  /\ (trim (addLotInput S) = EmptyString -> parsedAddLots S = Num 0).
Proof.
  split.
  - unfold parsedAddLots.
    destruct (parseInt_whole (str_or (trim (addLotInput S)) "0")) as [->|(z & ->)].
    + left. reflexivity.
    + right. cbn [max_const].
      destruct (Qle_bool 0 (inject_Z z)) eqn:Hle.
      * exists z. split; [|reflexivity].
        apply Qle_bool_iff in Hle. rewrite Zle_Qle. exact Hle.
      * exists 0%Z. split; [lia|reflexivity].
  - intros H. unfold parsedAddLots. rewrite H. reflexivity.
Qed.

(** Text such as ".5" in the add-lot box reads as [NaN].  The flow then
    takes it for "no lots added": it skips the fund check, and the mutation
    it posts carries [NaN] for both lots and quantity, with the price left
    at the existing average. *)
Theorem unreadable_lots_are_posted (P : props) (S : state) (E : env) :
  parsedAddLots S = NaN ->
  ~ levels_rejected P S E ->
  outbound (fst (handleAction P S "Adjust" "OPEN" E))
  = [call_fetch (endpoint P) (token P) (openPayload P S)]
  /\ Payload.lots (openPayload P S) = Some NaN
  /\ Payload.quantity (openPayload P S) = Some NaN
  /\ Payload.price (openPayload P S) = Some (toFixed 2 (avg P)).
Proof.
  intros Hnan HL. apply levels_pass in HL.
  assert (HF : fundError P S E = None).
  { unfold fundError. rewrite Hnan. reflexivity. }
  rewrite (handleAction_open_submits P S E HL HF). cbn [fst].
  rewrite !outbound_app, outbound_aftermath.
  unfold fundsCall, openPayload, computedAvg, targetTotalQuantity,
    targetTotalLots.
  rewrite Hnan. cbn.
  destruct (currentLots P); repeat split; reflexivity.
Qed.

Lemma unreadable_lots_are_posted_witness :
  parsedAddLots (Sample.form ".5" Blank Blank) = NaN
  /\ outbound (fst (handleAction Sample.buy_at_120
                      (Sample.form ".5" Blank Blank) "Adjust" "OPEN"
                      Sample.rich))
     = [call_fetch (endpoint Sample.buy_at_120) (token Sample.buy_at_120)
          (openPayload Sample.buy_at_120 (Sample.form ".5" Blank Blank))]
  /\ Payload.lots (openPayload Sample.buy_at_120 (Sample.form ".5" Blank Blank))
     = Some NaN.
Proof.
  split; [reflexivity|].
  destruct (unreadable_lots_are_posted Sample.buy_at_120
              (Sample.form ".5" Blank Blank) Sample.rich)
    as (H1 & H2 & _).
  - reflexivity.
  - apply levels_pass. reflexivity.
  - split; [exact H1 | exact H2].
Defined.

Lemma lotSize_nonzero (P : props) : ~ lotSize P == 0.
Proof.
  unfold lotSize, or_const.
  destruct (or_else _ _) as [|q]; [discriminate|].
  destruct (Qeq_bool q 0) eqn:H; [discriminate|].
  intros Hq. apply Qeq_bool_neq in H. contradiction.
Qed.

(** The lot size falls back to the stock's lot size and then to 1, so it is
    never zero; adding lots to an order that holds a non-negative number of
    lots therefore never divides by zero: the new average is a number. *)
Theorem computedAvg_is_a_number (P : props) (S : state) (q a c n : Q) :
  qty P = Num q -> avg P = Num a -> currentLots P = Num c ->
  parsedAddLots S = Num n ->
  0 <= c -> 0 < n ->
  ~ lotSize P == 0
  /\ computedAvg P S
     = Num ((q * a + n * lotSize P * currentPrice P) / ((c + n) * lotSize P)).
Proof.
  intros Hq Ha Hc Hn Hc0 Hn0. split; [apply lotSize_nonzero|].
  apply computedAvg_adding; try assumption.
  intros Hz. apply Qmult_integral in Hz. destruct Hz as [Hz|Hz].
  - assert (0 < c + n).
    { apply Qlt_le_trans with (0 + n).
      - rewrite Qplus_0_l. exact Hn0.
      - apply Qplus_le_l. exact Hc0. }
    rewrite Hz in H. discriminate.
  - exact (lotSize_nonzero P Hz).
Qed.

Lemma computedAvg_is_a_number_witness :
  0 <= 3 /\ 0 < 1
  /\ computedAvg Sample.buy_at_120 (Sample.form "1" Blank Blank)
     = Num ((75 * 100 + 1 * lotSize Sample.buy_at_120
                        * currentPrice Sample.buy_at_120)
            / ((3 + 1) * lotSize Sample.buy_at_120)).
Proof.
  split; [discriminate|]. split; [reflexivity|].
  refine (proj2 (computedAvg_is_a_number Sample.buy_at_120
                   (Sample.form "1" Blank Blank) 75 100 3 1 _ _ _ _ _ _));
    try reflexivity.
  discriminate.
Defined.

End WindowInputs.

Section WindowFormats.
Import OpenOrderBottomWindow Run.

Lemma half_unit (d : nat) (k : Z) :
  scale d == inject_Z k -> (0 < k)%Z ->
  (1 # 2) / scale d == 1 # (2 * Z.to_pos k).
Proof.
  intros Hs Hk. rewrite Hs. destruct k as [|p|p]; try lia.
  unfold Qeq, Qdiv, Qinv, Qmult, inject_Z. cbn. lia.
Qed.

(** What goes out is rounded: the [price] of an Adjust->OPEN mutation is a
    whole number of hundredths within 0.005 of the computed average, and
    the [closed_ltp] of an exit or hold mutation a whole number of
    ten-thousandths within 0.00005 of the jobbing-adjusted price (it is
    never [NaN]: a missing price goes out as 0). *)
Theorem posted_prices_are_rounded (P : props) (S : state) :
  match computedAvg P S with
  | NaN => Payload.price (openPayload P S) = Some NaN
  | Num x =>
      exists p z,
        Payload.price (openPayload P S) = Some (Num p)
        /\ p == inject_Z z / 100
        /\ Qabs (p - x) <= 1 # 200
  end
  /\ forall targetStatus closed_at,
      exists c z,
        Payload.closed_ltp (exitPayload P targetStatus closed_at)
        = Some (Num c)
        /\ c == inject_Z z / 10000
        /\ match closedLtp P with
           | Num x => Qabs (c - x) <= 1 # 20000
           | NaN => c == 0
           end.
Proof.
  split.
  - cbn [Payload.price openPayload]. destruct (computedAvg P S) as [|x].
    + reflexivity.
    + destruct (toFixedQ_multiple 2 x) as (z & Hz).
      exists (toFixedQ 2 x), z. split; [reflexivity|]. split; [exact Hz|].
      pose proof (toFixedQ_close 2 x) as H.
      rewrite (half_unit 2 100) in H; [exact H | reflexivity | lia].
  - intros targetStatus closed_at.
    cbn [Payload.closed_ltp exitPayload].
    destruct (toFixedQ_multiple 4 (or_const (closedLtp P) 0)) as (z & Hz).
    exists (toFixedQ 4 (or_const (closedLtp P) 0)), z.
    split; [reflexivity|]. split; [exact Hz|].
    destruct (closedLtp P) as [|x].
    + reflexivity.
    + pose proof (toFixedQ_close 4 (or_const (Num x) 0)) as H.
      rewrite (half_unit 4 10000) in H; [| reflexivity | lia].
      pose proof (or_const_0 (Num x)) as Hy. cbn beta iota in Hy.
      set (c := toFixedQ 4 (or_const (Num x) 0)) in *.
      clearbody c. rewrite Hy in H. exact H.
Qed.

Lemma stripSlash_app_slash (s : string) :
  stripSlash (s ++ "/") = s.
Proof.
  induction s as [|c s IH]; [reflexivity|].
  destruct s as [|c' s']; [reflexivity|].
  change (String c (stripSlash (String c' s' ++ "/")) = String c (String c' s')).
  rewrite IH. reflexivity.
Qed.

Lemma stripSlash_cases (s : string) :
  stripSlash s = s \/ s = (stripSlash s ++ "/")%string.
Proof.
  induction s as [|c s IH]; [left; reflexivity|].
  destruct s as [|c' s'].
  - cbn [stripSlash]. destruct (Ascii.eqb c "/") eqn:Hc; [|left; reflexivity].
    right. apply Ascii.eqb_eq in Hc. subst c. reflexivity.
  - change (stripSlash (String c (String c' s')))
      with (String c (stripSlash (String c' s'))).
    destruct IH as [IH|IH].
    + left. rewrite IH. reflexivity.
    + right. change (String c (String c' s')
                     = String c (stripSlash (String c' s') ++ "/")).
      rewrite <- IH. reflexivity.
Qed.

(** [apiBase.replace(/\/$/, '')] drops one trailing slash and nothing else,
    so a base URL written with or without it reaches the same endpoint. *)
Theorem endpoint_ignores_trailing_slash (P : props) (base : string) :
  (apiBase P = (base ++ "/")%string ->
   endpoint P = (base ++ "/api/orders/updateOrder")%string)
  /\ (stripSlash (apiBase P) = apiBase P
      \/ apiBase P = (stripSlash (apiBase P) ++ "/")%string).
Proof.
  split; [|apply stripSlash_cases].
  intros H. unfold endpoint. rewrite H, stripSlash_app_slash. reflexivity.
Qed.

End WindowFormats.

(** * Further properties of the throttled loops *)

Section OrderListTicks.
Import OpenOrder.

Lemma walk_lookup (ticksMap : gmap string tick) (data : list Order.t) :
  forall (acc : gmap string tick) (b : bool) (k : string),
    fst (fold_left (visit ticksMap) data (acc, b)) !! k
    = if existsb (fun inst => String.eqb k (tickKey inst)) data
      then match ticksMap !! k with Some t => Some t | None => acc !! k end
      else acc !! k.
Proof.
  induction data as [|inst rest IH]; intros acc b k; [reflexivity|].
  cbn [fold_left existsb].
  assert (Hstep : exists b',
             visit ticksMap (acc, b) inst
             = (match ticksMap !! tickKey inst with
                | Some t => <[tickKey inst := t]> acc
                | None => acc
                end, b')).
  { unfold visit. destruct (ticksMap !! tickKey inst); eexists; reflexivity. }
  destruct Hstep as (b' & ->). rewrite IH.
  destruct (String.eqb_spec k (tickKey inst)) as [->|Hne]; cbn [orb].
  - destruct (ticksMap !! tickKey inst) as [t|] eqn:Ht.
    + rewrite lookup_insert_eq. destruct (existsb _ rest); reflexivity.
    + destruct (existsb _ rest); reflexivity.
  - assert (Hk : match ticksMap !! tickKey inst with
                 | Some t => <[tickKey inst := t]> acc
                 | None => acc
                 end !! k = acc !! k).
    { destruct (ticksMap !! tickKey inst); [|reflexivity].
      apply lookup_insert_ne. congruence. }
    rewrite Hk. reflexivity.
Qed.

Lemma walk_flag (ticksMap : gmap string tick) (data : list Order.t) :
  forall (acc : gmap string tick) (b : bool),
    snd (fold_left (visit ticksMap) data (acc, b))
    = b || existsb (fun inst => bool_decide (is_Some (ticksMap !! tickKey inst)))
             data.
Proof.
  induction data as [|inst rest IH]; intros acc b.
  - cbn. rewrite orb_false_r. reflexivity.
  - cbn [fold_left existsb]. unfold visit at 2.
    destruct (ticksMap !! tickKey inst) as [t|] eqn:Ht.
    + rewrite IH. rewrite bool_decide_eq_true_2 by eauto.
      rewrite orb_true_r. reflexivity.
    + rewrite IH. rewrite bool_decide_eq_false_2.
      * reflexivity.
      * intros [x Hx]. discriminate.
Qed.

(** What the order-list loop publishes.  A call of [setLiveTicks] happens
    only on a due frame; the object it publishes holds, for every open
    order whose instrument has a tick in the store, that tick under the
    order's token, and nothing else: ticks of instruments that are not
    displayed stay out.  On a due frame with at least one such order the
    loop does publish, and every call ends by requesting the next frame. *)
Theorem order_list_publishes_displayed_ticks (f : frame) (lastUpdate : Q) :
  (forall newTicks,
      In (setLiveTicks newTicks) (snd (updateLoop f lastUpdate)) ->
      exists ticksMap data,
        ticksRef f = Some ticksMap /\ instrumentDataRef f = Some data
        /\ ~ timestamp f - lastUpdate < THROTTLE_MS
        /\ fst (updateLoop f lastUpdate) = timestamp f
        /\ forall k t,
            newTicks !! k = Some t
            <-> ticksMap !! k = Some t
                /\ exists inst, In inst data /\ tickKey inst = k)
  /\ (forall ticksMap data inst,
         ticksRef f = Some ticksMap -> instrumentDataRef f = Some data ->
         ~ timestamp f - lastUpdate < THROTTLE_MS ->
         In inst data -> is_Some (ticksMap !! tickKey inst) ->
         exists newTicks,
           snd (updateLoop f lastUpdate)
           = [setLiveTicks newTicks; requestAnimationFrame])
  /\ exists effects,
      snd (updateLoop f lastUpdate) = effects ++ [requestAnimationFrame]
      /\ ~ In requestAnimationFrame effects.
Proof.
  assert (Hkeys : forall ticksMap data k t,
             fst (fold_left (visit ticksMap) data (∅, false)) !! k = Some t
             <-> ticksMap !! k = Some t
                 /\ exists inst, In inst data /\ tickKey inst = k).
  { intros ticksMap data k t. rewrite walk_lookup, lookup_empty.
    destruct (existsb _ data) eqn:Hex.
    - apply existsb_exists in Hex. destruct Hex as (inst & Hin & Heq).
      apply String.eqb_eq in Heq.
      destruct (ticksMap !! k); split; try discriminate.
      + intros H. split; [exact H|]. eauto.
      + intros [H _]. exact H.
      + intros [H _]. discriminate.
    - split; [discriminate|]. intros (_ & inst & Hin & Heq).
      assert (existsb (fun inst => String.eqb k (tickKey inst)) data = true).
      { apply existsb_exists. exists inst. split; [exact Hin|].
        apply String.eqb_eq. congruence. }
      congruence. }
  unfold updateLoop.
  destruct (Qltb (timestamp f - lastUpdate) THROTTLE_MS) eqn:Hdue.
  { split; [|split].
    - intros nt [H|[]]. discriminate.
    - intros ? ? ? _ _ H. apply Qltb_nlt in H. congruence.
    - exists []. split; [reflexivity|]. intros []. }
  apply Qltb_nlt in Hdue.
  destruct (ticksRef f) as [ticksMap|].
  2:{ split; [|split].
      - intros nt [H|[]]. discriminate.
      - intros ? ? ? H. discriminate.
      - exists []. split; [reflexivity|]. intros []. }
  destruct (instrumentDataRef f) as [[|inst0 rest]|].
  1,3: split; [|split];
       [ intros nt [H|[]]; discriminate
       | intros ? ? ? _ H; inversion H; subst; intros _ []
       | exists []; split; [reflexivity|]; intros [] ].
  pose proof (Hkeys ticksMap (inst0 :: rest)) as Hk.
  pose proof (walk_flag ticksMap (inst0 :: rest) ∅ false) as Hflag.
  destruct (fold_left (visit ticksMap) (inst0 :: rest) (∅, false))
    as [newTicks hasUpdates].
  cbn [fst snd orb] in *. destruct hasUpdates.
  - split; [|split].
    + intros nt [H|[H|[]]]; [|discriminate]. inversion H; subst nt.
      exists ticksMap, (inst0 :: rest). auto.
    + intros tm data inst H1 H2 _ _ _. eauto.
    + exists [setLiveTicks newTicks]. split; [reflexivity|].
      intros [H|[]]. discriminate.
  - split; [|split].
    + intros nt [H|[]]. discriminate.
    + intros tm data inst H1 H2 _ Hin Hsome. exfalso.
      inversion H1; subst tm. inversion H2; subst data.
      symmetry in Hflag. rewrite <- not_true_iff_false in Hflag.
      apply Hflag. apply existsb_exists. exists inst. split; [exact Hin|].
      apply bool_decide_eq_true_2. exact Hsome.
    + exists []. split; [reflexivity|]. intros [].
Qed.

End OrderListTicks.

Section Spacing.
Import Throttle.

Lemma order_list_step (f : OpenOrder.frame) (lastUpdate : Q) :
  (OpenOrder.published (snd (OpenOrder.updateLoop f lastUpdate)) = []
   /\ fst (OpenOrder.updateLoop f lastUpdate) = lastUpdate)
  \/ (exists newTicks,
         OpenOrder.published (snd (OpenOrder.updateLoop f lastUpdate))
         = [newTicks]
         /\ fst (OpenOrder.updateLoop f lastUpdate) = OpenOrder.timestamp f
         /\ ~ OpenOrder.timestamp f - lastUpdate < OpenOrder.THROTTLE_MS).
Proof.
  unfold OpenOrder.updateLoop.
  destruct (Qltb _ OpenOrder.THROTTLE_MS) eqn:Hdue; [left; split; reflexivity|].
  apply Qltb_nlt in Hdue.
  destruct (OpenOrder.ticksRef f) as [ticksMap|]; [|left; split; reflexivity].
  destruct (OpenOrder.instrumentDataRef f) as [[|inst rest]|];
    try (left; split; reflexivity).
  destruct (fold_left _ _ _) as [newTicks [|]].
  - right. exists newTicks. repeat split. exact Hdue.
  - left. split; reflexivity.
Qed.

(** The order-list loop publishes at most once per throttle interval: every
    call of [setLiveTicks] comes at least 200 ms of frame time after the one
    before it (after [lastUpdate] for the first), whatever the frames
    bring. *)
Theorem order_list_publications_are_spaced (fs : list OpenOrder.frame) :
  forall lastUpdate,
    spaced OpenOrder.THROTTLE_MS lastUpdate (order_list_times fs lastUpdate)
    /\ length (order_list_times fs lastUpdate)
       = length (OpenOrder.published (OpenOrder.frames fs lastUpdate)).
Proof.
  induction fs as [|f fs IH]; intros lastUpdate; [split; [exact I|reflexivity]|].
  cbn [order_list_times OpenOrder.frames].
  destruct (order_list_step f lastUpdate) as [[Hp Hl]|(nt & Hp & Hl & Hdue)];
    destruct (OpenOrder.updateLoop f lastUpdate) as [lu' es];
    cbn [fst snd] in *; subst lu';
    unfold OpenOrder.published in *; rewrite flat_map_app, Hp;
    destruct (IH lastUpdate) as [IH1 IH2];
    destruct (IH (OpenOrder.timestamp f)) as [IH3 IH4].
  - split; assumption.
  - split; [split; assumption|]. cbn. rewrite IH4. reflexivity.
Qed.

Lemma option_chain_step (f : useOptionChain.frame) (st : useOptionChain.refs) :
  (useOptionChain.published (snd (useOptionChain.updateLoop f st)) = []
   /\ fst (useOptionChain.updateLoop f st) = st)
  \/ (exists updated,
         useOptionChain.published (snd (useOptionChain.updateLoop f st))
         = [updated]
         /\ fst (useOptionChain.updateLoop f st)
            = {| useOptionChain.chainDataRef := Some updated;
                 useOptionChain.lastUpdate := useOptionChain.timestamp f |}
         /\ ~ useOptionChain.timestamp f - useOptionChain.lastUpdate st
              < useOptionChain.THROTTLE_MS).
Proof.
  unfold useOptionChain.updateLoop.
  destruct (Qltb _ useOptionChain.THROTTLE_MS) eqn:Hdue;
    [left; split; reflexivity|].
  apply Qltb_nlt in Hdue.
  destruct (useOptionChain.chainDataRef st) as [[|r rest]|];
    try (left; split; reflexivity).
  destruct (size _ =? 0)%nat; [left; split; reflexivity|].
  destruct (length _ =? 0)%nat; [left; split; reflexivity|].
  destruct (0 <? size _)%nat.
  - right. eexists. repeat split. exact Hdue.
  - left. split; reflexivity.
Qed.

(** The option-chain loop publishes at most once per throttle interval:
    every call of [setChainData] comes at least 50 ms of frame time after
    the one before it, and the chain it publishes is the one kept in
    [chainDataRef] for the next frame. *)
Theorem option_chain_publications_are_spaced (fs : list useOptionChain.frame) :
  forall st,
    spaced useOptionChain.THROTTLE_MS (useOptionChain.lastUpdate st)
      (option_chain_times fs st)
    /\ length (option_chain_times fs st)
       = length (useOptionChain.published (useOptionChain.frames fs st)).
Proof.
  induction fs as [|f fs IH]; intros st; [split; [exact I|reflexivity]|].
  cbn [option_chain_times useOptionChain.frames].
  destruct (option_chain_step f st) as [[Hp Hl]|(c & Hp & Hl & Hdue)];
    destruct (useOptionChain.updateLoop f st) as [st' es];
    cbn [fst snd] in *; subst st';
    unfold useOptionChain.published in *; rewrite flat_map_app, Hp.
  - destruct (IH st) as [IH1 IH2]. split; assumption.
  - destruct (IH {| useOptionChain.chainDataRef := Some c;
                    useOptionChain.lastUpdate := useOptionChain.timestamp f |})
      as [IH1 IH2].
    cbn [useOptionChain.lastUpdate] in IH1.
    split; [split; assumption|]. cbn. rewrite IH2. reflexivity.
Qed.

End Spacing.

Section ChainUpdate.
Import useOptionChain Change Legs.

Lemma pending_origin (ticks : gmap string tick) (currentChain : list row)
    (tokenMap : list (string * position)) :
  forall (p : gmap nat updates) (i : nat) (u : updates) (t : leg_type),
    fold_left (visit ticks currentChain) tokenMap p !! i = Some u ->
    pending_ltp t u <> Undefined ->
    (exists u0, p !! i = Some u0 /\ pending_ltp t u0 = pending_ltp t u)
    \/ exists e,
        In e tokenMap /\ index (snd e) = i /\ type_ (snd e) = t
        /\ changed ticks currentChain e
        /\ pending_ltp t u = tick_ltp ticks (fst e).
Proof.
  induction tokenMap as [|e l IH]; intros p i u t Hu Hdef.
  - left. eauto.
  - cbn [fold_left] in Hu.
    destruct (IH _ _ _ _ Hu Hdef) as [(u0 & Hu0 & Heq)|(e' & He' & H)].
    2:{ right. exists e'. split; [right; exact He'|exact H]. }
    destruct (visit_cases ticks currentChain p e) as [[Hch Hv]|[Hch Hv]];
      rewrite Hv in Hu0; clear Hv.
    2:{ left. eauto. }
    destruct (decide (index (snd e) = i)) as [<-|Hne].
    2:{ rewrite lookup_insert_ne in Hu0 by assumption. left. eauto. }
    rewrite lookup_insert_eq in Hu0. inversion Hu0; subst u0; clear Hu0.
    destruct (type_ (snd e)) eqn:Ht, t; cbn in Heq.
    + right. exists e. split; [left; reflexivity|]. auto.
    + left. destruct (p !! index (snd e)) as [u1|]; cbn in Heq.
      * eauto.
      * exfalso. apply Hdef. symmetry. exact Heq.
    + left. destruct (p !! index (snd e)) as [u1|]; cbn in Heq.
      * eauto.
      * exfalso. apply Hdef. symmetry. exact Heq.
    + right. exists e. split; [left; reflexivity|]. auto.
Qed.

Lemma newRow_leg (r : row) (u : updates) (t : leg_type) :
  strike (newRow r u) = strike r
  /\ leg_token t (newRow r u) = leg_token t r
  /\ (leg_ltp (newRow r u) t = leg_ltp r t
      \/ (pending_ltp t u <> Undefined
          /\ leg_ltp (newRow r u) t = pending_ltp t u)).
Proof.
  unfold leg_token, leg_of, leg_ltp, newRow, pending_ltp.
  destruct u as [cu pu], r as [s c p]. cbn.
  destruct t; [destruct cu eqn:Hu, c as [l|] | destruct pu eqn:Hu, p as [l|]];
    cbn; repeat split; auto; right; split; congruence.
Qed.

(** A publication of the option-chain loop changes prices only.  The chain
    passed to [setChainData] is the one kept for the next frame; it has the
    rows of the current chain, with the same strikes and the same legs and
    tokens; and a leg's [ltp] is either what it was or the [ltp] of the tick
    of a token mapped to that leg, which is then a positive number that
    differs from the old one. *)
Theorem option_chain_update_touches_only_ltp (f : frame) (st : refs)
    (updated : list row) :
  In (setChainData updated) (snd (updateLoop f st)) ->
  exists currentChain,
    chainDataRef st = Some currentChain
    /\ chainDataRef (fst (updateLoop f st)) = Some updated
    /\ length updated = length currentChain
    /\ forall i r,
        currentChain !! i = Some r ->
        exists r',
          updated !! i = Some r'
          /\ strike r' = strike r
          /\ forall t,
              leg_token t r' = leg_token t r
              /\ (leg_ltp r' t = leg_ltp r t
                  \/ exists e,
                      In e (tokenMapRef f)
                      /\ index (snd e) = i /\ type_ (snd e) = t
                      /\ leg_ltp r' t = tick_ltp (ticksRef f) (fst e)
                      /\ gtb (Number (leg_ltp r' t)) (Num 0) = true
                      /\ strict_eqb (leg_ltp r t) (leg_ltp r' t) = false).
Proof.
  unfold updateLoop.
  destruct (Qltb _ THROTTLE_MS); [cbn; intuition discriminate|].
  destruct (chainDataRef st) as [[|r0 rest]|]; try (cbn; intuition discriminate).
  destruct (size (ticksRef f) =? 0)%nat; [cbn; intuition discriminate|].
  destruct (length (tokenMapRef f) =? 0)%nat; [cbn; intuition discriminate|].
  set (p := fold_left (visit (ticksRef f) (r0 :: rest)) (tokenMapRef f) ∅).
  destruct (0 <? size p)%nat; [|cbn; intuition discriminate].
  intros [H|[H|[]]]; [|discriminate]. inversion H; subst updated; clear H.
  exists (r0 :: rest). split; [reflexivity|]. split; [reflexivity|].
  split; [apply length_imap|].
  intros i r Hr. unfold updatedChain. rewrite list_lookup_imap, Hr. cbn.
  destruct (p !! i) as [u|] eqn:Hp.
  - exists (newRow r u). split; [reflexivity|].
    destruct (newRow_leg r u call_) as (Hs & _).
    split; [exact Hs|]. intros t.
    destruct (newRow_leg r u t) as (_ & Htok & Hltp).
    split; [exact Htok|].
    destruct Hltp as [Hsame|[Hdef Hset]]; [left; exact Hsame|].
    destruct (pending_origin (ticksRef f) (r0 :: rest) (tokenMapRef f)
                ∅ i u t Hp Hdef)
      as [(u0 & Hu0 & _)|(e & He & Hi & Ht & Hch & Hpl)].
    { rewrite lookup_empty in Hu0. discriminate. }
    right. exists e. rewrite Hset, Hpl.
    destruct Hch as (_ & Hpos & r1 & Hr1 & Hne).
    rewrite Hi, Hr in Hr1. inversion Hr1; subst r1. rewrite Ht in Hne.
    auto 10.
  - exists r. split; [reflexivity|]. split; [reflexivity|].
    intros t. split; [reflexivity|]. left. reflexivity.
Qed.

Lemma option_chain_update_touches_only_ltp_witness :
  In (setChainData Sample.chain_after)
     (snd (updateLoop (Sample.chain_frame 50) Sample.chain_refs))
  /\ exists currentChain,
      chainDataRef Sample.chain_refs = Some currentChain
      /\ length Sample.chain_after = length currentChain.
Proof.
  assert (H : In (setChainData Sample.chain_after)
                (snd (updateLoop (Sample.chain_frame 50) Sample.chain_refs))).
  { vm_compute. left. reflexivity. }
  split; [exact H|].
  destruct (option_chain_update_touches_only_ltp _ _ _ H)
    as (c & Hc & _ & Hlen & _).
  exists c. split; assumption.
Defined.

End ChainUpdate.

(** * Further properties of the option-chain hook *)

Section TokenMap.
Import useOptionChain Change OptionChainHook.

Lemma map_set_keys (m : list (string * position)) (k : string) (v : position) :
  forall k', In k' (map fst (map_set m k v)) <-> k' = k \/ In k' (map fst m).
Proof.
  induction m as [|[k0 v0] m IH]; intros k'; cbn.
  - intuition.
  - destruct (String.eqb_spec k0 k) as [->|Hne]; cbn.
    + intuition.
    + rewrite IH. intuition.
Qed.

Lemma map_set_NoDup (m : list (string * position)) (k : string) (v : position) :
  List.NoDup (map fst m) -> List.NoDup (map fst (map_set m k v)).
Proof.
  induction m as [|[k0 v0] m IH]; intros Hnd; cbn.
  - constructor; [intros []|constructor].
  - inversion Hnd as [|x l Hx Hl]; subst.
    destruct (String.eqb_spec k0 k) as [->|Hne]; cbn.
    + constructor; assumption.
    + constructor; [|apply IH; exact Hl].
      rewrite map_set_keys. intros [H|H]; [congruence|contradiction].
Qed.

Lemma add_leg_keys (i : nat) (r : row) (t : leg_type)
    (m : list (string * position)) :
  (forall k, In k (map fst (add_leg i r t m))
             <-> In k (token_of (match t with call_ => call r | put_ => put r end))
                 \/ In k (map fst m))
  /\ (List.NoDup (map fst m) -> List.NoDup (map fst (add_leg i r t m))).
Proof.
  unfold add_leg, token_of.
  destruct (match t with call_ => call r | put_ => put r end)
    as [[[[|c s]|] l]|]; cbn; try solve [split; [intuition|auto]].
  split.
  - intros k. rewrite map_set_keys. intuition.
  - apply map_set_NoDup.
Qed.

Lemma newTokenMap_keys (rows : list row) :
  forall (i : nat) (m : list (string * position)),
    (forall k, In k (map fst (newTokenMap rows i m))
               <-> In k (subscriptionList rows) \/ In k (map fst m))
    /\ (List.NoDup (map fst m) -> List.NoDup (map fst (newTokenMap rows i m))).
Proof.
  induction rows as [|r rest IH]; intros i m.
  - cbn. split; [intuition|auto].
  - cbn [newTokenMap subscriptionList flat_map].
    destruct (IH (Datatypes.S i) (add_leg i r put_ (add_leg i r call_ m)))
      as [Hk Hn].
    destruct (add_leg_keys i r put_ (add_leg i r call_ m)) as [Hk2 Hn2].
    destruct (add_leg_keys i r call_ m) as [Hk1 Hn1].
    split.
    + intros k. rewrite Hk, Hk2, Hk1, !in_app_iff. intuition.
    + intros H. auto.
Qed.

(** The token map that [subscribeToOptionStrikes] builds: its keys are
    exactly the tokens of the subscription list, each once however often a
    token occurs in the chain, and every entry points at a leg of the chain
    that carries the entry's token. *)
Theorem token_map_matches_subscription (chainArray : list row) :
  List.NoDup (map fst (newTokenMap chainArray 0 []))
  /\ (forall token,
         In token (map fst (newTokenMap chainArray 0 []))
         <-> In token (subscriptionList chainArray))
  /\ (forall entry,
         In entry (newTokenMap chainArray 0 []) ->
         stands_for chainArray entry)
  /\ (forall token,
         In token (subscriptionList chainArray) -> token <> EmptyString).
Proof.
  destruct (newTokenMap_keys chainArray 0 []) as [Hk Hn].
  split; [apply Hn; constructor|].
  split; [intros token; rewrite Hk; cbn; intuition|].
  split.
  - apply (newTokenMap_stands_for chainArray chainArray 0 []).
    + intros k r H. exact H.
    + intros e [].
  - intros token Hin. unfold subscriptionList in Hin.
    apply in_flat_map in Hin. destruct Hin as (r & _ & Hin).
    apply in_app_or in Hin. unfold token_of in Hin.
    destruct Hin as [Hin|Hin];
      [destruct (call r) as [[[[|c s]|] l]|]
      |destruct (put r) as [[[[|c s]|] l]|]];
      cbn in Hin; try contradiction;
      destruct Hin as [<-|[]]; discriminate.
Qed.

(** Subscribing and unsubscribing.  A subscription is made only when the
    socket is connected and the chain has a token; the unsubscription that
    follows names exactly the tokens that were subscribed, in the same
    mode, and empties the refs, so that a second unsubscription does
    nothing. *)
Theorem option_strikes_subscription_round_trip (isConnected : bool)
    (chainArray : option (list row)) (R : hook_refs) :
  let sub := subscribeToOptionStrikes isConnected chainArray R in
  let unsub := unsubscribeFromOptionStrikes (fst sub) in
  (snd sub = [] /\ fst sub = R
   \/ exists chain items,
       chainArray = Some chain /\ isConnected = true
       /\ items = subscriptionList chain /\ items <> []
       /\ snd sub = [subscribe items "ticker"]
       /\ subscribedTokensRef (fst sub) = items
       /\ tokenMapRef_ (fst sub) = newTokenMap chain 0 []
       /\ snd unsub = [unsubscribe items "ticker"]
       /\ fst unsub = {| subscribedTokensRef := [];
                         tokenMapRef_ := [];
                         lastFetchParamsRef := None |})
  /\ (isConnected = false -> snd sub = [])
  /\ unsubscribeFromOptionStrikes
       (fst (unsubscribeFromOptionStrikes R))
     = (fst (unsubscribeFromOptionStrikes R), []).
Proof.
  cbv zeta. split; [|split].
  - unfold subscribeToOptionStrikes.
    destruct chainArray as [[|r rest]|]; try (left; split; reflexivity).
    destruct isConnected; [|left; split; reflexivity].
    destruct (subscriptionList (r :: rest)) as [|x l] eqn:Hl;
      [left; split; reflexivity|].
    right. exists (r :: rest), (x :: l). rewrite Hl.
    repeat split; try reflexivity. discriminate.
  - intros ->. unfold subscribeToOptionStrikes.
    destruct chainArray as [[|r rest]|]; reflexivity.
  - unfold unsubscribeFromOptionStrikes.
    destruct (subscribedTokensRef R) eqn:HR; cbn; [rewrite HR|]; reflexivity.
Qed.

(** Duplicate fetches.  Without a name nothing is fetched.  A fetch that
    succeeds records its parameters, and a second call with the same
    parameters then does nothing at all; a fetch that fails records
    nothing, clears the chain and reports the error, so the same call
    fetches again.  Every call that fetches ends with [loading] cleared. *)
Theorem fetchOptionChain_suppresses_duplicates (q : params)
    (token : option string) (reply reply' : chain_reply)
    (lastFetchParams : option string) :
  let first := fetchOptionChain q token reply lastFetchParams in
  let second := fetchOptionChain q token reply' (fst first) in
  (name q = EmptyString -> first = (lastFetchParams, []))
  /\ (lastFetchParams = Some (paramsKey q) -> first = (lastFetchParams, []))
  /\ (snd first = []
      \/ exists rest,
          snd first
          = [setLoading true; setError None; fetch_chain q token]
              ++ rest ++ [setLoading false])
  /\ (name q <> EmptyString ->
      lastFetchParams <> Some (paramsKey q) ->
      match reply with
      | ok_body d =>
          fst first = Some (paramsKey q)
          /\ In (setChainData_ (data_chain d)) (snd first)
          /\ second = (fst first, [])
      | _ =>
          fst first = lastFetchParams
          /\ In (setChainData_ None) (snd first)
          /\ (exists message, In (setError (Some message)) (snd first))
          /\ In (fetch_chain q token) (snd second)
      end).
Proof.
  cbv zeta.
  assert (Hdup : forall k, k <> Some (paramsKey q) ->
                   match k with
                   | Some k' => String.eqb k' (paramsKey q)
                   | None => false
                   end = false).
  { intros [k'|] Hk; [|reflexivity]. apply String.eqb_neq. congruence. }
  split; [|split; [|split]].
  - intros H. unfold fetchOptionChain. rewrite H. reflexivity.
  - intros ->. unfold fetchOptionChain.
    destruct (name q); [reflexivity|]. rewrite String.eqb_refl. reflexivity.
  - unfold fetchOptionChain. destruct (name q); [left; reflexivity|].
    destruct (match lastFetchParams with
              | Some k => String.eqb k (paramsKey q)
              | None => false
              end); [left; reflexivity|].
    right. destruct reply as [m|d e|m|d].
    + exists [setError (Some m); setChainData_ None]. reflexivity.
    + exists [setError (Some (error_of d e)); setChainData_ None]. reflexivity.
    + exists [setError (Some m); setChainData_ None]. reflexivity.
    + exists [setChainData_ (data_chain d);
              setSpotInstrumentInfo (spotInstrumentInfo d);
              setSpotPrice_null]. reflexivity.
  - intros Hname Hlast. unfold fetchOptionChain.
    destruct (name q) as [|c n] eqn:Hn; [contradiction|].
    rewrite (Hdup _ Hlast).
    destruct reply; cbn [fst snd]; rewrite ?(Hdup _ Hlast), ?String.eqb_refl;
      cbn; try solve [eauto 10];
      (split; [reflexivity|]); (split; [auto 10|]);
      (split; [eexists; right; right; right; left; reflexivity|]);
      destruct reply'; cbn; auto.
Qed.

End TokenMap.

(** * Properties of the list of open orders *)

Section OrderListView.
Import OrderList.

Lemma merge_row_snapshot (instrumentData : list instrument)
    (orders liveTicks : gmap string tick) (r : row) :
  In r (merge instrumentData orders liveTicks) ->
  In (inst r) instrumentData
  /\ snapshot r = default ∅ (liveTicks !! tickKey (inst r))
                  ∪ default ∅ (orders !! tickKey (inst r)).
Proof.
  unfold merge. intros Hr. apply in_map_iff in Hr.
  destruct Hr as (i & <- & Hi). split; [exact Hi | reflexivity].
Qed.

(** Merging.  [allData] has one row per instrument, in the same order and
    with the instrument untouched; in the snapshot of a row every property
    of the live tick shadows the baseline's property of the same name, and
    the baseline shows through where the tick has none. *)
Theorem merge_overlays_ticks (instrumentData : list instrument)
    (orders liveTicks : gmap string tick) :
  map inst (merge instrumentData orders liveTicks) = instrumentData
  /\ forall r,
      In r (merge instrumentData orders liveTicks) ->
      forall k,
        snapshot r !! k
        = match default ∅ (liveTicks !! tickKey (inst r)) !! k with
          | Some v => Some v
          | None => default ∅ (orders !! tickKey (inst r)) !! k
          end.
Proof.
  split.
  - unfold merge. rewrite map_map. cbn. apply map_id.
  - intros r Hr k.
    destruct (merge_row_snapshot _ _ _ _ Hr) as [_ ->].
    destruct (default ∅ (liveTicks !! tickKey (inst r)) !! k) as [v|] eqn:Hk.
    + apply lookup_union_Some_l. exact Hk.
    + apply lookup_union_r. exact Hk.
Qed.

Lemma same_order_same_key (selected : Order.t) (item : row) :
  same_order selected item = true ->
  Order._id (order (inst item)) = Order._id selected
  \/ OpenOrder.tickKey (order (inst item)) = OpenOrder.tickKey selected.
Proof.
  unfold same_order, opt_eq, non_empty, OpenOrder.tickKey.
  intros H. apply orb_true_iff in H. destruct H as [H|H].
  - left. destruct (Order._id (order (inst item))) as [x|],
      (Order._id selected) as [y|]; try discriminate; [|reflexivity].
    apply String.eqb_eq in H. congruence.
  - right. apply andb_true_iff in H. destruct H as [_ H].
    destruct (Order.instrument_token (order (inst item))) as [x|],
      (Order.instrument_token selected) as [y|]; try discriminate;
      [|reflexivity].
    apply String.eqb_eq in H. congruence.
Qed.

Lemma opt_eq_refl (a : option string) : opt_eq a a = true.
Proof. destruct a; [apply String.eqb_refl | reflexivity]. Qed.

(** The bottom sheet gets the market data of the order it shows.  When the
    selected order is on display (some instrument has its [_id]) and an
    [_id] determines the instrument token, the data passed down is the
    merged snapshot of the selected order's own token, whichever row [find]
    stops at. *)
Theorem selected_order_gets_its_own_snapshot (selected : Order.t)
    (instrumentData : list instrument) (orders liveTicks : gmap string tick) :
  (exists i, In i instrumentData /\ Order._id (order i) = Order._id selected) ->
  (forall i, In i instrumentData ->
             Order._id (order i) = Order._id selected ->
             tickKey i = OpenOrder.tickKey selected) ->
  selectedOrderMarketData (Some selected)
    (merge instrumentData orders liveTicks)
  = default ∅ (liveTicks !! OpenOrder.tickKey selected)
    ∪ default ∅ (orders !! OpenOrder.tickKey selected).
Proof.
  intros (i0 & Hi0 & Hid0) Hkey. unfold selectedOrderMarketData.
  destruct (find (same_order selected) (merge instrumentData orders liveTicks))
    as [found|] eqn:Hfind.
  - apply find_some in Hfind. destruct Hfind as [Hin Hsame].
    unfold merge in Hin. apply in_map_iff in Hin.
    destruct Hin as (i & <- & Hi). cbn [snapshot].
    assert (Hk : tickKey i = OpenOrder.tickKey selected).
    { destruct (same_order_same_key _ _ Hsame) as [H|H]; cbn [inst] in H.
      - apply Hkey; assumption.
      - exact H. }
    rewrite Hk. reflexivity.
  - exfalso.
    pose proof (find_none _ _ Hfind
                  {| inst := i0;
                     snapshot := default ∅ (liveTicks !! tickKey i0)
                                 ∪ default ∅ (orders !! tickKey i0) |}) as H.
    assert (Hin : In {| inst := i0;
                        snapshot := default ∅ (liveTicks !! tickKey i0)
                                    ∪ default ∅ (orders !! tickKey i0) |}
                     (merge instrumentData orders liveTicks)).
    { unfold merge. apply in_map_iff. exists i0. split; [reflexivity|exact Hi0]. }
    specialize (H Hin). unfold same_order in H. cbn [inst] in H.
    rewrite Hid0, opt_eq_refl in H. discriminate.
Qed.

Lemma selected_order_gets_its_own_snapshot_witness :
  selectedOrderMarketData (Some (Sample.order "BUY" "MIS" 100))
    (merge [SampleList.position None] SampleList.baseline Sample.store)
  = default ∅ (Sample.store !! "256265"%string)
    ∪ default ∅ (SampleList.baseline !! "256265"%string).
Proof.
  apply (selected_order_gets_its_own_snapshot
           (Sample.order "BUY" "MIS" 100) [SampleList.position None]
           SampleList.baseline Sample.store).
  - exists (SampleList.position None). split; [left|]; reflexivity.
  - intros i [<-|[]] _. reflexivity.
Defined.

(** A row shows the live price.  When the tick store holds a tick with a
    non-zero numeric [ltp] under the token of a listed instrument, the row
    of that instrument displays that price, and Exit All closes the order
    at it: whatever the baseline quote says, and also for an order placed
    from the option chain. *)
Theorem list_row_shows_live_tick (instrumentData : list instrument)
    (orders liveTicks : gmap string tick) (r : row) (t : tick) (q : Q) :
  In r (merge instrumentData orders liveTicks) ->
  liveTicks !! tickKey (inst r) = Some t ->
  t !! "ltp"%string = Some (Val (Num q)) ->
  ~ q == 0 ->
  shown_ltp r = Num q /\ currentLtp r = Num q.
Proof.
  intros Hr Ht Hltp Hq.
  destruct (merge_row_snapshot _ _ _ _ Hr) as [_ Hsnap].
  assert (Hp : prop (snapshot r) "ltp" = Val (Num q)).
  { unfold prop. rewrite Hsnap, Ht. cbn [default].
    rewrite (lookup_union_Some_l _ _ _ _ Hltp). reflexivity. }
  assert (Hz : Qeq_bool q 0 = false).
  { destruct (Qeq_bool q 0) eqn:E; [|reflexivity].
    apply Qeq_bool_iff in E. contradiction. }
  unfold shown_ltp, currentLtp. rewrite Hp. cbn.
  rewrite Hz. cbn. rewrite andb_false_r. cbn. unfold or_else. cbn.
  rewrite Hz. split; reflexivity.
Qed.

Lemma list_row_shows_live_tick_witness :
  shown_ltp {| inst := SampleList.position (Some "ui_option_chain"%string);
               snapshot := Sample.nifty_tick ∪ ∅ |} = Num 101.5.
Proof.
  refine (proj1 (list_row_shows_live_tick
                   [SampleList.position (Some "ui_option_chain"%string)]
                   ∅ Sample.store
                   {| inst := SampleList.position
                                (Some "ui_option_chain"%string);
                      snapshot := Sample.nifty_tick ∪ ∅ |}
                   Sample.nifty_tick 101.5 _ _ _ _)).
  - left. reflexivity.
  - reflexivity.
  - reflexivity.
  - discriminate.
Defined.

End OrderListView.

Section ExitAll.
Import OrderList.

Lemma ltpData_snoc (l : list row) (r : row) :
  ltpData (l ++ [r]) = record_ltp (ltpData l) r.
Proof. unfold ltpData. rewrite fold_left_app. reflexivity. Qed.

Lemma ltpData_entries (l : list row) :
  (forall k v,
      ltpData l !! k = Some v ->
      k <> EmptyString
      /\ exists r, In r l /\ Order._id (order (inst r)) = Some k
                   /\ v = currentLtp r)
  /\ (forall r k,
         In r l -> Order._id (order (inst r)) = Some k -> k <> EmptyString ->
         is_Some (ltpData l !! k)).
Proof.
  induction l as [|r l IH] using rev_ind.
  - split.
    + intros k v H. unfold ltpData in H. cbn in H.
      rewrite lookup_empty in H. discriminate.
    + intros r k [].
  - destruct IH as [IH1 IH2]. rewrite ltpData_snoc. unfold record_ltp.
    split.
    + intros k v H.
      destruct (Order._id (order (inst r))) as [[|c s]|] eqn:Hid;
        try (destruct (IH1 k v H) as (Hk & r' & Hr' & H');
             split; [exact Hk|]; exists r'; rewrite in_app_iff; auto).
      destruct (decide (String c s = k)) as [<-|Hne].
      * rewrite lookup_insert_eq in H. inversion H; subst v.
        split; [discriminate|]. exists r. rewrite in_app_iff. cbn. auto.
      * rewrite lookup_insert_ne in H by assumption.
        destruct (IH1 k v H) as (Hk & r' & Hr' & H').
        split; [exact Hk|]. exists r'. rewrite in_app_iff. auto.
    + intros r' k Hin Hid' Hk. apply in_app_or in Hin.
      assert (Hstep : forall m : gmap string number,
                 is_Some (m !! k) ->
                 is_Some (match Order._id (order (inst r)) with
                          | Some (String c s) => <[String c s := currentLtp r]> m
                          | _ => m
                          end !! k)).
      { intros m Hm. destruct (Order._id (order (inst r))) as [[|c s]|];
          try exact Hm.
        destruct (decide (String c s = k)) as [<-|Hne].
        - rewrite lookup_insert_eq. eauto.
        - rewrite lookup_insert_ne by assumption. exact Hm. }
      destruct Hin as [Hin|[<-|[]]].
      * apply Hstep. eapply IH2; eauto.
      * rewrite Hid'. destruct k as [|c s]; [contradiction|].
        rewrite lookup_insert_eq. eauto.
Qed.

(** Exit all.  One request goes out, between [setIsExiting(true)] and
    [setIsExiting(false)], whatever the reply.  Its [closed_ltp_map] has an
    entry for exactly the displayed orders that have an [_id], and the
    price of an entry is read from a displayed row with that [_id]: the
    merged snapshot's [ltp] if there is one, else the order's own [ltp],
    else 0, with no jobbing adjustment.  The list is fetched again and the
    dialog closed only when the reply is ok and reports success; any other
    reply raises an alert and leaves the dialog open. *)
Theorem exit_all_closes_displayed_orders (displayList : list row)
    (closed_at : string) (reply : exit_reply) :
  (exists middle,
      handleExitAll displayList closed_at reply
      = [setIsExiting true;
         put_exitAllOpenOrder (ltpData displayList) closed_at]
          ++ middle ++ [setIsExiting false]
      /\ (middle = [call_fetchInstrumentData; setShowExitModal false]
          /\ (exists message, reply = exit_response true true message)
          \/ (exists message, middle = [alert_ message])
             /\ forall message, reply <> exit_response true true message))
  /\ (forall k v,
         ltpData displayList !! k = Some v ->
         k <> EmptyString
         /\ exists r,
             In r displayList /\ Order._id (order (inst r)) = Some k
             /\ v = Number (coalesce (prop (snapshot r) "ltp")
                              (coalesce (ltp (inst r)) (Val (Num 0)))))
  /\ (forall r k,
         In r displayList ->
         Order._id (order (inst r)) = Some k -> k <> EmptyString ->
         is_Some (ltpData displayList !! k)).
Proof.
  destruct (ltpData_entries displayList) as [H1 H2].
  split; [|split; [exact H1|exact H2]].
  unfold handleExitAll. eexists. split; [reflexivity|].
  destruct reply as [|[|] [|] message]; cbn.
  - right. split; [eauto|]. discriminate.
  - left. eauto.
  - right. split; [eauto|]. intros m H. discriminate.
  - right. split; [eauto|]. intros m H. discriminate.
  - right. split; [eauto|]. intros m H. discriminate.
Qed.

(** Fetching the orders.  Every call ends with the loader cleared and sets
    the instrument list and the error exactly once.  The list is replaced
    by the reply's array only when the response is ok and readable; every
    failure empties the list and sets an error message. *)
Theorem fetchInstrumentData_never_keeps_stale_orders (reply : orders_reply) :
  exists l e,
    fetchInstrumentData reply
    = [setLoader true; get_getOrderInstrument;
       setInstrumentData l; setError e; setLoader false]
    /\ (e <> None -> l = [])
    /\ (e = None <->
        exists data, reply = orders_response true data
                     /\ forall message, data <> body_unreadable message)
    /\ (l <> [] ->
        reply = orders_response true (body_with_ordersInstrument l)
        \/ reply = orders_response true (body_array l)).
Proof.
  destruct reply as [m|[|] [m|l|l|]]; cbn; do 2 eexists;
    (split; [reflexivity|]); (split; [try congruence|]);
    (split; [|try congruence; auto]);
    try (split; [discriminate|]; intros (d & H & H'); inversion H; subst;
         try discriminate; exfalso; eapply H'; reflexivity);
    split; try reflexivity; try discriminate; intros _; eexists;
    (split; [reflexivity|]); discriminate.
Qed.

End ExitAll.

Section Subscription.
Import OrderList.

Lemma subscribed_are_unsubscribed (instrumentData : list instrument)
    (k : string) :
  In k (subscribed_items instrumentData) ->
  In k (unsubscribed_items instrumentData).
Proof.
  unfold subscribed_items, unsubscribed_items. rewrite !in_flat_map.
  intros (i & Hi & Hk). exists i. split; [exact Hi|].
  unfold tickKey, OpenOrder.tickKey.
  destruct (Order.instrument_token (order i)) as [[|c s]|]; cbn in *;
    try contradiction. exact Hk.
Qed.

Lemma unsubscribed_origin (instrumentData : list instrument) (k : string) :
  In k (unsubscribed_items instrumentData) ->
  In k (subscribed_items instrumentData) \/ k = "undefined"%string.
Proof.
  unfold subscribed_items, unsubscribed_items. rewrite !in_flat_map.
  intros (i & Hi & Hk). unfold tickKey, OpenOrder.tickKey in Hk.
  destruct (Order.instrument_token (order i)) as [[|c s]|] eqn:Ht;
    cbn in Hk; try contradiction.
  - left. exists i. split; [exact Hi|]. rewrite Ht. exact Hk.
  - right. destruct Hk as [<-|[]]. reflexivity.
Qed.


End Subscription.

Section HookEffects.
Import useOptionChain OptionChainHook OptionChainEffects.

(** A change of parameters while option strikes are subscribed.  The
    effect first releases those strikes, which also forgets the key of the
    last fetch; so the duplicate guard cannot hold the new fetch back and
    the request goes out, whatever key was recorded before.  Anything
    subscribed afterwards is subscribed only when the socket is connected
    and the fetch has returned data. *)
Theorem initial_fetch_refetches_after_release (q : params)
    (token : option string) (isConnected : bool) (reply : chain_reply)
    (R : hook_refs) :
  name q <> EmptyString ->
  subscribedTokensRef R <> [] ->
  exists rest,
    snd (initial_fetch q token isConnected reply R)
    = [transport (unsubscribe (subscribedTokensRef R) "ticker");
       state_change (setLoading true);
       state_change (setError None);
       state_change (fetch_chain q token)] ++ rest
    /\ forall items mode,
        In (transport (subscribe items mode)) rest ->
        isConnected = true /\ exists d, reply = ok_body d.
Proof.
  intros Hname Hsub. unfold initial_fetch, unsubscribeFromOptionStrikes.
  destruct (name q) as [|c s] eqn:Hn; [contradiction|].
  destruct (subscribedTokensRef R) as [|t ts] eqn:Ht; [contradiction|].
  cbn [lastFetchParamsRef subscribedTokensRef tokenMapRef_].
  unfold fetchOptionChain, fetchOptionChain_result. rewrite Hn.
  destruct reply as [m|d e|m|[[chain|] spot]]; cbn [map app fst snd];
    try (eexists; split; [reflexivity|];
         intros items mode H; cbn in H;
         repeat (destruct H as [H|H]; [discriminate|]); destruct H).
  destruct isConnected.
  - destruct (subscribeToOptionStrikes true (Some chain) _) as [R3 subscribed].
    cbn [snd map app]. eexists. split; [reflexivity|].
    intros items mode _. split; [reflexivity|]. eexists. reflexivity.
  - cbn [snd map app]. eexists. split; [reflexivity|].
    intros items mode H. cbn in H.
    repeat (destruct H as [H|H]; [discriminate|]). destruct H.
Qed.

Lemma initial_fetch_refetches_after_release_witness :
  exists rest,
    snd (initial_fetch SampleHook.nifty (Some "jwt"%string) true
           (ok_body SampleHook.reply) SampleHook.subscribed)
    = [transport (unsubscribe ["256265"; "256266"]%string "ticker");
       state_change (setLoading true);
       state_change (setError None);
       state_change (fetch_chain SampleHook.nifty (Some "jwt"%string))]
        ++ rest.
Proof.
  destruct (initial_fetch_refetches_after_release SampleHook.nifty
              (Some "jwt"%string) true (ok_body SampleHook.reply)
              SampleHook.subscribed)
    as (rest & H & _).
  - discriminate.
  - discriminate.
  - exists rest. exact H.
Defined.

(** Re-subscribing on reconnect.  The effect subscribes at most the option
    tokens of the chain on display, and only while nothing is subscribed;
    once it has subscribed, running it again, for any chain and connection
    state, sends nothing. *)
Theorem resubscribe_happens_once (isConnected : bool)
    (chainData : option (list row)) (R : hook_refs) :
  let first := resubscribe isConnected chainData R in
  (snd first = [] /\ fst first = R
   \/ exists chain,
       chainData = Some chain /\ isConnected = true
       /\ subscribedTokensRef R = []
       /\ snd first = [subscribe (subscriptionList chain) "ticker"]
       /\ subscribedTokensRef (fst first) = subscriptionList chain)
  /\ (snd first <> [] ->
      forall isConnected' chainData',
        resubscribe isConnected' chainData' (fst first) = (fst first, [])).
Proof.
  cbv zeta.
  assert (H : snd (resubscribe isConnected chainData R) = []
              /\ fst (resubscribe isConnected chainData R) = R
              \/ exists chain t ts,
                  chainData = Some chain /\ isConnected = true
                  /\ subscribedTokensRef R = []
                  /\ subscriptionList chain = t :: ts
                  /\ resubscribe isConnected chainData R
                     = ({| subscribedTokensRef := t :: ts;
                           tokenMapRef_ := newTokenMap chain 0 [];
                           lastFetchParamsRef := lastFetchParamsRef R |},
                        [subscribe (t :: ts) "ticker"])).
  { unfold resubscribe, subscribeToOptionStrikes.
    destruct chainData as [[|r rest]|]; [| |left; split; reflexivity].
    - left. destruct (subscribedTokensRef R), isConnected; split; reflexivity.
    - destruct (subscribedTokensRef R) as [|x xs] eqn:Hs;
        [|left; split; reflexivity].
      destruct isConnected; [|left; split; reflexivity].
      destruct (subscriptionList (r :: rest)) as [|t ts] eqn:Hl;
        [left; split; reflexivity|].
      right. exists (r :: rest), t, ts. rewrite Hl. auto 10. }
  split.
  - destruct H as [H|(chain & t & ts & Hc & Hi & Hs & Hl & Hr)]; [left; exact H|].
    right. exists chain. rewrite Hr, Hl. cbn. auto 10.
  - intros Hne isConnected' chainData'.
    destruct H as [[H _]|(chain & t & ts & Hc & Hi & Hs & Hl & Hr)];
      [contradiction|].
    rewrite Hr. cbn [fst]. unfold resubscribe. cbn [subscribedTokensRef].
    destruct chainData'; reflexivity.
Qed.

(** The spot price is published on change only.  A value passed to
    [setSpotPrice] is the [ltp] of the spot instrument's tick, a number
    above zero and different from the spot price held; and once the spot
    price holds that value, the loop publishes nothing for the same tick
    store, at any later time. *)
Theorem spot_price_published_on_change_only (timestamp : Q)
    (ticks : gmap string tick) (token : string) (spotPrice : field)
    (lastUpdate : Q) (v : field) :
  In (setSpotPrice v)
     (snd (spotUpdateLoop timestamp ticks token spotPrice lastUpdate)) ->
  (exists spotTick q,
      ticks !! token = Some spotTick /\ prop spotTick "ltp" = v
      /\ v = Val (Num q) /\ 0 < q)
  /\ strict_eqb spotPrice v = false
  /\ fst (spotUpdateLoop timestamp ticks token spotPrice lastUpdate)
     = timestamp
  /\ forall timestamp' lastUpdate',
      spotUpdateLoop timestamp' ticks token v lastUpdate'
      = (lastUpdate', [requestAnimationFrame_]).
Proof.
  unfold spotUpdateLoop.
  destruct (Qltb (timestamp - lastUpdate) THROTTLE_MS);
    [intros [H|[]]; discriminate|].
  destruct (size ticks =? 0)%nat eqn:Hsize; [intros [H|[]]; discriminate|].
  destruct (ticks !! token) as [spotTick|] eqn:Ht;
    [|cbn; intros [H|[]]; discriminate].
  destruct (prop spotTick "ltp") as [| |[|q]] eqn:Hltp;
    try (cbn; intros [H|[]]; discriminate).
  cbn [strict_eqb negb andb Number gtb cmp].
  destruct (Qgtb q 0) eqn:Hq; [|intros [H|[]]; discriminate].
  destruct (strict_eqb spotPrice (Val (Num q))) eqn:Heq;
    [intros [H|[]]; discriminate|].
  cbn [negb snd fst]. intros [H|[H|[]]]; [|discriminate].
  inversion H; subst v. clear H.
  assert (Hpos : 0 < q).
  { unfold Qgtb, Qltb in Hq. apply negb_true_iff in Hq.
    destruct (Qlt_le_dec 0 q) as [Hl|Hl]; [exact Hl|].
    apply Qle_bool_iff in Hl. congruence. }
  split; [|split; [exact Heq|split; [reflexivity|]]].
  - exists spotTick, q. auto.
  - intros timestamp' lastUpdate'.
    destruct (Qltb (timestamp' - lastUpdate') THROTTLE_MS); [reflexivity|].
    cbn [strict_eqb negb andb Number gtb cmp].
    assert (Hqq : Qeq_bool q q = true) by (apply Qeq_bool_iff; reflexivity).
    rewrite Hqq. reflexivity.
Qed.

Lemma spot_price_published_on_change_only_witness :
  In (setSpotPrice (Val (Num 101.5)))
     (snd (spotUpdateLoop 50 Sample.store "256265" Null 0))
  /\ spotUpdateLoop 100 Sample.store "256265" (Val (Num 101.5)) 50
     = (50, [requestAnimationFrame_]).
Proof.
  assert (H : In (setSpotPrice (Val (Num 101.5)))
                (snd (spotUpdateLoop 50 Sample.store "256265" Null 0))).
  { vm_compute. left. reflexivity. }
  split; [exact H|].
  destruct (spot_price_published_on_change_only _ _ _ _ _ _ H)
    as (_ & _ & _ & Hagain).
  apply Hagain.
Defined.

End HookEffects.

(** ** The backend *)

Section Quotes.
Import KiteQuote.

(** Quotes from Kite.  Without tokens the answer is the empty object and
    nothing is read or sent.  A request goes out only after the database
    has given a credential with both an API key and an access token, it is
    the second and last step, and it carries both in its [Authorization]
    header.  Quotes are returned only from a readable reply whose [status]
    is "success", and are then its [data], or the empty object if it has
    none. *)
Theorem getKiteQuote_contract (instrumentTokens : option (list string))
    (db : db_reply) (reply : http_reply) :
  let r := getKiteQuote instrumentTokens db reply in
  (default [] instrumentTokens = [] -> r = ([], inr ∅))
  /\ (forall url auth,
         In (http_get url auth) (fst r) ->
         exists tokens k t,
           instrumentTokens = Some tokens /\ tokens <> []
           /\ db = db_found (Some {| api_key := Some k;
                                     access_token := Some t |})
           /\ k <> EmptyString /\ t <> EmptyString
           /\ auth = authorization k t
           /\ url = (BASE_URL ++ "/quote?" ++ tokenParams tokens)%string
           /\ fst r = [findOne_active; http_get url auth])
  /\ (forall quotes,
         snd r = inr quotes ->
         default [] instrumentTokens = [] /\ quotes = ∅
         \/ exists b,
             reply = ok_json b /\ status b = Some "success"%string
             /\ quotes = default ∅ (data b)).
Proof.
  cbv zeta. unfold getKiteQuote.
  destruct instrumentTokens as [[|t0 ts]|]; cbn [default].
  1,3: split; [reflexivity|]; split;
       [intros url auth [] | intros quotes H; left; inversion H; auto].
  split; [discriminate|].
  unfold getKiteCredentials.
  destruct db as [m|[[[[|a k]|] [[|b t]|]]|]]; cbn [fst snd];
    try (split; [intros url auth [H|[]]; discriminate
                | intros quotes H; discriminate]).
  split.
  - intros url auth [H|[H|[]]]; [discriminate|]. inversion H; subst.
    exists (t0 :: ts), (String a k), (String b t).
    repeat split; try reflexivity; discriminate.
  - intros quotes H. right.
    destruct reply as [m|st [x|m]|m|body]; try discriminate.
    + destruct (st =? 403)%Z; discriminate.
    + destruct (status body) as [s|] eqn:Hs; cbn in H; [|discriminate].
      destruct (String.eqb s "success") eqn:Hsuccess; cbn in H;
        [|discriminate].
      apply String.eqb_eq in Hsuccess. subst s. inversion H.
      exists body. auto.
Qed.

(** The three quote functions succeed on the same inputs with the same
    data, and read the database and send a request in the same cases.
    They part on a refused request: only [getKiteQuote] reports status
    403 as an expired access token; the other two report 403 as they
    report any other status. *)
Theorem quote_functions_agree (instrumentTokens : option (list string))
    (db : db_reply) (reply : http_reply) :
  (forall quotes,
      (snd (getKiteQuote instrumentTokens db reply) = inr quotes <->
       snd (getKiteLTP instrumentTokens db reply) = inr quotes)
      /\ (snd (getKiteQuote instrumentTokens db reply) = inr quotes <->
          snd (getKiteOHLC instrumentTokens db reply) = inr quotes))
  /\ length (fst (getKiteQuote instrumentTokens db reply))
     = length (fst (getKiteLTP instrumentTokens db reply))
  /\ length (fst (getKiteQuote instrumentTokens db reply))
     = length (fst (getKiteOHLC instrumentTokens db reply))
  /\ (snd (getKiteQuote instrumentTokens db reply) = inl TokenExpired <->
      exists errorText,
        snd (getKiteLTP instrumentTokens db reply) = inl (ApiError "LTP" 403)
        /\ reply = not_ok 403 (text_is errorText))
  /\ snd (getKiteLTP instrumentTokens db reply) <> inl TokenExpired
  /\ snd (getKiteOHLC instrumentTokens db reply) <> inl TokenExpired.
Proof.
  unfold getKiteQuote, getKiteLTP, getKiteOHLC.
  destruct instrumentTokens as [[|t0 ts]|]; cbn [fst snd].
  1,3: repeat split; try tauto; try discriminate;
       intros (x & H & _); discriminate.
  unfold getKiteCredentials.
  destruct db as [m|[[[[|a k]|] [[|b t]|]]|]]; cbn [fst snd length];
    try (repeat split; try tauto; try discriminate;
         intros (x & H & _); discriminate).
  destruct reply as [m|st [x|m]|m|body];
    try (repeat split; try tauto; try discriminate;
         intros (y & H & _); discriminate).
  - destruct (st =? 403)%Z eqn:Hst.
    + apply Z.eqb_eq in Hst. subst st.
      repeat split; try discriminate; eauto.
    + repeat split; try discriminate.
      intros (y & _ & H). inversion H; subst. discriminate.
  - destruct (negb (OpenOrderBottomWindow.opt_eqb (status body) "success"));
      repeat split; try tauto; try discriminate;
      intros (y & H & _); discriminate.
Qed.

End Quotes.

Section Controller.
Import OptionChainController.

Context {Expiry Row Info : Type}.
Variable normalizeToOptionSegment : string -> outcome string.
Variable getOptionSegment : string -> outcome string.
Variable getNearestExpiry : list Expiry -> outcome (option Expiry).
Variable kiteGetExpiryList : string -> string -> outcome (list Expiry).
Variable kiteGetOptionChain :
  string -> string -> target Expiry -> outcome (optionChainData Row Info).

(** The option chain.  The request is refused with 400 exactly when it has
    no name, and then no instrument service is consulted.  Every service is
    asked about the upper-cased name; the expiry list is read only for a
    request that names no expiry.  A chain is sent only with status 200
    and is then the non-empty chain that the chain service returned for
    the underlying, segment and expiry named in the answer. *)
Theorem getOptionChain_answers (q : query) (now : string) :
  let r := getOptionChain normalizeToOptionSegment getOptionSegment
             getNearestExpiry kiteGetExpiryList kiteGetOptionChain q now in
  (code (snd r) = 400%Z <-> given (name q) = None)
  /\ (given (name q) = None -> fst r = [])
  /\ (forall l,
         In l (fst r) ->
         exists n, given (name q) = Some n /\ underlying_of l = toUpperCase n)
  /\ (forall n s, In (expiry_list_of n s) (fst r) -> given (expiry q) = None)
  /\ (forall b,
         sent (snd r) = chain_json b ->
         code (snd r) = 200%Z
         /\ body_chain b <> []
         /\ In (option_chain_of (body_underlying b) (body_segment b)
                  (body_expiry b)) (fst r)
         /\ exists d,
             kiteGetOptionChain (body_underlying b) (body_segment b)
               (body_expiry b) = returns d
             /\ chain d = Some (body_chain b))
  /\ (code (snd r) = 200%Z -> exists b, sent (snd r) = chain_json b).
Proof.
  cbv zeta. unfold getOptionChain, server_error.
  destruct (given (name q)) as [n|] eqn:Hn.
  2:{ cbn. repeat split; try tauto; try discriminate. }
  set (u := toUpperCase n).
  destruct (optionSegment normalizeToOptionSegment getOptionSegment q u)
    as [m|seg] eqn:Hseg.
  { cbn. repeat split; try discriminate; try tauto. }
  assert (Hu : forall l : lookup Expiry,
             underlying_of l = u ->
             exists n0, Some n = Some n0 /\ underlying_of l = toUpperCase n0).
  { intros l Hl. exists n. auto. }
  destruct (given (expiry q)) as [e|] eqn:He;
    [|unfold and_then;
      destruct (kiteGetExpiryList u seg) as [m|es] eqn:Hes;
      [|destruct (getNearestExpiry es) as [m|[e|]] eqn:Hne]];
    try match goal with
        | |- context [kiteGetOptionChain u seg ?t] =>
            destruct (kiteGetOptionChain u seg t) as [m'|d] eqn:Hd;
            [|destruct (chain d) as [[|r0 rows]|] eqn:Hc]
        end;
    cbn [fst snd code sent app];
    (split; [split; intros H; discriminate|]);
    (split; [discriminate|]);
    (split;
     [intros l Hl; apply Hu; cbn in Hl;
      repeat (destruct Hl as [<-|Hl]; [reflexivity|]); destruct Hl|]);
    (split;
     [intros n' s' Hl; cbn in Hl;
      repeat (destruct Hl as [Hl|Hl]; [try discriminate; reflexivity|]);
      destruct Hl|]);
    (split; [|try (intros H; discriminate)]);
    try (intros b H; discriminate).
  all: try (intros b H; inversion H; subst b; cbn;
            split; [reflexivity|]; split; [discriminate|];
            split; [auto|]; exists d; auto).
  all: intros _; eexists; reflexivity.
Qed.

(** The expiry list.  The request is refused with 400 exactly when it has
    no name.  An answer that lists expiries has status 200; the list is
    what the expiry service returned for the upper-cased name and the
    resolved segment, [count] is its length and [nearest] is the choice of
    [getNearestExpiry] from that very list. *)
Theorem getExpiryList_answers (q : query) :
  let r := getExpiryList normalizeToOptionSegment getOptionSegment
             getNearestExpiry kiteGetExpiryList (Row := Row) (Info := Info)
             q in
  (code (snd r) = 400%Z <-> given (name q) = None)
  /\ (forall expiries nearest_ count,
         sent (snd r) = expiries_json expiries nearest_ count ->
         code (snd r) = 200%Z
         /\ count = length expiries
         /\ exists n segment_,
             given (name q) = Some n
             /\ optionSegment normalizeToOptionSegment getOptionSegment q
                  (toUpperCase n) = returns segment_
             /\ fst r = [expiry_list_of (toUpperCase n) segment_]
             /\ kiteGetExpiryList (toUpperCase n) segment_ = returns expiries
             /\ getNearestExpiry expiries = returns nearest_)
  /\ (code (snd r) = 200%Z ->
      exists expiries nearest_,
        sent (snd r) = expiries_json expiries nearest_ (length expiries)).
Proof.
  cbv zeta. unfold getExpiryList, server_error.
  destruct (given (name q)) as [n|] eqn:Hn.
  2:{ cbn. repeat split; try tauto; discriminate. }
  destruct (optionSegment normalizeToOptionSegment getOptionSegment q
              (toUpperCase n)) as [m|seg] eqn:Hseg.
  { cbn. repeat split; try discriminate. }
  destruct (kiteGetExpiryList (toUpperCase n) seg) as [m|es] eqn:Hes.
  { cbn. repeat split; try discriminate. }
  destruct (getNearestExpiry es) as [m|nearestExpiry] eqn:Hne.
  { cbn. repeat split; try discriminate. }
  cbn. split; [split; discriminate|]. split.
  - intros expiries nearest_ count H. inversion H; subst.
    split; [reflexivity|]. split; [reflexivity|].
    exists n, seg. auto 10.
  - intros _. eauto.
Qed.

End Controller.
